(** * NPU caching allocator and asynchronous task queue: a shallow embedding

    The definitions below follow
    [torch_npu/csrc/core/npu/NPUCachingAllocator.cpp],
    [torch_npu/csrc/core/npu/NPUQueue.cpp] and
    [torch_npu/csrc/aten/ops/XlogyKernelNpu.cpp].

    Conventions.
    - [size_t] values are integers in [0, 2^64); every [size_t] operation
      is followed by [wrap64].
    - [int64_t] and [int] counters are integers; signed overflow is
      undefined in the source and is not modelled.  A [size_t] passed where
      an [int64_t] is expected goes through [to_int64].
    - [double] values (the memory fraction, the garbage collection
      threshold and the block ages) are the rationals they stand for;
      every [double] operation is followed by [round_double].
    - A [Block*] is an address into [heap]; address 0 is [nullptr].
    - Calls to the vendor driver are recorded in [trace]. *)

From Stdlib Require Import ZArith Lia List Bool QArith Qround Sorted.
From stdpp Require Import base option list gmap strings.
From Stdlib Require Import Ascii.

Local Open Scope Z_scope.

(** ** Machine integers *)

Definition SIZE_MAX : Z := 2 ^ 64 - 1.

Definition wrap64 (z : Z) : Z := z mod 2 ^ 64.

(** Conversion of a 64-bit pattern to [int64_t]. *)
Definition to_int64 (z : Z) : Z := (z + 2 ^ 63) mod 2 ^ 64 - 2 ^ 63.

Definition is_size_t (z : Z) : Prop := 0 <= z < 2 ^ 64.

(** ** Doubles *)

(** The integer nearest to [q], the even one of the two when [q] is half
    way between them. *)
Definition round_half_even (q : Q) : Z :=
  let f := Qfloor q in
  match (q - inject_Z f ?= 1 # 2)%Q with
  | Lt => f
  | Gt => f + 1
  | Eq => if Z.even f then f else f + 1
  end.

(** For [0 < q], the exponent [e] with [2^e <= q < 2^(e+1)]. *)
Definition binade (q : Q) : Z :=
  let e := Z.log2 (Qnum q) - Z.log2 (Zpos (Qden q)) in
  if Qle_bool ((2 # 1) ^ e) q then e else e - 1.

(** Rounding to the nearest [double]: 53 significant bits, ties to even.
    The exponent range of [double] is not modelled: no value is too large
    or too small to be held. *)
Definition round_double (q : Q) : Q :=
  match Qnum q with
  | 0 => 0%Q
  | Zpos _ =>
      let ulp := ((2 # 1) ^ (binade q - 52))%Q in
      (inject_Z (round_half_even (q / ulp)) * ulp)%Q
  | Zneg _ =>
      let ulp := ((2 # 1) ^ (binade (- q) - 52))%Q in
      (- (inject_Z (round_half_even (- q / ulp)) * ulp))%Q
  end.

(** [static_cast<size_t>] of a [double]: the fraction is dropped.  The
    source leaves the conversion of a value outside [size_t] undefined;
    here it wraps around. *)
Definition double_to_size_t (d : Q) : Z :=
  wrap64 (Z.quot (Qnum d) (Zpos (Qden d))).

(** [static_cast<size_t>(x * n)] for a [double] [x] and a [size_t] [n]:
    [n] is converted to [double] and the product is rounded. *)
Definition double_times_size_t (x : Q) (n : Z) : Z :=
  double_to_size_t (round_double (x * round_double (inject_Z n))).

(** ** Constants (NPUCachingAllocator.cpp, lines 62-67) *)

Definition kMinBlockSize : Z := 512.
Definition kSmallSize : Z := 1048576.
Definition kSmallBuffer : Z := 2097152.
Definition kLargeBuffer : Z := 20971520.
Definition kMinLargeAlloc : Z := 10485760.
Definition kRoundLarge : Z := 2097152.

(** ** Statistics *)

(** Modelled from the spec: the declarations of [Stat], [StatType],
    [StatArray] and [DeviceStats] live in NPUCachingAllocator.h, which is
    not part of the sources; the fields are the ones the allocator uses
    (current / peak / allocated / freed, broken down by aggregate, small
    pool and large pool). *)
Record Stat := mkStat {
  current : Z;
  peak : Z;
  allocated : Z;
  freed : Z
}.

Definition zero_stat : Stat := mkStat 0 0 0 0.

Inductive StatType := AGGREGATE | SMALL_POOL | LARGE_POOL.

Definition all_stat_types : list StatType := [AGGREGATE; SMALL_POOL; LARGE_POOL].

Record StatArray := mkStatArray {
  sa_aggregate : Stat;
  sa_small_pool : Stat;
  sa_large_pool : Stat
}.

Definition sa_get (a : StatArray) (t : StatType) : Stat :=
  match t with
  | AGGREGATE => sa_aggregate a
  | SMALL_POOL => sa_small_pool a
  | LARGE_POOL => sa_large_pool a
  end.

Definition sa_set (a : StatArray) (t : StatType) (s : Stat) : StatArray :=
  match t with
  | AGGREGATE => mkStatArray s (sa_small_pool a) (sa_large_pool a)
  | SMALL_POOL => mkStatArray (sa_aggregate a) s (sa_large_pool a)
  | LARGE_POOL => mkStatArray (sa_aggregate a) (sa_small_pool a) s
  end.

Definition zero_stat_array : StatArray := mkStatArray zero_stat zero_stat zero_stat.

(** [StatTypes] is [std::array<bool, NUM_TYPES>]. *)
Record StatTypes := mkStatTypes {
  st_aggregate : bool;
  st_small_pool : bool;
  st_large_pool : bool
}.

Definition st_get (s : StatTypes) (t : StatType) : bool :=
  match t with
  | AGGREGATE => st_aggregate s
  | SMALL_POOL => st_small_pool s
  | LARGE_POOL => st_large_pool s
  end.

Definition st_set (s : StatTypes) (t : StatType) (b : bool) : StatTypes :=
  match t with
  | AGGREGATE => mkStatTypes b (st_small_pool s) (st_large_pool s)
  | SMALL_POOL => mkStatTypes (st_aggregate s) b (st_large_pool s)
  | LARGE_POOL => mkStatTypes (st_aggregate s) (st_small_pool s) b
  end.

(** [StatTypes stat_types = {false};] *)
Definition stat_types_false : StatTypes := mkStatTypes false false false.

Inductive StatField :=
| F_allocation | F_segment | F_active | F_inactive_split
| F_allocated_bytes | F_reserved_bytes | F_active_bytes
| F_inactive_split_bytes.

#[global] Instance StatType_eq_dec : EqDecision StatType.
Proof. solve_decision. Defined.

#[global] Instance StatField_eq_dec : EqDecision StatField.
Proof. solve_decision. Defined.

Definition all_stat_fields : list StatField :=
  [F_allocation; F_segment; F_active; F_inactive_split;
   F_allocated_bytes; F_reserved_bytes; F_active_bytes;
   F_inactive_split_bytes].

Record DeviceStats := mkDeviceStats {
  allocation : StatArray;
  segment : StatArray;
  active : StatArray;
  inactive_split : StatArray;
  allocated_bytes : StatArray;
  reserved_bytes : StatArray;
  active_bytes : StatArray;
  inactive_split_bytes : StatArray;
  num_alloc_retries : Z;
  num_ooms : Z;
  oversize_allocations : Stat;
  oversize_segments : Stat;
  max_split_size : Z
}.

Definition ds_get (d : DeviceStats) (f : StatField) : StatArray :=
  match f with
  | F_allocation => allocation d
  | F_segment => segment d
  | F_active => active d
  | F_inactive_split => inactive_split d
  | F_allocated_bytes => allocated_bytes d
  | F_reserved_bytes => reserved_bytes d
  | F_active_bytes => active_bytes d
  | F_inactive_split_bytes => inactive_split_bytes d
  end.

Definition ds_set (d : DeviceStats) (f : StatField) (a : StatArray) : DeviceStats :=
  let pick g := if decide (f = g) then a else ds_get d g in
  mkDeviceStats
    (pick F_allocation) (pick F_segment) (pick F_active)
    (pick F_inactive_split) (pick F_allocated_bytes)
    (pick F_reserved_bytes) (pick F_active_bytes)
    (pick F_inactive_split_bytes)
    (num_alloc_retries d) (num_ooms d)
    (oversize_allocations d) (oversize_segments d) (max_split_size d).

Definition zero_device_stats (max_split : Z) : DeviceStats :=
  mkDeviceStats zero_stat_array zero_stat_array zero_stat_array
    zero_stat_array zero_stat_array zero_stat_array zero_stat_array
    zero_stat_array 0 0 zero_stat zero_stat max_split.

Definition set_num_alloc_retries (d : DeviceStats) (n : Z) : DeviceStats :=
  mkDeviceStats (allocation d) (segment d) (active d) (inactive_split d)
    (allocated_bytes d) (reserved_bytes d) (active_bytes d)
    (inactive_split_bytes d) n (num_ooms d)
    (oversize_allocations d) (oversize_segments d) (max_split_size d).

Definition set_num_ooms (d : DeviceStats) (n : Z) : DeviceStats :=
  mkDeviceStats (allocation d) (segment d) (active d) (inactive_split d)
    (allocated_bytes d) (reserved_bytes d) (active_bytes d)
    (inactive_split_bytes d) (num_alloc_retries d) n
    (oversize_allocations d) (oversize_segments d) (max_split_size d).

Definition set_oversize_allocations (d : DeviceStats) (s : Stat) : DeviceStats :=
  mkDeviceStats (allocation d) (segment d) (active d) (inactive_split d)
    (allocated_bytes d) (reserved_bytes d) (active_bytes d)
    (inactive_split_bytes d) (num_alloc_retries d) (num_ooms d)
    s (oversize_segments d) (max_split_size d).

Definition set_oversize_segments (d : DeviceStats) (s : Stat) : DeviceStats :=
  mkDeviceStats (allocation d) (segment d) (active d) (inactive_split d)
    (allocated_bytes d) (reserved_bytes d) (active_bytes d)
    (inactive_split_bytes d) (num_alloc_retries d) (num_ooms d)
    (oversize_allocations d) s (max_split_size d).

(** [update_stat] (lines 71-80). *)
Definition update_stat (stat : Stat) (amount : Z) : Stat :=
  let cur := current stat + amount in
  mkStat cur
         (Z.max cur (peak stat))
         (if 0 <? amount then allocated stat + amount else allocated stat)
         (if amount <? 0 then freed stat + - amount else freed stat).

(** [reset_accumulated_stat] (lines 82-85). *)
Definition reset_accumulated_stat (stat : Stat) : Stat :=
  mkStat (current stat) (peak stat) 0 0.

(** [reset_peak_stat] (lines 87-89). *)
Definition reset_peak_stat (stat : Stat) : Stat :=
  mkStat (current stat) (current stat) (allocated stat) (freed stat).

(** [for_each_selected_stat_type] (lines 91-98), specialised to a state
    transformer on the device statistics. *)
Definition for_each_selected_stat_type
    (stat_types : StatTypes) (f : StatType -> DeviceStats -> DeviceStats)
    (d : DeviceStats) : DeviceStats :=
  fold_left (fun acc t => if st_get stat_types t then f t acc else acc)
            all_stat_types d.

(** [update_stat(stats.<field>[stat_type], amount)]. *)
Definition update_stat_at (f : StatField) (t : StatType) (amount : Z)
    (d : DeviceStats) : DeviceStats :=
  ds_set d f (sa_set (ds_get d f) t (update_stat (sa_get (ds_get d f) t) amount)).


(** [update_stat_array] (lines 100-108). *)
Definition update_stat_array (f : StatField) (amount : Z)
    (stat_types : StatTypes) (d : DeviceStats) : DeviceStats :=
  for_each_selected_stat_type stat_types
    (fun t => update_stat_at f t amount) d.

(** [for_each_selected_stat_type(stat_types, [&](size_t stat_type) {...})]
    with a body that calls [update_stat(stats.<field>[stat_type], amount)]
    for the given fields and amounts in turn. *)
Definition update_stats (stat_types : StatTypes) (updates : list (StatField * Z))
    (d : DeviceStats) : DeviceStats :=
  for_each_selected_stat_type stat_types
    (fun t d => fold_left (fun d u => update_stat_at (fst u) t (snd u) d) updates d) d.

(** The body of the loops of [resetAccumulatedStats] and [resetPeakStats]:
    one statistic type of every array. *)
Definition map_stat_at (g : Stat -> Stat) (t : StatType) (d : DeviceStats)
    : DeviceStats :=
  fold_left (fun acc f => ds_set acc f (sa_set (ds_get acc f) t (g (sa_get (ds_get acc f) t))))
            [F_allocation; F_segment; F_active; F_inactive_split;
             F_allocated_bytes; F_reserved_bytes; F_active_bytes;
             F_inactive_split_bytes] d.

(** [resetAccumulatedStats] (lines 729-747), on the statistics. *)
Definition resetAccumulatedStats_stats (d : DeviceStats) : DeviceStats :=
  let d := fold_left (fun acc t => map_stat_at reset_accumulated_stat t acc)
                     all_stat_types d in
  let d := set_num_alloc_retries d 0 in
  let d := set_num_ooms d 0 in
  let d := set_oversize_allocations d (reset_accumulated_stat (oversize_allocations d)) in
  set_oversize_segments d (reset_accumulated_stat (oversize_segments d)).

(** [resetPeakStats] (lines 750-766), on the statistics. *)
Definition resetPeakStats_stats (d : DeviceStats) : DeviceStats :=
  let d := fold_left (fun acc t => map_stat_at reset_peak_stat t acc)
                     all_stat_types d in
  let d := set_oversize_allocations d (reset_peak_stat (oversize_allocations d)) in
  set_oversize_segments d (reset_peak_stat (oversize_segments d)).

(** ** Size classes *)

(** [round_size] (lines 813-820). *)
Definition round_size (size : Z) : Z :=
  let size := wrap64 (size + 32) in
  if size <? kMinBlockSize then kMinBlockSize
  else wrap64 (kMinBlockSize * (wrap64 (wrap64 (size + kMinBlockSize) - 1) / kMinBlockSize)).

(** [get_allocation_size] (lines 922-930). *)
Definition get_allocation_size (size : Z) : Z :=
  if size <=? kSmallSize then kSmallBuffer
  else if size <? kMinLargeAlloc then kLargeBuffer
  else wrap64 (kRoundLarge * (wrap64 (wrap64 (size + kRoundLarge) - 1) / kRoundLarge)).

(** ** Configuration *)

(** [CachingAllocatorConfig]: the two settings read from
    PYTORCH_NPU_ALLOC_CONF. *)
Record CachingAllocatorConfig := mkConfig {
  m_max_split_size : Z;
  m_garbage_collection_threshold : Q
}.

(** The constructor's defaults (lines 301-303). *)
Definition default_config : CachingAllocatorConfig :=
  mkConfig SIZE_MAX 0%Q.

(** The numeric part of [parseMaxSplitSize] (lines 352-359): [val1] is the
    number read after [max_split_size_mb:]; [None] is the failed
    TORCH_CHECK. *)
Definition parseMaxSplitSize_value (val1 : Z) : option Z :=
  if kLargeBuffer / (1024 * 1024) <? val1 then
    let val1 := Z.max val1 (kLargeBuffer / (1024 * 1024)) in
    let val1 := Z.min val1 (SIZE_MAX / (1024 * 1024)) in
    Some (wrap64 (wrap64 (val1 * 1024) * 1024))
  else None.

(** ** Blocks and pools *)

(** [BlockPool* pool] of a block: one of the two pools of the device
    allocator, or [nullptr] in a search key. *)
Inductive PoolPtr := NullPool | SmallPool | LargePool.

#[global] Instance PoolPtr_eq_dec : EqDecision PoolPtr.
Proof. solve_decision. Defined.

(** [struct Block] (lines 122-166); the fields carry the prefix [b_].
    [b_stream_uses] is the [stream_set], kept in insertion order. *)
Record Block := mkBlock {
  b_device : Z;
  b_stream : Z;
  b_stream_uses : list Z;
  b_size : Z;
  b_pool : PoolPtr;
  b_ptr : Z;
  b_allocated : bool;
  b_prev : Z;
  b_next : Z;
  b_event_count : Z;
  b_gc_count : Z
}.

(** The two constructors of [Block] (lines 136-161). *)
Definition new_Block (device stream size : Z) (pool : PoolPtr) (ptr : Z) : Block :=
  mkBlock device stream [] size pool ptr false 0 0 0 0.

Definition search_key_Block (device stream size : Z) : Block :=
  mkBlock device stream [] size NullPool 0 false 0 0 0 0.

Definition is_split (b : Block) : bool :=
  negb (b_prev b =? 0) || negb (b_next b =? 0).

(** [BlockComparator] (lines 168-178). *)
Definition BlockComparator (a b : Block) : bool :=
  if negb (b_stream a =? b_stream b) then b_stream a <? b_stream b
  else if negb (b_size a =? b_size b) then b_size a <? b_size b
  else b_ptr a <? b_ptr b.

Definition set_b_stream_uses (b : Block) (v : list Z) : Block :=
  mkBlock (b_device b) (b_stream b) v (b_size b) (b_pool b) (b_ptr b)
    (b_allocated b) (b_prev b) (b_next b) (b_event_count b) (b_gc_count b).
Definition set_b_size (b : Block) (v : Z) : Block :=
  mkBlock (b_device b) (b_stream b) (b_stream_uses b) v (b_pool b) (b_ptr b)
    (b_allocated b) (b_prev b) (b_next b) (b_event_count b) (b_gc_count b).
Definition set_b_ptr (b : Block) (v : Z) : Block :=
  mkBlock (b_device b) (b_stream b) (b_stream_uses b) (b_size b) (b_pool b) v
    (b_allocated b) (b_prev b) (b_next b) (b_event_count b) (b_gc_count b).
Definition set_b_allocated (b : Block) (v : bool) : Block :=
  mkBlock (b_device b) (b_stream b) (b_stream_uses b) (b_size b) (b_pool b)
    (b_ptr b) v (b_prev b) (b_next b) (b_event_count b) (b_gc_count b).
Definition set_b_prev (b : Block) (v : Z) : Block :=
  mkBlock (b_device b) (b_stream b) (b_stream_uses b) (b_size b) (b_pool b)
    (b_ptr b) (b_allocated b) v (b_next b) (b_event_count b) (b_gc_count b).
Definition set_b_next (b : Block) (v : Z) : Block :=
  mkBlock (b_device b) (b_stream b) (b_stream_uses b) (b_size b) (b_pool b)
    (b_ptr b) (b_allocated b) (b_prev b) v (b_event_count b) (b_gc_count b).
Definition set_b_event_count (b : Block) (v : Z) : Block :=
  mkBlock (b_device b) (b_stream b) (b_stream_uses b) (b_size b) (b_pool b)
    (b_ptr b) (b_allocated b) (b_prev b) (b_next b) v (b_gc_count b).
Definition set_b_gc_count (b : Block) (v : Z) : Block :=
  mkBlock (b_device b) (b_stream b) (b_stream_uses b) (b_size b) (b_pool b)
    (b_ptr b) (b_allocated b) (b_prev b) (b_next b) (b_event_count b) v.

(** The block store: what [new Block] and [delete] act on. *)
Abbreviation Heap := (gmap Z Block).

(** [std::set<Block*, Comparison>]: the addresses in ascending order of
    [BlockComparator] on the blocks they point to. *)
Definition block_lt (h : Heap) (a b : Z) : bool :=
  match h !! a, h !! b with
  | Some x, Some y => BlockComparator x y
  | _, _ => false
  end.

Definition block_lt_key (h : Heap) (a : Z) (key : Block) : bool :=
  match h !! a with
  | Some x => BlockComparator x key
  | None => false
  end.

(** [blocks.insert(b)]: no effect when an equivalent element is present. *)
Fixpoint set_insert (h : Heap) (b : Z) (l : list Z) : list Z :=
  match l with
  | [] => [b]
  | e :: l' =>
      if block_lt h e b then e :: set_insert h b l'
      else if block_lt h b e then b :: l
      else l
  end.

(** [blocks.erase(b)], by key: drops the element equivalent to [b]. *)
Fixpoint set_erase (h : Heap) (b : Z) (l : list Z) : list Z :=
  match l with
  | [] => []
  | e :: l' =>
      if block_lt h e b then e :: set_erase h b l'
      else if block_lt h b e then l
      else l'
  end.

(** [blocks.erase(it)], by iterator: drops the element [it] points to. *)
Fixpoint set_erase_it (b : Z) (l : list Z) : list Z :=
  match l with
  | [] => []
  | e :: l' => if e =? b then l' else e :: set_erase_it b l'
  end.

(** [blocks.lower_bound(&key)]: the position of the first element that is
    not less than [key]; [length l] stands for [end()]. *)
Fixpoint lower_bound (h : Heap) (key : Block) (l : list Z) : nat :=
  match l with
  | [] => O
  | e :: l' => if block_lt_key h e key then S (lower_bound h key l') else O
  end.

(** ** Driver interface *)

(** The vendor runtime is outside the repository.  It is a deterministic
    machine over a state [D]; the error code 0 is ACL_ERROR_NONE. *)
Record DriverOps (D : Type) := mkDriverOps {
  AclrtMallocAlign32 : D -> Z -> Z * Z * D;      (* size -> (err, ptr) *)
  aclrtFree : D -> Z -> D;
  npuSynchronizeDevice : D -> bool -> Z * D;     (* check_error -> err *)
  aclrtSynchronizeEvent : D -> Z -> Z * D;
  aclrtGetMemInfo : D -> Z * Z * Z;              (* (err, free, total) *)
  aclrtGetDevice : D -> Z * Z;                   (* (err, device) *)
  aclrtSetDevice : D -> Z -> Z * D;              (* device -> err *)
  aclrtGetCurrentContext : D -> Z * Z;           (* (err, context) *)
  aclrtSetCurrentContext : D -> Z -> Z * D;      (* context -> err *)
  InitializedContext : Z;                        (* NpuSysCtrl::InitializedContext *)
  event_record : D -> Z -> Z -> D;               (* event, stream *)
  event_query : D -> Z -> bool * D;
  free_memory_callbacks : list (D -> bool * D);
  stream_device_index : Z -> Z;                  (* NPUStream::device_index *)
  device_count : Z
}.

Arguments AclrtMallocAlign32 {D}.
Arguments aclrtFree {D}.
Arguments npuSynchronizeDevice {D}.
Arguments aclrtSynchronizeEvent {D}.
Arguments aclrtGetMemInfo {D}.
Arguments aclrtGetDevice {D}.
Arguments aclrtSetDevice {D}.
Arguments aclrtGetCurrentContext {D}.
Arguments aclrtSetCurrentContext {D}.
Arguments InitializedContext {D}.
Arguments event_record {D}.
Arguments event_query {D}.
Arguments free_memory_callbacks {D}.
Arguments stream_device_index {D}.
Arguments device_count {D}.

(** Two error codes of the runtime (acl_base.h, outside the sources). *)
Definition ACL_ERROR_NONE : Z := 0.
Definition ACL_ERROR_RT_MEMORY_ALLOCATION : Z := 207001.

(** The driver calls the allocator issues, as they are logged. *)
Inductive DriverCall :=
| CallMalloc (size : Z)
| CallFree (ptr : Z)
| CallSynchronizeDevice (check_error : bool)
| CallSynchronizeEvent (event : Z)
| CallEventRecord (event stream : Z)
| CallEventQuery (event : Z)
| CallGetMemInfo
| CallGetDevice
| CallSetDevice (device : Z)
| CallGetCurrentContext
| CallSetCurrentContext (context : Z)
| CallFreeMemoryCallback.

#[global] Instance DriverCall_eq_dec : EqDecision DriverCall.
Proof. solve_decision. Defined.

Definition is_synchronize (c : DriverCall) : bool :=
  match c with
  | CallSynchronizeDevice _ | CallSynchronizeEvent _ => true
  | _ => false
  end.

(** What a C++ exception or a failed assertion carries. *)
Inductive Error :=
| OutOfMemory (alloc_size : Z)
| InvalidDevicePointer (ptr : Z)
| DriverError (err : Z)
| AssertFailed
| BadPointer
| Diverges.

#[global] Instance Error_eq_dec : EqDecision Error.
Proof. solve_decision. Defined.

(** ** The device allocator *)

(** [class DeviceCachingAllocator] (lines 412-445): the data members.
    [npu_events] maps a stream to its deque of (event, block) pairs, in
    the order the streams were first used; an event is the pair of its
    handle and of the device whose pool takes it back. *)
Record DeviceCachingAllocator := mkDeviceCachingAllocator {
  stats : DeviceStats;
  large_blocks : list Z;
  small_blocks : list Z;
  active_blocks : gset Z;
  npu_events : list (Z * list (Z * Z * Z));
  total_allocated_memory : Z;
  allowed_memory_maximum : Z;
  set_fraction : bool;
  shutdown_stats : bool
}.

(** What the members of the class refer to outside it: the block store,
    the leaked per-device event pool of [create_event_internal], the
    driver with the log of the calls made to it, and the configuration
    singleton. *)
Record World (D : Type) := mkWorld {
  heap : Heap;
  next_block : Z;
  event_pool : gmap Z (list Z);
  next_event : Z;
  driver : D;
  trace : list DriverCall;
  config : CachingAllocatorConfig
}.

Arguments heap {D}.
Arguments next_block {D}.
Arguments event_pool {D}.
Arguments next_event {D}.
Arguments driver {D}.
Arguments trace {D}.
Arguments config {D}.
Arguments mkWorld {D}.

Record State (D : Type) := mkState {
  this : DeviceCachingAllocator;
  world : World D
}.

Arguments this {D}.
Arguments world {D}.
Arguments mkState {D}.

Definition set_stats {D} (v : DeviceStats) (st : State D) : State D :=
  mkState (mkDeviceCachingAllocator v (large_blocks (this st)) (small_blocks (this st)) (active_blocks (this st)) (npu_events (this st)) (total_allocated_memory (this st)) (allowed_memory_maximum (this st)) (set_fraction (this st)) (shutdown_stats (this st))) (world st).
Definition set_large_blocks {D} (v : list Z) (st : State D) : State D :=
  mkState (mkDeviceCachingAllocator (stats (this st)) v (small_blocks (this st)) (active_blocks (this st)) (npu_events (this st)) (total_allocated_memory (this st)) (allowed_memory_maximum (this st)) (set_fraction (this st)) (shutdown_stats (this st))) (world st).
Definition set_small_blocks {D} (v : list Z) (st : State D) : State D :=
  mkState (mkDeviceCachingAllocator (stats (this st)) (large_blocks (this st)) v (active_blocks (this st)) (npu_events (this st)) (total_allocated_memory (this st)) (allowed_memory_maximum (this st)) (set_fraction (this st)) (shutdown_stats (this st))) (world st).
Definition set_active_blocks {D} (v : gset Z) (st : State D) : State D :=
  mkState (mkDeviceCachingAllocator (stats (this st)) (large_blocks (this st)) (small_blocks (this st)) v (npu_events (this st)) (total_allocated_memory (this st)) (allowed_memory_maximum (this st)) (set_fraction (this st)) (shutdown_stats (this st))) (world st).
Definition set_npu_events {D} (v : list (Z * list (Z * Z * Z))) (st : State D) : State D :=
  mkState (mkDeviceCachingAllocator (stats (this st)) (large_blocks (this st)) (small_blocks (this st)) (active_blocks (this st)) v (total_allocated_memory (this st)) (allowed_memory_maximum (this st)) (set_fraction (this st)) (shutdown_stats (this st))) (world st).
Definition set_total_allocated_memory {D} (v : Z) (st : State D) : State D :=
  mkState (mkDeviceCachingAllocator (stats (this st)) (large_blocks (this st)) (small_blocks (this st)) (active_blocks (this st)) (npu_events (this st)) v (allowed_memory_maximum (this st)) (set_fraction (this st)) (shutdown_stats (this st))) (world st).
Definition set_allowed_memory_maximum {D} (v : Z) (st : State D) : State D :=
  mkState (mkDeviceCachingAllocator (stats (this st)) (large_blocks (this st)) (small_blocks (this st)) (active_blocks (this st)) (npu_events (this st)) (total_allocated_memory (this st)) v (set_fraction (this st)) (shutdown_stats (this st))) (world st).
Definition set_set_fraction {D} (v : bool) (st : State D) : State D :=
  mkState (mkDeviceCachingAllocator (stats (this st)) (large_blocks (this st)) (small_blocks (this st)) (active_blocks (this st)) (npu_events (this st)) (total_allocated_memory (this st)) (allowed_memory_maximum (this st)) v (shutdown_stats (this st))) (world st).
Definition set_shutdown_stats {D} (v : bool) (st : State D) : State D :=
  mkState (mkDeviceCachingAllocator (stats (this st)) (large_blocks (this st)) (small_blocks (this st)) (active_blocks (this st)) (npu_events (this st)) (total_allocated_memory (this st)) (allowed_memory_maximum (this st)) (set_fraction (this st)) v) (world st).
Definition set_heap {D} (v : Heap) (st : State D) : State D :=
  mkState (this st) (mkWorld v (next_block (world st)) (event_pool (world st)) (next_event (world st)) (driver (world st)) (trace (world st)) (config (world st))).
Definition set_next_block {D} (v : Z) (st : State D) : State D :=
  mkState (this st) (mkWorld (heap (world st)) v (event_pool (world st)) (next_event (world st)) (driver (world st)) (trace (world st)) (config (world st))).
Definition set_event_pool {D} (v : gmap Z (list Z)) (st : State D) : State D :=
  mkState (this st) (mkWorld (heap (world st)) (next_block (world st)) v (next_event (world st)) (driver (world st)) (trace (world st)) (config (world st))).
Definition set_next_event {D} (v : Z) (st : State D) : State D :=
  mkState (this st) (mkWorld (heap (world st)) (next_block (world st)) (event_pool (world st)) v (driver (world st)) (trace (world st)) (config (world st))).
Definition set_driver {D} (v : D) (st : State D) : State D :=
  mkState (this st) (mkWorld (heap (world st)) (next_block (world st)) (event_pool (world st)) (next_event (world st)) v (trace (world st)) (config (world st))).
Definition set_trace {D} (v : list DriverCall) (st : State D) : State D :=
  mkState (this st) (mkWorld (heap (world st)) (next_block (world st)) (event_pool (world st)) (next_event (world st)) (driver (world st)) v (config (world st))).
Definition set_config {D} (v : CachingAllocatorConfig) (st : State D) : State D :=
  mkState (this st) (mkWorld (heap (world st)) (next_block (world st)) (event_pool (world st)) (next_event (world st)) (driver (world st)) (trace (world st)) v).

Inductive Res (A : Type) :=
| Ok (a : A)
| Throw (e : Error).

Arguments Ok {A}.
Arguments Throw {A}.

Section Allocator.

Context {D : Type} (ops : DriverOps D).

(** The content of the [StatTypes] array that [release_block] declares
    without an initialiser (line 1122). *)
Variable uninitialized_stat_types : StatTypes.

(** *** The monad of allocator code: state, and exceptions that keep the
    state reached when they were thrown. *)


Definition M (A : Type) : Type := State D -> Res A * State D.

Definition ret {A} (a : A) : M A := fun st => (Ok a, st).

Definition bind {A B} (m : M A) (k : A -> M B) : M B :=
  fun st =>
    match m st with
    | (Ok a, st') => k a st'
    | (Throw e, st') => (Throw e, st')
    end.

Definition throw {A} (e : Error) : M A := fun st => (Throw e, st).

Definition gets {A} (f : State D -> A) : M A := fun st => (Ok (f st), st).

Definition modify (f : State D -> State D) : M unit := fun st => (Ok tt, f st).

Notation "x <-- m ;; k" := (bind m (fun x => k))
  (at level 90, m at level 89, right associativity).
Notation "m ;;; k" := (bind m (fun _ => k))
  (at level 90, right associativity).

Definition when (b : bool) (m : M unit) : M unit := if b then m else ret tt.

(** [AT_ASSERT] / [TORCH_INTERNAL_ASSERT]. *)
Definition AT_ASSERT (b : bool) : M unit :=
  if b then ret tt else throw AssertFailed.

(** [NPU_CHECK_ERROR]. *)
Definition NPU_CHECK_ERROR (err : Z) : M unit :=
  if err =? ACL_ERROR_NONE then ret tt else throw (DriverError err).

(** Monadic iteration over a container, front to back. *)
Fixpoint for_each {A} (l : list A) (body : A -> M unit) : M unit :=
  match l with
  | [] => ret tt
  | x :: l' => body x ;;; for_each l' body
  end.

(** *** Access to blocks through pointers *)

(** Reading through a [Block*]; a null or dangling pointer has no block. *)
Definition load (b : Z) : M Block :=
  fun st => match heap (world st) !! b with
            | Some blk => (Ok blk, st)
            | None => (Throw BadPointer, st)
            end.

Definition store (b : Z) (blk : Block) : M unit :=
  modify (fun st => set_heap (<[b := blk]> (heap (world st))) st).

(** [b->field = v] and the like. *)
Definition update_block (b : Z) (f : Block -> Block) : M unit :=
  blk <-- load b ;; store b (f blk).

(** [new Block(...)]. *)
Definition alloc_Block (blk : Block) : M Z :=
  fun st =>
    let a := next_block (world st) in
    (Ok a, set_next_block (a + 1) (set_heap (<[a := blk]> (heap (world st))) st)).

(** [delete b]. *)
Definition delete_Block (b : Z) : M unit :=
  modify (fun st => set_heap (delete b (heap (world st))) st).

Definition modify_stats (f : DeviceStats -> DeviceStats) : M unit :=
  modify (fun st => set_stats (f (stats (this st))) st).

(** *** Driver calls *)

Definition log (c : DriverCall) : M unit :=
  modify (fun st => set_trace (trace (world st) ++ [c]) st).

Definition call_AclrtMallocAlign32 (size : Z) : M (Z * Z) :=
  log (CallMalloc size) ;;;
  fun st =>
    let '(err, ptr, d) := AclrtMallocAlign32 ops (driver (world st)) size in
    (Ok (err, ptr), set_driver d st).

Definition call_aclrtFree (ptr : Z) : M unit :=
  log (CallFree ptr) ;;;
  modify (fun st => set_driver (aclrtFree ops (driver (world st)) ptr) st).

(** [c10_npu::npuSynchronizeDevice(check_error)]: with [check_error] a
    failure is raised, without it it is only logged. *)
Definition call_npuSynchronizeDevice (check_error : bool) : M unit :=
  log (CallSynchronizeDevice check_error) ;;;
  err <-- (fun st =>
             let '(err, d) := npuSynchronizeDevice ops (driver (world st)) check_error in
             (Ok err, set_driver d st)) ;;
  if check_error then NPU_CHECK_ERROR err else ret tt.

Definition call_aclrtSynchronizeEvent (event : Z) : M Z :=
  log (CallSynchronizeEvent event) ;;;
  fun st =>
    let '(err, d) := aclrtSynchronizeEvent ops (driver (world st)) event in
    (Ok err, set_driver d st).

Definition call_aclrtGetMemInfo : M (Z * Z * Z) :=
  log CallGetMemInfo ;;;
  gets (fun st => aclrtGetMemInfo ops (driver (world st))).

Definition call_aclrtGetDevice : M (Z * Z) :=
  log CallGetDevice ;;;
  gets (fun st => aclrtGetDevice ops (driver (world st))).

Definition call_aclrtSetDevice (device : Z) : M Z :=
  log (CallSetDevice device) ;;;
  fun st =>
    let '(err, d) := aclrtSetDevice ops (driver (world st)) device in
    (Ok err, set_driver d st).

Definition call_aclrtGetCurrentContext : M (Z * Z) :=
  log CallGetCurrentContext ;;;
  gets (fun st => aclrtGetCurrentContext ops (driver (world st))).

Definition call_aclrtSetCurrentContext (context : Z) : M Z :=
  log (CallSetCurrentContext context) ;;;
  fun st =>
    let '(err, d) := aclrtSetCurrentContext ops (driver (world st)) context in
    (Ok err, set_driver d st).

Definition call_event_record (event stream : Z) : M unit :=
  log (CallEventRecord event stream) ;;;
  modify (fun st => set_driver (event_record ops (driver (world st)) event stream) st).

Definition call_event_query (event : Z) : M bool :=
  log (CallEventQuery event) ;;;
  fun st =>
    let '(b, d) := event_query ops (driver (world st)) event in
    (Ok b, set_driver d st).

Definition call_free_memory_callback (cb : D -> bool * D) : M bool :=
  log CallFreeMemoryCallback ;;;
  fun st =>
    let '(b, d) := cb (driver (world st)) in
    (Ok b, set_driver d st).

(** *** Configuration and pools *)

Definition CachingAllocatorConfig_max_split_size : M Z :=
  gets (fun st => m_max_split_size (config (world st))).

Definition CachingAllocatorConfig_garbage_collection_threshold : M Q :=
  gets (fun st => m_garbage_collection_threshold (config (world st))).

(** [0.0 < q] on rationals. *)
Definition Qpositive (q : Q) : bool := 0 <? Qnum q.

(** [pool.blocks] through a [BlockPool*]. *)
Definition pool_blocks (p : PoolPtr) : M (list Z) :=
  match p with
  | NullPool => throw BadPointer
  | SmallPool => gets (fun st => small_blocks (this st))
  | LargePool => gets (fun st => large_blocks (this st))
  end.

Definition set_pool_blocks (p : PoolPtr) (l : list Z) : M unit :=
  match p with
  | NullPool => throw BadPointer
  | SmallPool => modify (set_small_blocks l)
  | LargePool => modify (set_large_blocks l)
  end.

(** [pool.is_small] through a [BlockPool*]. *)
Definition pool_is_small (p : PoolPtr) : M bool :=
  match p with
  | NullPool => throw BadPointer
  | SmallPool => ret true
  | LargePool => ret false
  end.

Definition pool_insert (p : PoolPtr) (b : Z) : M unit :=
  l <-- pool_blocks p ;;
  h <-- gets (fun st => heap (world st)) ;;
  set_pool_blocks p (set_insert h b l).

Definition pool_erase (p : PoolPtr) (b : Z) : M unit :=
  l <-- pool_blocks p ;;
  h <-- gets (fun st => heap (world st)) ;;
  set_pool_blocks p (set_erase h b l).

Definition pool_erase_it (p : PoolPtr) (b : Z) : M unit :=
  l <-- pool_blocks p ;;
  set_pool_blocks p (set_erase_it b l).

(** [get_pool] (lines 901-907). *)
Definition get_pool (size : Z) : PoolPtr :=
  if size <=? kSmallSize then SmallPool else LargePool.

(** [get_stat_type_for_pool] (lines 909-911). *)
Definition get_stat_type_for_pool (p : PoolPtr) : M StatType :=
  small <-- pool_is_small p ;;
  ret (if small then SMALL_POOL else LARGE_POOL).

(** The decision of [should_split] (lines 913-920) on the values it
    reads. *)
Definition should_split_on (max_split : Z) (is_small : bool)
    (block_size size : Z) : bool :=
  let remaining := wrap64 (block_size - size) in
  if is_small then kMinBlockSize <=? remaining
  else (size <? max_split) && (kSmallSize <? remaining).

(** [should_split] (lines 913-920). *)
Definition should_split (block : Z) (size : Z) : M bool :=
  blk <-- load block ;;
  small <-- pool_is_small (b_pool blk) ;;
  max_split <-- CachingAllocatorConfig_max_split_size ;;
  ret (should_split_on max_split small (b_size blk) size).

(** [{AGGREGATE, pool}] selected, on top of [base]. *)
Definition select_stat_types (base : StatTypes) (p : PoolPtr) : M StatTypes :=
  ty <-- get_stat_type_for_pool p ;;
  ret (st_set (st_set base AGGREGATE true) ty true).

(** *** Events *)

(** The deleter of an [EventPool::Event]: back to the pool it came from. *)
Definition release_event (ev : Z * Z) : M unit :=
  modify (fun st =>
    let pools := event_pool (world st) in
    set_event_pool (<[snd ev := fst ev :: default [] (pools !! snd ev)]> pools) st).

(** [create_event_internal] with [EventPool::get] (lines 231-254 and
    1150-1154). *)
Definition create_event_internal (idx : Z) : M (Z * Z) :=
  AT_ASSERT (0 <=? idx) ;;;
  AT_ASSERT (idx <? device_count ops) ;;;
  pools <-- gets (fun st => event_pool (world st)) ;;
  match default [] (pools !! idx) with
  | ev :: rest =>
      modify (set_event_pool (<[idx := rest]> pools)) ;;;
      ret (ev, idx)
  | [] =>
      ev <-- gets (fun st => next_event (world st)) ;;
      modify (set_next_event (ev + 1)) ;;;
      ret (ev, idx)
  end.

Definition events_get (s : Z) (l : list (Z * list (Z * Z * Z))) : list (Z * Z * Z) :=
  match find (fun e => fst e =? s) l with
  | Some e => snd e
  | None => []
  end.

(** [npu_events[s] = dq], creating the entry when there is none. *)
Fixpoint events_set (s : Z) (dq : list (Z * Z * Z))
    (l : list (Z * list (Z * Z * Z))) : list (Z * list (Z * Z * Z)) :=
  match l with
  | [] => [(s, dq)]
  | e :: l' => if fst e =? s then (s, dq) :: l' else e :: events_set s dq l'
  end.

Definition events_erase (s : Z) (l : list (Z * list (Z * Z * Z)))
    : list (Z * list (Z * Z * Z)) :=
  filter (fun e => fst e ≠ s) l.

Definition set_deque (s : Z) (dq : list (Z * Z * Z)) : M unit :=
  modify (fun st => set_npu_events (events_set s dq (npu_events (this st))) st).

(** *** Returning blocks to the pools *)

(** [try_merge_blocks] (lines 873-899). *)
Definition try_merge_blocks (dst src : Z) (pool : PoolPtr) : M Z :=
  if src =? 0 then ret 0
  else
    s <-- load src ;;
    if b_allocated s || (0 <? b_event_count s) then ret 0
    else
      d <-- load dst ;;
      AT_ASSERT (is_split d && is_split s) ;;;
      (if b_prev d =? src then
         update_block dst (fun d => set_b_prev (set_b_ptr d (b_ptr s)) (b_prev s)) ;;;
         when (negb (b_prev s =? 0))
              (update_block (b_prev s) (fun x => set_b_next x dst))
       else
         update_block dst (fun d => set_b_next d (b_next s)) ;;;
         when (negb (b_next s =? 0))
              (update_block (b_next s) (fun x => set_b_prev x dst))) ;;;
      let subsumed_size := b_size s in
      update_block dst (fun d => set_b_size d (wrap64 (b_size d + subsumed_size))) ;;;
      pool_erase pool src ;;;
      delete_Block src ;;;
      ret subsumed_size.

(** [free_block] (lines 835-870). *)
Definition free_block (block : Z) : M unit :=
  blk <-- load block ;;
  AT_ASSERT (negb (b_allocated blk) && (b_event_count blk =? 0)) ;;;
  let original_block_size := b_size blk in
  let pool := b_pool blk in
  pool_is_small pool ;;;
  sub1 <-- try_merge_blocks block (b_prev blk) pool ;;
  sub2 <-- try_merge_blocks block (b_next blk) pool ;;
  let count (sub : Z) := if 0 <? to_int64 sub then -1 else 0 in
  let bytes (sub : Z) := if 0 <? to_int64 sub then - to_int64 sub else 0 in
  let net_change_inactive_split_blocks := count sub1 + count sub2 in
  let net_change_inactive_split_size := bytes sub1 + bytes sub2 in
  modify (fun st => set_active_blocks (active_blocks (this st) ∖ {[block]}) st) ;;;
  pool_insert pool block ;;;
  blk' <-- load block ;;
  let net_change_inactive_split_blocks :=
    if is_split blk' then net_change_inactive_split_blocks + 1
    else net_change_inactive_split_blocks in
  let net_change_inactive_split_size :=
    if is_split blk' then net_change_inactive_split_size + to_int64 (b_size blk')
    else net_change_inactive_split_size in
  stat_types <-- select_stat_types stat_types_false (b_pool blk') ;;
  modify_stats (update_stats stat_types
    [(F_inactive_split, net_change_inactive_split_blocks);
     (F_inactive_split_bytes, net_change_inactive_split_size);
     (F_active, -1);
     (F_active_bytes, to_int64 (wrap64 (- original_block_size)))]).

(** The block of a pending event has one event less; it goes back to its
    pool with the last one. *)
Definition event_done (block : Z) : M unit :=
  update_block block (fun b => set_b_event_count b (b_event_count b - 1)) ;;;
  blk <-- load block ;;
  when (b_event_count blk =? 0) (free_block block).

(** The inner loop of [process_events] (lines 1215-1230) on the deque of
    stream [s]. *)
Fixpoint process_deque (s : Z) (dq : list (Z * Z * Z)) : M unit :=
  match dq with
  | [] => ret tt
  | (ev, block) :: rest =>
      completed <-- call_event_query (fst ev) ;;
      if negb completed then ret tt
      else
        event_done block ;;;
        set_deque s rest ;;;
        release_event ev ;;;
        process_deque s rest
  end.

(** [process_events] (lines 1208-1238). *)
Definition process_events : M unit :=
  streams <-- gets (fun st => npu_events (this st)) ;;
  for_each streams (fun e =>
    process_deque (fst e) (snd e) ;;;
    modify (fun st =>
      match events_get (fst e) (npu_events (this st)) with
      | [] => set_npu_events (events_erase (fst e) (npu_events (this st))) st
      | _ => st
      end)).

(** [release_block] (lines 1117-1136). *)
Definition release_block (block : Z) : M unit :=
  blk <-- load block ;;
  call_aclrtFree (b_ptr blk) ;;;
  modify (fun st =>
    set_total_allocated_memory
      (wrap64 (total_allocated_memory (this st) - b_size blk)) st) ;;;
  let pool := b_pool blk in
  stat_types <-- select_stat_types uninitialized_stat_types pool ;;
  modify_stats (update_stats stat_types
    [(F_segment, -1);
     (F_reserved_bytes, to_int64 (wrap64 (- b_size blk)))]) ;;;
  max_split <-- CachingAllocatorConfig_max_split_size ;;
  when (max_split <=? b_size blk)
       (modify_stats (fun d =>
          set_oversize_segments d (update_stat (oversize_segments d) (-1)))) ;;;
  pool_erase pool block ;;;
  delete_Block block.

(** [release_blocks] (lines 1138-1148). *)
Definition release_blocks (pool : PoolPtr) : M unit :=
  l <-- pool_blocks pool ;;
  for_each l (fun block =>
    blk <-- load block ;;
    when ((b_prev blk =? 0) && (b_next blk =? 0)) (release_block block)).

(** *** Finding and creating blocks *)

(** [struct AllocParams] (lines 199-223); the fields carry the prefix
    [p_]. *)
Record AllocParams := mkAllocParams {
  p_search_key : Block;
  p_pool : PoolPtr;
  p_alloc_size : Z;
  p_block : Z;
  p_stat_types : StatTypes;
  p_err : Z
}.

Definition p_device (p : AllocParams) : Z := b_device (p_search_key p).
Definition p_stream (p : AllocParams) : Z := b_stream (p_search_key p).
Definition p_size (p : AllocParams) : Z := b_size (p_search_key p).

Definition set_p_block (p : AllocParams) (b : Z) : AllocParams :=
  mkAllocParams (p_search_key p) (p_pool p) (p_alloc_size p) b
    (p_stat_types p) (p_err p).

Definition set_p_err (p : AllocParams) (e : Z) : AllocParams :=
  mkAllocParams (p_search_key p) (p_pool p) (p_alloc_size p) (p_block p)
    (p_stat_types p) e.

(** The three tests of [get_free_block] (lines 943-954) on the candidate
    [lower_bound] found: [true] when the candidate is taken. *)
Definition accepts_candidate (max_split : Z) (stream size : Z) (cand : Block) : bool :=
  if negb (b_stream cand =? stream) then false
  else if (size <? max_split) && (max_split <=? b_size cand) then false
  else if (max_split <=? size) && (wrap64 (size + kLargeBuffer) <=? b_size cand) then false
  else true.

(** [get_free_block] (lines 932-959). *)
Definition get_free_block (p : AllocParams) : M (bool * AllocParams) :=
  let pool := p_pool p in
  l <-- pool_blocks pool ;;
  fraction <-- gets (fun st => set_fraction (this st)) ;;
  threshold <-- CachingAllocatorConfig_garbage_collection_threshold ;;
  when (fraction && Qpositive threshold)
       (for_each l (fun b =>
          update_block b (fun blk => set_b_gc_count blk (b_gc_count blk + 1)))) ;;;
  h <-- gets (fun st => heap (world st)) ;;
  max_split <-- CachingAllocatorConfig_max_split_size ;;
  match l !! lower_bound h (p_search_key p) l with
  | None => ret (false, p)
  | Some it =>
      cand <-- load it ;;
      if accepts_candidate max_split (p_stream p) (p_size p) cand then
        update_block it (fun blk => set_b_gc_count blk 0) ;;;
        pool_erase_it pool it ;;;
        ret (true, set_p_block p it)
      else ret (false, p)
  end.

(** [trigger_free_memory_callbacks] (lines 961-968). *)
Fixpoint run_free_memory_callbacks (cbs : list (D -> bool * D))
    (freed_memory : bool) : M bool :=
  match cbs with
  | [] => ret freed_memory
  | cb :: cbs' =>
      b <-- call_free_memory_callback cb ;;
      run_free_memory_callbacks cbs' (freed_memory || b)
  end.

Definition trigger_free_memory_callbacks (p : AllocParams) : M bool :=
  run_free_memory_callbacks (free_memory_callbacks ops) false.

(** The local variables of the loops of [garbage_collect_cached_blocks]. *)
Record GcLocals := mkGcLocals {
  gc_reclaimed : Z;
  total_age : Q;
  freeable_block_count : Z;
  block_freed : bool
}.

(** The first loop (lines 989-994): total age and number of the unsplit
    blocks. *)
Fixpoint gc_count_freeable (l : list Z) (age : Q) (count : Z) : M (Q * Z) :=
  match l with
  | [] => ret (age, count)
  | b :: l' =>
      blk <-- load b ;;
      if negb (is_split blk)
      then gc_count_freeable l' (round_double (age + inject_Z (b_gc_count blk))) (count + 1)
      else gc_count_freeable l' age count
  end.

(** One sweep over the large pool (lines 1013-1029). *)
Fixpoint gc_sweep (age_threshold : Q) (l : list Z) (v : GcLocals)
    (release : Z -> M unit) : M GcLocals :=
  match l with
  | [] => ret v
  | block :: l' =>
      blk <-- load block ;;
      if negb (is_split blk) && Qle_bool age_threshold (inject_Z (b_gc_count blk))
      then
        release block ;;;
        gc_sweep age_threshold l'
          (mkGcLocals (wrap64 (gc_reclaimed v + b_size blk))
                      (round_double (total_age v - inject_Z (b_gc_count blk)))
                      (freeable_block_count v - 1)
                      true)
          release
      else gc_sweep age_threshold l' v release
  end.

(** The outer loop (lines 1004-1030).  Every round but the last releases a
    block, so [fuel] above the number of unsplit blocks is never used up. *)
Fixpoint gc_rounds (fuel : nat) (target_size : Z) (v : GcLocals) : M unit :=
  if (gc_reclaimed v <? target_size) && block_freed v
     && (0 <? freeable_block_count v)
  then
    match fuel with
    | O => throw Diverges
    | S fuel' =>
        let age_threshold :=
          round_double (total_age v / inject_Z (freeable_block_count v)) in
        l <-- pool_blocks LargePool ;;
        v' <-- gc_sweep age_threshold l
                 (mkGcLocals (gc_reclaimed v) (total_age v)
                             (freeable_block_count v) false)
                 release_block ;;
        gc_rounds fuel' target_size v'
    end
  else ret tt.

(** [garbage_collect_cached_blocks] (lines 970-1031). *)
Definition garbage_collect_cached_blocks : M unit :=
  threshold <-- CachingAllocatorConfig_garbage_collection_threshold ;;
  allowed <-- gets (fun st => allowed_memory_maximum (this st)) ;;
  let gc_threshold := double_times_size_t threshold allowed in
  total <-- gets (fun st => total_allocated_memory (this st)) ;;
  if total <=? gc_threshold then ret tt
  else
    let target_size := wrap64 (total - gc_threshold) in
    l <-- pool_blocks LargePool ;;
    ages <-- gc_count_freeable l 0%Q 0 ;;
    let '(age, count) := ages in
    if count =? 0 then ret tt
    else
      call_npuSynchronizeDevice true ;;;
      gc_rounds (S (Z.to_nat count)) target_size (mkGcLocals 0 age count true).

(** [alloc_block] (lines 1033-1063). *)
Definition alloc_block (p : AllocParams) (isRetry : bool) : M (bool * AllocParams) :=
  let size := p_alloc_size p in
  when isRetry
       (modify_stats (fun d => set_num_alloc_retries d (num_alloc_retries d + 1))) ;;;
  fraction <-- gets (fun st => set_fraction (this st)) ;;
  total <-- gets (fun st => total_allocated_memory (this st)) ;;
  allowed <-- gets (fun st => allowed_memory_maximum (this st)) ;;
  res <-- (if fraction && (allowed <? wrap64 (total + size))
           then ret (ACL_ERROR_RT_MEMORY_ALLOCATION, 0)
           else call_AclrtMallocAlign32 size) ;;
  let '(err, ptr) := res in
  let p := set_p_err p err in
  if negb (err =? ACL_ERROR_NONE) then ret (false, p)
  else
    modify (fun st =>
      set_total_allocated_memory
        (wrap64 (total_allocated_memory (this st) + size)) st) ;;;
    block <-- alloc_Block (new_Block (p_device p) (p_stream p) size (p_pool p) ptr) ;;
    let p := set_p_block p block in
    modify_stats (update_stats (p_stat_types p)
      [(F_segment, 1); (F_reserved_bytes, to_int64 size)]) ;;;
    max_split <-- CachingAllocatorConfig_max_split_size ;;
    when (max_split <=? size)
         (modify_stats (fun d =>
            set_oversize_segments d (update_stat (oversize_segments d) 1))) ;;;
    ret (negb (block =? 0), p).

(** The loop of [release_available_cached_blocks] (lines 1083-1094), over
    the blocks before the lower bound, largest first. *)
Fixpoint release_oversize (key_size stream max_split : Z) (cands : list Z)
    (totalReleased : Z) (release : Z -> M unit) : M Z :=
  match cands with
  | [] => ret totalReleased
  | cur :: rest =>
      blk <-- load cur ;;
      if (totalReleased <? key_size) && (max_split <=? b_size blk)
         && (b_stream blk =? stream)
      then
        release cur ;;;
        release_oversize key_size stream max_split rest
          (wrap64 (totalReleased + b_size blk)) release
      else ret totalReleased
  end.

(** [release_available_cached_blocks] (lines 1066-1102). *)
Definition release_available_cached_blocks (p : AllocParams) : M bool :=
  max_split <-- CachingAllocatorConfig_max_split_size ;;
  if max_split =? SIZE_MAX then ret false
  else
    let pool := p_pool p in
    l <-- pool_blocks pool ;;
    let key := p_search_key p in
    let key := set_b_size key (if b_size key <? max_split then max_split else b_size key) in
    h <-- gets (fun st => heap (world st)) ;;
    let pos := lower_bound h key l in
    at_stream <-- match l !! pos with
                  | None => ret false
                  | Some it => blk <-- load it ;; ret (b_stream blk =? p_stream p)
                  end ;;
    if negb at_stream then
      if Nat.eqb pos 0 then ret false
      else
        totalReleased <-- release_oversize (b_size key) (p_stream p) max_split
                            (rev (take pos l)) 0 release_block ;;
        ret (negb (totalReleased <? b_size key))
    else
      match l !! pos with
      | Some it => release_block it ;;; ret true
      | None => ret true
      end.

(** [synchronize_and_free_events] (lines 1156-1178). *)
Definition synchronize_and_free_events (check_error : bool) : M unit :=
  streams <-- gets (fun st => npu_events (this st)) ;;
  for_each streams (fun st =>
    for_each (snd st) (fun e =>
      let '(ev, block) := e in
      err <-- call_aclrtSynchronizeEvent (fst ev) ;;
      (if check_error then NPU_CHECK_ERROR err else ret tt) ;;;
      event_done block ;;;
      release_event ev)) ;;;
  modify (set_npu_events []).

(** [release_cached_blocks] (lines 1104-1115). *)
Definition release_cached_blocks (check_error : bool) : M bool :=
  synchronize_and_free_events check_error ;;;
  call_npuSynchronizeDevice check_error ;;;
  release_blocks LargePool ;;;
  release_blocks SmallPool ;;;
  ret true.

(** The device switch at the head of the loop of [insert_events] (lines
    1188-1194). *)
Definition switch_to_device (device : Z) : M unit :=
  dev <-- call_aclrtGetDevice ;;
  let err_get := fst dev in
  let pre_device := snd dev in
  if negb (err_get =? ACL_ERROR_NONE) then
    err <-- call_aclrtSetDevice device ;; NPU_CHECK_ERROR err
  else if negb (pre_device =? device) then
    err <-- call_aclrtSetDevice device ;; NPU_CHECK_ERROR err
  else ret tt.

(** [insert_events] (lines 1180-1206).  [ctx] is the pair of [ret_ctx]
    and of what [compiler_ctx] holds after [aclrtGetCurrentContext]; the
    set moved out of [block->stream_uses] leaves it empty, which is what
    the [AT_ASSERT] of line 1186 tests. *)
Definition insert_events (block : Z) : M unit :=
  ctx <-- call_aclrtGetCurrentContext ;;
  let ret_ctx := fst ctx in
  let compiler_ctx := snd ctx in
  err <-- call_aclrtSetCurrentContext (InitializedContext ops) ;;
  NPU_CHECK_ERROR err ;;;
  blk <-- load block ;;
  let streams := b_stream_uses blk in
  update_block block (fun b => set_b_stream_uses b []) ;;;
  blk <-- load block ;;
  AT_ASSERT (bool_decide (b_stream_uses blk = [])) ;;;
  for_each streams (fun stream =>
    switch_to_device (stream_device_index ops stream) ;;;
    event <-- create_event_internal (stream_device_index ops stream) ;;
    call_event_record (fst event) stream ;;;
    update_block block (fun b => set_b_event_count b (b_event_count b + 1)) ;;;
    dq <-- gets (fun st => events_get stream (npu_events (this st))) ;;
    set_deque stream (dq ++ [(event, block)])) ;;;
  if ret_ctx =? ACL_ERROR_NONE then
    err <-- call_aclrtSetCurrentContext compiler_ctx ;; NPU_CHECK_ERROR err
  else ret tt.

(** *** Public methods of [DeviceCachingAllocator] *)

(** The second half of [malloc] (lines 548-597): split the block found
    when [should_split] says so, mark it allocated, update the
    statistics.  The result is the block handed out and whether the split
    was taken. *)
Definition malloc_finish (device size stream : Z) (pool : PoolPtr)
    (params : AllocParams) : M (Z * bool) :=
  let block := p_block params in
  AT_ASSERT (negb (block =? 0)) ;;;
  blk <-- load block ;;
  let already_split := is_split blk in
  split <-- should_split block size ;;
  block <-- (if split then
      let remaining := block in
      block <-- alloc_Block (new_Block device stream size pool (b_ptr blk)) ;;
      update_block block (fun b => set_b_prev b (b_prev blk)) ;;;
      when (negb (b_prev blk =? 0))
           (update_block (b_prev blk) (fun x => set_b_next x block)) ;;;
      update_block block (fun b => set_b_next b remaining) ;;;
      update_block remaining (fun r =>
        set_b_size (set_b_ptr (set_b_prev r block) (wrap64 (b_ptr r + size)))
                   (wrap64 (b_size r - size))) ;;;
      pool_insert pool remaining ;;;
      (if already_split then
         modify_stats (update_stat_array F_inactive_split_bytes
                         (to_int64 (wrap64 (- size))) (p_stat_types params))
       else
         r <-- load remaining ;;
         modify_stats (update_stats (p_stat_types params)
           [(F_inactive_split_bytes, to_int64 (b_size r));
            (F_inactive_split, 1)])) ;;;
      ret block
    else
      when already_split
        (modify_stats (update_stats (p_stat_types params)
           [(F_inactive_split_bytes, to_int64 (wrap64 (- b_size blk)));
            (F_inactive_split, -1)])) ;;;
      ret block) ;;
  update_block block (fun b => set_b_allocated b true) ;;;
  modify (fun st => set_active_blocks (active_blocks (this st) ∪ {[block]}) st) ;;;
  blk <-- load block ;;
  modify_stats (update_stats (p_stat_types params)
    [(F_allocation, 1);
     (F_allocated_bytes, to_int64 (b_size blk));
     (F_active, 1);
     (F_active_bytes, to_int64 (b_size blk))]) ;;;
  max_split <-- CachingAllocatorConfig_max_split_size ;;
  when (max_split <=? b_size blk)
       (modify_stats (fun d =>
          set_oversize_allocations d (update_stat (oversize_allocations d) 1))) ;;;
  ret (block, split).

(** The first half of [malloc] (lines 459-547): find a cached block or
    obtain a new segment, or raise. *)
Definition malloc_acquire (device size stream : Z) (pool : PoolPtr)
    (alloc_size : Z) : M AllocParams :=
  stat_types <-- select_stat_types stat_types_false pool ;;
  let params :=
    mkAllocParams (search_key_Block device stream size) pool alloc_size 0
                  stat_types ACL_ERROR_NONE in
  r <-- get_free_block params ;;
  r <-- (if fst r then ret r
         else
           freed <-- trigger_free_memory_callbacks (snd r) ;;
           if freed then get_free_block (snd r) else ret (false, snd r)) ;;
  r <-- (if fst r then ret r
         else
           fraction <-- gets (fun st => set_fraction (this st)) ;;
           threshold <-- CachingAllocatorConfig_garbage_collection_threshold ;;
           when (fraction && Qpositive threshold) garbage_collect_cached_blocks ;;;
           r <-- alloc_block (snd r) false ;;
           if fst r then ret r
           else
             released <-- release_available_cached_blocks (snd r) ;;
             r <-- (if released then alloc_block (snd r) false
                    else ret (false, snd r)) ;;
             if fst r then ret r
             else
               release_cached_blocks true ;;;
               alloc_block (snd r) true) ;;
  let params := snd r in
  (if fst r then ret tt
   else if p_err params =? ACL_ERROR_RT_MEMORY_ALLOCATION then
     info <-- call_aclrtGetMemInfo ;;
     NPU_CHECK_ERROR (fst (fst info)) ;;;
     modify_stats (fun d => set_num_ooms d (num_ooms d + 1)) ;;;
     throw (OutOfMemory alloc_size)
   else NPU_CHECK_ERROR (p_err params)) ;;;
  ret params.

(** [malloc] (lines 458-613), together with whether the split step was
    taken. *)
Definition malloc_traced (device size stream : Z) : M (Z * bool) :=
  device <-- (if device =? -1 then
                r <-- call_aclrtGetDevice ;;
                NPU_CHECK_ERROR (fst r) ;;;
                ret (snd r)
              else ret device) ;;
  process_events ;;;
  let size := round_size size in
  let pool := get_pool size in
  let alloc_size := get_allocation_size size in
  params <-- malloc_acquire device size stream pool alloc_size ;;
  malloc_finish device size stream pool params.

Definition malloc (device size stream : Z) : M Z :=
  r <-- malloc_traced device size stream ;;
  ret (fst r).

(** [free] (lines 615-653). *)
Definition free (block : Z) : M unit :=
  update_block block (fun b => set_b_allocated b false) ;;;
  blk <-- load block ;;
  stat_types <-- select_stat_types stat_types_false (b_pool blk) ;;
  modify_stats (update_stats stat_types
    [(F_allocation, -1);
     (F_allocated_bytes, to_int64 (wrap64 (- b_size blk)))]) ;;;
  max_split <-- CachingAllocatorConfig_max_split_size ;;
  when (max_split <=? b_size blk)
       (modify_stats (fun d =>
          set_oversize_allocations d (update_stat (oversize_allocations d) (-1)))) ;;;
  shutdown <-- gets (fun st => shutdown_stats (this st)) ;;
  if negb (bool_decide (b_stream_uses blk = [])) && negb shutdown
  then insert_events block
  else free_block block.

(** The two loops of [getBaseAllocation] (lines 657-666).  A chain of
    blocks is no longer than the block store; on a cyclic chain the
    source does not return. *)
Fixpoint first_of_chain (fuel : nat) (block : Z) : M Z :=
  match fuel with
  | O => throw Diverges
  | S fuel' =>
      blk <-- load block ;;
      if b_prev blk =? 0 then ret block else first_of_chain fuel' (b_prev blk)
  end.

Fixpoint size_of_chain (fuel : nat) (block : Z) (size : Z) : M Z :=
  if block =? 0 then ret size
  else
    match fuel with
    | O => throw Diverges
    | S fuel' =>
        blk <-- load block ;;
        size_of_chain fuel' (b_next blk) (wrap64 (size + b_size blk))
    end.

(** [getBaseAllocation] (lines 655-670); [outSize] tells whether the
    caller passed a non-null [outSize]. *)
Definition getBaseAllocation (block : Z) (outSize : bool) : M (Z * option Z) :=
  fuel <-- gets (fun st => size (heap (world st))) ;;
  block <-- first_of_chain fuel block ;;
  blk <-- load block ;;
  let basePtr := b_ptr blk in
  if outSize then
    size <-- size_of_chain fuel block 0 ;;
    ret (basePtr, Some size)
  else ret (basePtr, None).

(** [recordStream] (lines 672-675). *)
Definition recordStream (block stream : Z) : M unit :=
  update_block block (fun b =>
    if bool_decide (stream ∈ b_stream_uses b) then b
    else set_b_stream_uses b (b_stream_uses b ++ [stream])).

(** The loop of [eraseStream] (lines 682-693): [kept] are the entries
    already passed, [dq] the ones still to visit. *)
Fixpoint eraseStream_loop (block stream : Z) (kept dq : list (Z * Z * Z)) : M unit :=
  match dq with
  | [] => ret tt
  | (ev, b) :: rest =>
      if negb (block =? b) then
        eraseStream_loop block stream (kept ++ [(ev, b)]) rest
      else
        set_deque stream (kept ++ rest) ;;;
        release_event ev ;;;
        update_block block (fun x => set_b_event_count x (b_event_count x - 1)) ;;;
        blk <-- load block ;;
        if b_event_count blk =? 0 then free_block block
        else eraseStream_loop block stream kept rest
  end.

(** [eraseStream] (lines 677-694). *)
Definition eraseStream (block stream : Z) : M unit :=
  update_block block (fun b =>
    set_b_stream_uses b (filter (fun s => s ≠ stream) (b_stream_uses b))) ;;;
  dq <-- gets (fun st => events_get stream (npu_events (this st))) ;;
  set_deque stream dq ;;;
  eraseStream_loop block stream [] dq.

(** [setMemoryFraction] (lines 697-703). *)
Definition setMemoryFraction (fraction : Q) : M unit :=
  info <-- call_aclrtGetMemInfo ;;
  NPU_CHECK_ERROR (fst (fst info)) ;;;
  let device_total := snd info in
  modify (fun st =>
    set_set_fraction true
      (set_allowed_memory_maximum
         (double_times_size_t fraction device_total) st)).

(** [emptyCache] (lines 706-709). *)
Definition emptyCache (check_error : bool) : M unit :=
  release_cached_blocks check_error ;;; ret tt.

(** [devSetShutdownStats] (lines 711-713). *)
Definition devSetShutdownStats : M unit :=
  modify (set_shutdown_stats true).

(** [getStats] (lines 723-726). *)
Definition getStats : M DeviceStats :=
  gets (fun st => stats (this st)).

(** [resetAccumulatedStats] (lines 729-747). *)
Definition resetAccumulatedStats : M unit :=
  modify_stats resetAccumulatedStats_stats.

(** [resetPeakStats] (lines 750-766). *)
Definition resetPeakStats : M unit :=
  modify_stats resetPeakStats_stats.

End Allocator.

Notation "x <-- m ;; k" := (bind m (fun x => k))
  (at level 90, m at level 89, right associativity).
Notation "m ;;; k" := (bind m (fun _ => k))
  (at level 90, right associativity).

(** ** The allocator of all devices *)

(** [c10::DataPtr], as far as the allocator looks at it: the pointer and
    whether its deleter is [raw_delete]. *)
Record DataPtr := mkDataPtr {
  dp_get : Z;
  dp_deleter_is_raw_delete : bool
}.

(** [class THNCachingAllocator] (lines 1252-1270), with the world its
    device allocators share. *)
Record THNCachingAllocator (D : Type) := mkTHN {
  allocated_blocks : gmap Z Z;
  device_allocator : list DeviceCachingAllocator;
  thn_world : World D
}.

Arguments allocated_blocks {D}.
Arguments device_allocator {D}.
Arguments thn_world {D}.
Arguments mkTHN {D}.

Section THN.

Context {D : Type} (ops : DriverOps D).
Variable uninitialized_stat_types : StatTypes.

Definition T (A : Type) : Type :=
  THNCachingAllocator D -> Res A * THNCachingAllocator D.

(** [device_allocator[device]->method(...)]. *)
Definition on_device {A} (device : Z) (m : M A) : T A :=
  fun s =>
    match (if 0 <=? device then device_allocator s !! Z.to_nat device else None) with
    | None => (Throw BadPointer, s)
    | Some dev =>
        let '(r, st) := m (mkState dev (thn_world s)) in
        (r, mkTHN (allocated_blocks s)
                  (<[Z.to_nat device := this st]> (device_allocator s))
                  (world st))
    end.

(** [add_allocated_block] (lines 1263-1266). *)
Definition add_allocated_block (block : Z) : T unit :=
  fun s =>
    match heap (thn_world s) !! block with
    | None => (Throw BadPointer, s)
    | Some blk =>
        (Ok tt, mkTHN (<[b_ptr blk := block]> (allocated_blocks s))
                      (device_allocator s) (thn_world s))
    end.

(** [get_allocated_block] (lines 1276-1287). *)
Definition get_allocated_block (ptr : Z) (remove : bool)
    (s : THNCachingAllocator D) : Z * THNCachingAllocator D :=
  match allocated_blocks s !! ptr with
  | None => (0, s)
  | Some block =>
      (block,
       if remove
       then mkTHN (delete ptr (allocated_blocks s)) (device_allocator s) (thn_world s)
       else s)
  end.

(** [block->device] for a block found in [allocated_blocks]. *)
Definition block_device (block : Z) (s : THNCachingAllocator D) : option Z :=
  b_device <$> heap (thn_world s) !! block.

(** [THNCachingAllocator::malloc] (lines 1300-1304). *)
Definition THN_malloc (device size stream : Z) : T Z :=
  fun s =>
    match on_device device (malloc ops uninitialized_stat_types device size stream) s with
    | (Throw e, s') => (Throw e, s')
    | (Ok block, s') =>
        match add_allocated_block block s' with
        | (Throw e, s'') => (Throw e, s'')
        | (Ok _, s'') =>
            match heap (thn_world s'') !! block with
            | Some blk => (Ok (b_ptr blk), s'')
            | None => (Throw BadPointer, s'')
            end
        end
    end.

(** [THNCachingAllocator::free] (lines 1306-1315). *)
Definition THN_free (ptr : Z) : T unit :=
  fun s =>
    if ptr =? 0 then (Ok tt, s)
    else
      let '(block, s') := get_allocated_block ptr true s in
      if block =? 0 then (Throw (InvalidDevicePointer ptr), s')
      else
        match block_device block s' with
        | None => (Throw BadPointer, s')
        | Some device => on_device device (free ops block) s'
        end.

(** [THNCachingAllocator::getBaseAllocation] (lines 1348-1354). *)
Definition THN_getBaseAllocation (ptr : Z) (outSize : bool) : T (Z * option Z) :=
  fun s =>
    let '(block, s') := get_allocated_block ptr false s in
    if block =? 0 then (Throw (InvalidDevicePointer ptr), s')
    else
      match block_device block s' with
      | None => (Throw BadPointer, s')
      | Some device => on_device device (getBaseAllocation block outSize) s'
      end.

(** [THNCachingAllocator::recordStream] (lines 1356-1376). *)
Definition THN_recordStream (ptr : DataPtr) (stream : Z) : T unit :=
  fun s =>
    if dp_get ptr =? 0 then (Ok tt, s)
    else if negb (dp_deleter_is_raw_delete ptr) then (Ok tt, s)
    else
      let '(block, s') := get_allocated_block (dp_get ptr) false s in
      if block =? 0 then (Throw AssertFailed, s')
      else
        match block_device block s' with
        | None => (Throw BadPointer, s')
        | Some device => on_device device (recordStream block stream) s'
        end.

(** [THNCachingAllocator::eraseStream] (lines 1378-1387). *)
Definition THN_eraseStream (ptr : DataPtr) (stream : Z) : T unit :=
  fun s =>
    if dp_get ptr =? 0 then (Ok tt, s)
    else
      let '(block, s') := get_allocated_block (dp_get ptr) false s in
      if block =? 0 then (Throw (InvalidDevicePointer (dp_get ptr)), s')
      else
        match block_device block s' with
        | None => (Throw BadPointer, s')
        | Some device => on_device device (eraseStream block stream) s'
        end.

(** The functions of the namespace (lines 1451-1515) on the global
    [caching_allocator]. *)
Definition raw_delete (ptr : Z) : T unit := THN_free ptr.

Definition get_base_allocation (ptr : Z) (outSize : bool) : T (Z * option Z) :=
  THN_getBaseAllocation ptr outSize.

Definition erase_stream (ptr : DataPtr) (stream : Z) : T unit :=
  THN_eraseStream ptr stream.

(** [raw_alloc_with_stream] (lines 1502-1511). *)
Definition raw_alloc_with_stream (nbytes stream : Z) : T Z :=
  fun s =>
    if nbytes =? 0 then (Ok 0, s)
    else
      let '(err, device) := aclrtGetDevice ops (driver (thn_world s)) in
      let s := mkTHN (allocated_blocks s) (device_allocator s)
                     (mkWorld (heap (thn_world s)) (next_block (thn_world s))
                        (event_pool (thn_world s)) (next_event (thn_world s))
                        (driver (thn_world s))
                        (trace (thn_world s) ++ [CallGetDevice])
                        (config (thn_world s))) in
      if negb (err =? ACL_ERROR_NONE) then (Throw (DriverError err), s)
      else THN_malloc device nbytes stream s.

End THN.

(** ** A simulated driver

    A small deterministic device used to run the allocator on concrete
    inputs: [sim_avail] bytes can still be handed out, addresses grow
    from [sim_next], [sim_live] remembers the size of every live
    allocation, and the streams in [sim_busy] have unfinished work, so
    events recorded on them are not complete. *)
Record SimDriver := mkSimDriver {
  sim_total : Z;
  sim_avail : Z;
  sim_next : Z;
  sim_live : gmap Z Z;
  sim_busy : list Z;
  sim_recorded : gmap Z Z
}.

Definition sim_malloc (d : SimDriver) (size : Z) : Z * Z * SimDriver :=
  if size <=? sim_avail d then
    (ACL_ERROR_NONE, sim_next d,
     mkSimDriver (sim_total d) (sim_avail d - size) (sim_next d + size)
                 (<[sim_next d := size]> (sim_live d)) (sim_busy d)
                 (sim_recorded d))
  else (ACL_ERROR_RT_MEMORY_ALLOCATION, 0, d).

Definition sim_free (d : SimDriver) (ptr : Z) : SimDriver :=
  match sim_live d !! ptr with
  | Some size =>
      mkSimDriver (sim_total d) (sim_avail d + size) (sim_next d)
                  (delete ptr (sim_live d)) (sim_busy d) (sim_recorded d)
  | None => d
  end.

Definition sim_event_record (d : SimDriver) (event stream : Z) : SimDriver :=
  mkSimDriver (sim_total d) (sim_avail d) (sim_next d) (sim_live d) (sim_busy d)
              (<[event := stream]> (sim_recorded d)).

Definition sim_event_query (d : SimDriver) (event : Z) : bool * SimDriver :=
  match sim_recorded d !! event with
  | Some stream => (negb (bool_decide (stream ∈ sim_busy d)), d)
  | None => (true, d)
  end.

Definition sim_ops : DriverOps SimDriver :=
  mkDriverOps SimDriver
    sim_malloc
    sim_free
    (fun d _ => (ACL_ERROR_NONE, d))
    (fun d _ => (ACL_ERROR_NONE, d))
    (fun d => (ACL_ERROR_NONE, sim_avail d, sim_total d))
    (fun d => (ACL_ERROR_NONE, 0))
    (fun d _ => (ACL_ERROR_NONE, d))
    (fun d => (ACL_ERROR_NONE, 0))
    (fun d _ => (ACL_ERROR_NONE, d))
    0
    sim_event_record
    sim_event_query
    []
    (fun _ => 0)
    1.

(** A device with [total] bytes, all of them free, and no stream busy. *)
Definition sim_driver (total : Z) : SimDriver :=
  mkSimDriver total total 4096 ∅ [] ∅.

(** The allocator as its constructor leaves it (lines 449-453), in a
    world with the given configuration and driver. *)
Definition init_allocator (cfg : CachingAllocatorConfig) : DeviceCachingAllocator :=
  mkDeviceCachingAllocator
    (zero_device_stats (to_int64 (m_max_split_size cfg)))
    [] [] ∅ [] 0 0 false false.

Definition init_world {D} (cfg : CachingAllocatorConfig) (d : D) : World D :=
  mkWorld ∅ 1 ∅ 1 d [] cfg.

Definition init_state {D} (cfg : CachingAllocatorConfig) (d : D) : State D :=
  mkState (init_allocator cfg) (init_world cfg d).

Definition init_thn {D} (cfg : CachingAllocatorConfig) (d : D) (devices : nat)
    : THNCachingAllocator D :=
  mkTHN ∅ (replicate devices (init_allocator cfg)) (init_world cfg d).

(** ** The task queue (NPUQueue.cpp) *)

Module Queue.

(** [kQueueCapacity] (line 141). *)
Definition kQueueCapacity : Z := 4096.

(** Modelled from the spec: [RepoStatus], [sring_idx] and the data members
    of [Repository] are declared in NPUQueue.h, which is not part of the
    sources.  The ring has a read and a write index, each with a
    [working] flag; the three wake primitives are eventfd counters. *)
Inductive RepoStatus := INIT | RUN | NEED_EXIT | CAN_EXIT.

#[global] Instance RepoStatus_eq_dec : EqDecision RepoStatus.
Proof. solve_decision. Defined.

(** What the queue does to its surroundings: the callbacks it invokes on a
    slot of the ring, and the tear-down steps of [ReleaseResource]. *)
Inductive QueueCall :=
| CbExec (slot : Z)
| CbCopy (slot : Z)
| CbRelease (slot : Z)
| CbDelete
| CloseFd (fd : Z).

#[global] Instance QueueCall_eq_dec : EqDecision QueueCall.
Proof. solve_decision. Defined.

Record Repository (Param : Type) := mkRepository {
  datas : list Param;
  read_idx : Z;
  read_working : bool;
  write_idx : Z;
  write_working : bool;
  need_empty : bool;
  repo_status : RepoStatus;
  initialized : bool;
  efd_read : Z;
  efd_write : Z;
  efd_empty : Z;
  efd_read_counter : Z;
  efd_write_counter : Z;
  efd_empty_counter : Z;
  calls : list QueueCall
}.

Arguments mkRepository {Param}.
Arguments datas {Param}.
Arguments read_idx {Param}.
Arguments read_working {Param}.
Arguments write_idx {Param}.
Arguments write_working {Param}.
Arguments need_empty {Param}.
Arguments repo_status {Param}.
Arguments initialized {Param}.
Arguments efd_read {Param}.
Arguments efd_write {Param}.
Arguments efd_empty {Param}.
Arguments efd_read_counter {Param}.
Arguments efd_write_counter {Param}.
Arguments efd_empty_counter {Param}.
Arguments calls {Param}.

Section Repo.

Context {Param : Type}.

(** The registered callbacks: the return code of the execute callback on
    a record, and what the copy-in callback leaves in a slot. *)
Variable execFunc : Param -> Z.
Variable copyFunc : Param -> Param -> Param.

Abbreviation Repo := (Repository Param).

Definition set_datas (v : list Param) (q : Repo) : Repo :=
  mkRepository v (read_idx q) (read_working q) (write_idx q) (write_working q)
    (need_empty q) (repo_status q) (initialized q) (efd_read q) (efd_write q)
    (efd_empty q) (efd_read_counter q) (efd_write_counter q)
    (efd_empty_counter q) (calls q).
Definition set_read_idx (v : Z) (q : Repo) : Repo :=
  mkRepository (datas q) v (read_working q) (write_idx q) (write_working q)
    (need_empty q) (repo_status q) (initialized q) (efd_read q) (efd_write q)
    (efd_empty q) (efd_read_counter q) (efd_write_counter q)
    (efd_empty_counter q) (calls q).
Definition SetReadWorking (v : bool) (q : Repo) : Repo :=
  mkRepository (datas q) (read_idx q) v (write_idx q) (write_working q)
    (need_empty q) (repo_status q) (initialized q) (efd_read q) (efd_write q)
    (efd_empty q) (efd_read_counter q) (efd_write_counter q)
    (efd_empty_counter q) (calls q).
Definition set_write_idx (v : Z) (q : Repo) : Repo :=
  mkRepository (datas q) (read_idx q) (read_working q) v (write_working q)
    (need_empty q) (repo_status q) (initialized q) (efd_read q) (efd_write q)
    (efd_empty q) (efd_read_counter q) (efd_write_counter q)
    (efd_empty_counter q) (calls q).
Definition SetWriteWorking (v : bool) (q : Repo) : Repo :=
  mkRepository (datas q) (read_idx q) (read_working q) (write_idx q) v
    (need_empty q) (repo_status q) (initialized q) (efd_read q) (efd_write q)
    (efd_empty q) (efd_read_counter q) (efd_write_counter q)
    (efd_empty_counter q) (calls q).
Definition set_repo_status (v : RepoStatus) (q : Repo) : Repo :=
  mkRepository (datas q) (read_idx q) (read_working q) (write_idx q)
    (write_working q) (need_empty q) v (initialized q) (efd_read q)
    (efd_write q) (efd_empty q) (efd_read_counter q) (efd_write_counter q)
    (efd_empty_counter q) (calls q).
Definition set_fds (r w e : Z) (q : Repo) : Repo :=
  mkRepository (datas q) (read_idx q) (read_working q) (write_idx q)
    (write_working q) (need_empty q) (repo_status q) (initialized q) r w e
    (efd_read_counter q) (efd_write_counter q) (efd_empty_counter q) (calls q).
Definition set_counters (r w e : Z) (q : Repo) : Repo :=
  mkRepository (datas q) (read_idx q) (read_working q) (write_idx q)
    (write_working q) (need_empty q) (repo_status q) (initialized q)
    (efd_read q) (efd_write q) (efd_empty q) r w e (calls q).
Definition record_call (c : QueueCall) (q : Repo) : Repo :=
  mkRepository (datas q) (read_idx q) (read_working q) (write_idx q)
    (write_working q) (need_empty q) (repo_status q) (initialized q)
    (efd_read q) (efd_write q) (efd_empty q) (efd_read_counter q)
    (efd_write_counter q) (efd_empty_counter q) (calls q ++ [c]).

(** [idx = (idx + 1) & (kQueueCapacity - 1)] on an [unsigned int]. *)
Definition next_idx (idx : Z) : Z :=
  Z.land ((idx + 1) mod 2 ^ 32) (kQueueCapacity - 1).

(** [IsFullQueue] (lines 424-426). *)
Definition IsFullQueue (q : Repo) : bool :=
  next_idx (write_idx q) =? read_idx q.

(** Modelled from the spec: [IsEmptyQueue] is defined in NPUQueue.h; the
    ring is empty when the read index has caught up with the write
    index. *)
Definition IsEmptyQueue (q : Repo) : bool :=
  read_idx q =? write_idx q.

(** [eventfd_write]: adds to the counter; [eventfd_read]: takes the
    counter when it is not zero, and does not return while it is zero. *)
Definition eventfd_write_read (q : Repo) : Repo :=
  set_counters (efd_read_counter q + 1) (efd_write_counter q) (efd_empty_counter q) q.
Definition eventfd_write_write (q : Repo) : Repo :=
  set_counters (efd_read_counter q) (efd_write_counter q + 1) (efd_empty_counter q) q.
Definition eventfd_write_empty (q : Repo) : Repo :=
  set_counters (efd_read_counter q) (efd_write_counter q) (efd_empty_counter q + 1) q.
Definition eventfd_read_write (q : Repo) : option Repo :=
  if efd_write_counter q =? 0 then None
  else Some (set_counters (efd_read_counter q) 0 (efd_empty_counter q) q).
Definition eventfd_read_read (q : Repo) : option Repo :=
  if efd_read_counter q =? 0 then None
  else Some (set_counters 0 (efd_write_counter q) (efd_empty_counter q) q).

(** [Repository::WriteQueue] (lines 225-237). *)
Definition WriteQueue (cur_paras : Param) (q : Repo) : bool * Repo :=
  if IsFullQueue q then (false, q)
  else
    let slot := Z.to_nat (write_idx q) in
    let q := record_call (CbCopy (write_idx q)) q in
    let q := match datas q !! slot with
             | Some dst => set_datas (<[slot := copyFunc dst cur_paras]> (datas q)) q
             | None => q
             end in
    (true, set_write_idx (next_idx (write_idx q)) q).

(** [Repository::ReleaseResource] (lines 396-410). *)
Definition ReleaseResource (q : Repo) : Repo :=
  let q := record_call CbDelete q in
  let q := if 0 <? efd_read q
           then set_fds (-1) (efd_write q) (efd_empty q) (record_call (CloseFd (efd_read q)) q)
           else q in
  let q := if 0 <? efd_write q
           then set_fds (efd_read q) (-1) (efd_empty q) (record_call (CloseFd (efd_write q)) q)
           else q in
  if 0 <? efd_empty q
  then set_fds (efd_read q) (efd_write q) (-1) (record_call (CloseFd (efd_empty q)) q)
  else q.

(** The loop of [ReadQueue] after a failed execution (lines 255-258).  The
    read index reaches the write index in fewer than [kQueueCapacity]
    steps when both are ring positions; [None] when the fuel is used up. *)
Fixpoint drain (fuel : nat) (q : Repo) : option Repo :=
  if IsEmptyQueue q then Some q
  else
    match fuel with
    | O => None
    | S fuel' =>
        drain fuel'
          (set_read_idx (next_idx (read_idx q))
                        (record_call (CbRelease (read_idx q)) q))
    end.

(** How a call of [ReadQueue] ends. *)
Inductive ReadResult :=
| Returned (b : bool)
| RuntimeError
| NoReturn.

(** [Repository::ReadQueue] (lines 239-271). *)
Definition ReadQueue (q : Repo) : ReadResult * Repo :=
  if IsEmptyQueue q then (Returned false, q)
  else
    match datas q !! Z.to_nat (read_idx q) with
    | None => (NoReturn, q)
    | Some record =>
        let ret := execFunc record in
        let q := record_call (CbExec (read_idx q)) q in
        if negb (ret =? 0) then
          match drain (Z.to_nat kQueueCapacity) q with
          | None => (NoReturn, q)
          | Some q => (RuntimeError, ReleaseResource q)
          end
        else
          let q := record_call (CbRelease (read_idx q)) q in
          (Returned true, set_read_idx (next_idx (read_idx q)) q)
    end.

(** How a call of [Enqueue] ends: it returns, or it is suspended in
    [eventfd_read(efd_write)]. *)
Inductive EnqueueResult :=
| EnqueueReturned
| EnqueueBlocked
| EnqueueNoReturn.

(** The loop of [Enqueue] (lines 287-327), run while the consumer makes
    no step. *)
Fixpoint Enqueue_loop (fuel : nat) (cur_paras : Param) (q : Repo)
    : EnqueueResult * Repo :=
  match fuel with
  | O => (EnqueueNoReturn, q)
  | S fuel' =>
      let '(ret, q) := WriteQueue cur_paras q in
      if negb ret then
        let q := SetWriteWorking false q in
        if IsFullQueue q then
          match eventfd_read_write q with
          | None => (EnqueueBlocked, q)
          | Some q => Enqueue_loop fuel' cur_paras (SetWriteWorking true q)
          end
        else Enqueue_loop fuel' cur_paras q
      else
        let q := if negb (read_working q) then eventfd_write_read q else q in
        (EnqueueReturned, SetWriteWorking false q)
  end.

(** [Repository::Enqueue] (lines 273-329).  With the consumer at rest the
    loop body runs at most twice. *)
Definition Enqueue (cur_paras : Param) (q : Repo) : EnqueueResult * Repo :=
  if negb (initialized q) then (EnqueueReturned, q)
  else if negb (bool_decide (repo_status q = RUN))
          && negb (bool_decide (repo_status q = INIT))
  then (EnqueueReturned, q)
  else Enqueue_loop 3 cur_paras (SetWriteWorking true q).

(** [Enqueue] from the point where [eventfd_read(efd_write)] returns
    (lines 311-313 and on). *)
Definition Enqueue_wake (cur_paras : Param) (q : Repo) : EnqueueResult * Repo :=
  match eventfd_read_write q with
  | None => (EnqueueBlocked, q)
  | Some q => Enqueue_loop 3 cur_paras (SetWriteWorking true q)
  end.

(** The producer calls [Enqueue] on the records of [l] in turn and stops
    at the first call that does not return; the result lists how the
    calls ended. *)
Fixpoint Enqueue_all (l : list Param) (q : Repo) : list EnqueueResult * Repo :=
  match l with
  | [] => ([], q)
  | x :: l' =>
      match Enqueue x q with
      | (EnqueueReturned, q') =>
          let '(rs, q'') := Enqueue_all l' q' in (EnqueueReturned :: rs, q'')
      | (r, q') => ([r], q')
      end
  end.

(** How a call of [Dequeue] ends. *)
Inductive DequeueResult :=
| DequeueReturned
| DequeueBlocked
| DequeueRuntimeError
| DequeueNoReturn.

(** The loop of [Dequeue] (lines 343-392), run while the producer makes
    no step. *)
Fixpoint Dequeue_loop (fuel : nat) (q : Repo) : DequeueResult * Repo :=
  match fuel with
  | O => (DequeueNoReturn, q)
  | S fuel' =>
      if bool_decide (repo_status q = CAN_EXIT)
      then (DequeueReturned, SetReadWorking false q)
      else
        match ReadQueue q with
        | (RuntimeError, q) => (DequeueRuntimeError, q)
        | (NoReturn, q) => (DequeueNoReturn, q)
        | (Returned false, q) =>
            if bool_decide (repo_status q = NEED_EXIT)
            then (DequeueReturned, SetReadWorking false (set_repo_status CAN_EXIT q))
            else
              let q := SetReadWorking false q in
              if IsEmptyQueue q then
                match eventfd_read_read q with
                | None => (DequeueBlocked, q)
                | Some q => Dequeue_loop fuel' (SetReadWorking true q)
                end
              else Dequeue_loop fuel' q
        | (Returned true, q) =>
            let q := if need_empty q && IsEmptyQueue q then eventfd_write_empty q else q in
            let q := if negb (write_working q) then eventfd_write_write q else q in
            (DequeueReturned, SetReadWorking false q)
        end
  end.

(** [Repository::Dequeue] (lines 331-394). *)
Definition Dequeue (q : Repo) : DequeueResult * Repo :=
  if negb (initialized q) then (DequeueReturned, q)
  else Dequeue_loop 3 (SetReadWorking true q).

(** The number of records between the read and the write index. *)
Definition pending (q : Repo) : Z :=
  (write_idx q - read_idx q) mod kQueueCapacity.

(** What the producer relies on while the consumer is at rest at the
    start of the ring: [w] records written, none read, no wake-up token
    on the write side. *)
Definition producer_view (w : Z) (q : Repo) : Prop :=
  initialized q = true /\ repo_status q = INIT /\ read_idx q = 0 /\
  write_idx q = w /\ efd_write_counter q = 0 /\ need_empty q = false /\
  length (datas q) = Z.to_nat kQueueCapacity.

(** The positions [start], [start + 1], ... of the ring, [n] of them. *)
Fixpoint ring_positions (start : Z) (n : nat) : list Z :=
  match n with
  | O => []
  | S n' => start :: ring_positions (next_idx start) n'
  end.

End Repo.

(** The repository as [InitRepo] leaves it (lines 449-466), every slot
    holding [blank], before the consumer thread has made a step. *)
Definition init_repo {Param} (blank : Param) (fd : Z) : Repository Param :=
  mkRepository (replicate (Z.to_nat kQueueCapacity) blank)
    0 false 0 false false INIT true fd (fd + 1) (fd + 2) 0 0 0 [].

End Queue.

(** ** The in-place [xlogy_] (XlogyKernelNpu.cpp) *)

Module Xlogy.

(** The tensor objects in scope in [xlogy_]: the parameters [self] and
    [other] (a tensor in the Tensor overload) and the two locals of the
    non-contiguous branch. *)
Inductive Var := var_self | var_other | var_contiguousSelf | var_result.

#[global] Instance Var_eq_dec : EqDecision Var.
Proof. solve_decision. Defined.

(** A frame gives every object in scope the tensor it holds; an object
    whose initialiser has not completed holds none. *)
Definition Frame : Type := Var -> option Z.

Definition bind_var (fr : Frame) (v : Var) (t : Z) : Frame :=
  fun w => if decide (w = v) then Some t else fr w.

(** An operand of the second input of the kernel. *)
Inductive Operand :=
| TensorOperand (v : Var)
| ScalarOperand (value : Z).

(** One [OpCommand ... .Run()]: the kernel name, the inputs, and the
    destination: the object [.Output] was given and what it held when the
    command was built. *)
Record KernelRun := mkKernelRun {
  run_name : string;
  run_self : Var * option Z;
  run_other : Operand;
  run_output : Var * option Z
}.

Inductive Action :=
| Run (k : KernelRun)
| FreshView (dst : Var) (src : Var * option Z).

Definition Xlogy_name : string := "Xlogy"%string.

Section Ops.

(** [NpuUtils::check_match], [NpuUtils::format_contiguous] and
    [CalcuOpUtil::CheckMemoryOverLaps] are outside the sources.  The last
    one returns nothing: it comes back or it raises, and
    [CheckMemoryOverLaps inputs outputs] is [true] when it comes back. *)
Variable check_match : Z -> bool.
Variable format_contiguous : Z -> Z.
Variable CheckMemoryOverLaps : list Z -> list Z -> bool.

(** [xlogy_out_npu_nocheck(self, other, result)] (lines 7-25): all
    tensors are passed by reference; the reference [result] is returned. *)
Definition xlogy_out_npu_nocheck (fr : Frame) (self : Var) (other : Operand)
    (result : Var) : Var * list Action :=
  (result, [Run (mkKernelRun Xlogy_name (self, fr self) other (result, fr result))]).

(** The initialisation [at::Tensor v = <reference r>]: [v] takes what [r]
    holds once the initialiser has been evaluated. *)
Definition init_from (fr : Frame) (v r : Var) : Frame :=
  fun w => if decide (w = v) then fr r else fr w.

(** [xlogy_(at::Tensor& self, const at::Tensor& other)] (lines 103-118):
    the kernel runs it makes and the view it refreshes, or [None] when
    [CheckMemoryOverLaps] raises (line 106), before anything is run. *)
Definition xlogy__Tensor (self : Z) (other : Z) : option (list Action) :=
  let fr : Frame := bind_var (bind_var (fun _ => None) var_self self) var_other other in
  let inputs := [self; other] in
  let outputs := [self] in
  if negb (CheckMemoryOverLaps inputs outputs) then None
  else if negb (check_match self) then
    let fr := bind_var fr var_contiguousSelf (format_contiguous self) in
    let '(r, acts) :=
      xlogy_out_npu_nocheck fr var_contiguousSelf (TensorOperand var_other)
        var_contiguousSelf in
    let fr := init_from fr var_result r in
    Some (acts ++ [FreshView var_self (var_result, fr var_result)])
  else
    Some (snd (xlogy_out_npu_nocheck fr var_self (TensorOperand var_other) var_self)).

(** [xlogy_(at::Tensor& self, const at::Scalar& other)] (lines 120-132). *)
Definition xlogy__Scalar (self : Z) (other : Z) : list Action :=
  let fr : Frame := bind_var (fun _ => None) var_self self in
  if negb (check_match self) then
    let fr := bind_var fr var_contiguousSelf (format_contiguous self) in
    let '(r, acts) :=
      xlogy_out_npu_nocheck fr var_contiguousSelf (ScalarOperand other) var_result in
    let fr := init_from fr var_result r in
    acts ++ [FreshView var_self (var_result, fr var_result)]
  else
    snd (xlogy_out_npu_nocheck fr var_self (ScalarOperand other) var_self).

End Ops.

End Xlogy.

(** ** Definitions used to state the properties *)

(** The ceiling of [a / b]. *)
Definition Zceil_div (a b : Z) : Z := - (- a / b).

(** The rounding rule in the words of the specification. *)
Definition spec_round_size (n : Z) : Z :=
  Z.max 512 (512 * Zceil_div (n + 32) 512).

(** The state a fresh allocator is in after [malloc(device 0, size, stream)]
    on the simulated driver with 1 GiB. *)
Definition after_malloc (cfg : CachingAllocatorConfig) (size stream : Z)
    : Res Z * State SimDriver :=
  malloc sim_ops stat_types_false 0 size stream
    (init_state cfg (sim_driver (2 ^ 30))).

(** The block at address [b] of a state, when it has the given size and
    pool. *)
Definition block_has {D} (st : State D) (b : Z) (size : Z) (pool : PoolPtr) : Prop :=
  exists blk, heap (world st) !! b = Some blk /\ b_size blk = size /\ b_pool blk = pool.


(** A pool as the allocator keeps it: its addresses in strictly ascending
    order of [BlockComparator], every one of them the address of a block
    of that pool. *)
Definition pool_sorted (h : Heap) (l : list Z) : Prop :=
  StronglySorted (fun a b => block_lt h a b = true) l.

Definition pool_blocks_of (h : Heap) (pool : PoolPtr) (l : list Z) : Prop :=
  forall e, e ∈ l ->
    exists blk, h !! e = Some blk /\ b_pool blk = pool /\ 0 <= b_ptr blk.

(** The list of blocks of a pool in a state. *)
Definition blocks_of_pool {D} (st : State D) (pool : PoolPtr) : list Z :=
  match pool with
  | NullPool => []
  | SmallPool => small_blocks (this st)
  | LargePool => large_blocks (this st)
  end.

(** Two block stores that differ in the [gc_count] of their blocks only. *)
Definition same_but_gc_count (h h' : Heap) : Prop :=
  forall a,
    match h !! a, h' !! a with
    | Some x, Some y => exists n, y = set_b_gc_count x n
    | None, None => True
    | _, _ => False
    end.


(** The parameters [malloc] searches with for a rounded size [Q]
    (lines 470-473). *)
Definition malloc_params (device stream Q : Z) (stat_types : StatTypes) : AllocParams :=
  mkAllocParams (search_key_Block device stream Q) (get_pool Q)
                (get_allocation_size Q) 0 stat_types ACL_ERROR_NONE.

Definition MiB : Z := 1048576.

(** The configuration read from [max_split_size_mb:21]. *)
Definition config_21MiB : CachingAllocatorConfig := mkConfig (21 * MiB) 0%Q.

(** A fresh allocator under [config_21MiB] after [malloc] and [free] of
    one block of [n] bytes on stream 7: the block is cached, unsplit, in
    the large pool. *)
Definition one_cached_block (n : Z) : State SimDriver :=
  snd ((b <-- malloc sim_ops stat_types_false 0 n 7 ;; free sim_ops b)
         (init_state config_21MiB (sim_driver (2 ^ 30)))).

(** A fresh allocator with [garbage_collection_threshold:0.5] and a memory
    fraction of one half of a 1 GiB device, after [malloc] and [free] of
    one block of 300 MiB on stream 7. *)
Definition gc_ready : State SimDriver :=
  snd ((setMemoryFraction sim_ops (1 # 2) ;;;
        b <-- malloc sim_ops stat_types_false 0 (300 * MiB - 32) 7 ;;
        free sim_ops b)
         (init_state (mkConfig SIZE_MAX (1 # 2)) (sim_driver (2 ^ 30)))).


(** ** Quiescent points and the coherence of the statistics *)

(** The public methods of [DeviceCachingAllocator]. *)
Inductive Call :=
| Call_malloc (device size stream : Z)
| Call_free (block : Z)
| Call_getBaseAllocation (block : Z) (outSize : bool)
| Call_recordStream (block stream : Z)
| Call_eraseStream (block stream : Z)
| Call_setMemoryFraction (fraction : Q)
| Call_emptyCache (check_error : bool)
| Call_devSetShutdownStats
| Call_getStats
| Call_resetAccumulatedStats
| Call_resetPeakStats.

(** One call, its result dropped; the state it leaves is the one the
    next call starts from, whether it returned or raised. *)
Definition run_call {D} (ops : DriverOps D) (garbage : StatTypes) (c : Call) : M unit :=
  match c with
  | Call_malloc device size stream => malloc ops garbage device size stream ;;; ret tt
  | Call_free block => free ops block
  | Call_getBaseAllocation block outSize => getBaseAllocation block outSize ;;; ret tt
  | Call_recordStream block stream => recordStream block stream
  | Call_eraseStream block stream => eraseStream block stream
  | Call_setMemoryFraction fraction => setMemoryFraction ops fraction
  | Call_emptyCache check_error => emptyCache ops garbage check_error
  | Call_devSetShutdownStats => devSetShutdownStats
  | Call_getStats => getStats ;;; ret tt
  | Call_resetAccumulatedStats => resetAccumulatedStats
  | Call_resetPeakStats => resetPeakStats
  end.










(** [m] keeps the invariant [I] of the statistics, whether it returns or
    raises, and what it returns satisfies [Q]. *)
Definition hoare {D A} (I : DeviceStats -> Prop) (m : M (D := D) A)
    (Q : A -> Prop) : Prop :=
  forall st, I (stats (this st)) ->
    I (stats (this (snd (m st)))) /\ (forall a, fst (m st) = Ok a -> Q a).





(** ** Definitions used to state further properties *)

(** [m] moves the part [view] of the state along [R], whether it returns
    or raises. *)
Definition steps {D A X} (view : State D -> X) (R : relation X)
    (m : M (D := D) A) : Prop :=
  forall st, R (view st) (view (snd (m st))).

(** The log of driver calls grows, and only by calls that satisfy [P]. *)
Definition grows_by (P : DriverCall -> Prop) (l l' : list DriverCall) : Prop :=
  exists ext, l' = l ++ ext /\ Forall P ext.

Definition is_event_record (c : DriverCall) : Prop :=
  match c with CallEventRecord _ _ => True | _ => False end.

Definition is_event_query (c : DriverCall) : Prop :=
  match c with CallEventQuery _ => True | _ => False end.

(** The calls that read or set the current context and device of the
    calling thread. *)
Definition is_context_call (c : DriverCall) : Prop :=
  match c with
  | CallGetDevice | CallSetDevice _
  | CallGetCurrentContext | CallSetCurrentContext _ => True
  | _ => False
  end.

(** The driver calls [free] can make: it records events and switches
    context and device around them. *)
Definition records_or_switches (c : DriverCall) : Prop :=
  is_event_record c \/ is_context_call c.

(** The log of driver calls of a state. *)
Definition driver_log {D} (st : State D) : list DriverCall := trace (world st).

(** The two pools and the active set of a state. *)
Definition pools_and_active {D} (st : State D) : list Z * list Z * gset Z :=
  (large_blocks (this st), small_blocks (this st), active_blocks (this st)).

(** The blocks at the addresses [l] form a chain of siblings: each one
    points back to the one before ([prev] for the first) and on to the one
    after (null for the last). *)
Fixpoint linked (h : Heap) (prev : Z) (l : list Z) : Prop :=
  match l with
  | [] => True
  | b :: l' =>
      b <> 0 /\
      exists blk, h !! b = Some blk /\ b_prev blk = prev /\
                  b_next blk = hd 0 l' /\ linked h b l'
  end.

(** The sizes of the blocks at the addresses [l], added up. *)
Definition chain_size (h : Heap) (l : list Z) : Z :=
  foldr (fun b acc => match h !! b with Some blk => b_size blk + acc | None => acc end) 0 l.

(** Every [Stat] of [d] stands in relation [R] to the one at the same
    place of [d0]. *)
Definition stats_related (R : Stat -> Stat -> Prop) (d0 d : DeviceStats) : Prop :=
  (forall f t, R (sa_get (ds_get d0 f) t) (sa_get (ds_get d f) t)) /\
  R (oversize_allocations d0) (oversize_allocations d) /\
  R (oversize_segments d0) (oversize_segments d).

Definition peak_not_below (s0 s : Stat) : Prop := peak s0 <= peak s.

Definition accumulators_not_below (s0 s : Stat) : Prop :=
  allocated s0 <= allocated s /\ freed s0 <= freed s.


(** The driver calls that poll the events of the entries [dq] of a deque,
    front to back. *)
Definition polls (dq : list (Z * Z * Z)) : list DriverCall :=
  map (fun e => CallEventQuery (fst (fst e))) dq.


(** ** The settings parser (NPUCachingAllocator.cpp, lines 316-409) *)

(** What [parseArgs] raises: the failed TORCH_CHECKs by their message, and
    the exceptions of [stoi] and [stod]. *)
Inductive ConfigError :=
| ExpectedToken (c : ascii)
| MaxSplitSizeTooSmall
| ExpectingMaxSplitSizeValue
| GcThresholdTooSmall
| GcThresholdTooBig
| ExpectingGcThresholdValue
| UnrecognizedOption (option : string)
| ConversionFailed
| LoopFuel.

(** The result of a step of the parser: a value or an error, and the
    settings as the step left them. *)
Inductive ParseRes (A : Type) :=
| POk (a : A) (cfg : CachingAllocatorConfig)
| PErr (e : ConfigError) (cfg : CachingAllocatorConfig).

Arguments POk {A}.
Arguments PErr {A}.

(** A [double]: a finite value, an infinity or a NaN. *)
Inductive double :=
| Finite (q : Q)
| Infinite (negative : bool)
| NaN.

(** [val1 > 0] on doubles. *)
Definition double_positive (d : double) : bool :=
  match d with
  | Finite q => 0 <? Qnum q
  | Infinite negative => negb negative
  | NaN => false
  end.

(** [val1 < 1.0] on doubles. *)
Definition double_below_one (d : double) : bool :=
  match d with
  | Finite q => Qnum q <? Z.pos (Qden q)
  | Infinite negative => negative
  | NaN => false
  end.

(** The value stored in a [double] field read back as a rational; the
    fields of the settings only ever hold finite values. *)
Definition double_value (d : double) : Q :=
  match d with
  | Finite q => q
  | _ => 0%Q
  end.

(** [INT_MIN] and [INT_MAX] of a 32-bit [int]. *)
Definition INT_MIN : Z := - 2 ^ 31.

(** The characters [lexArgs] makes tokens of their own. *)
Definition is_delimiter (c : ascii) : bool :=
  Ascii.eqb c ","%char || Ascii.eqb c ":"%char ||
  Ascii.eqb c "["%char || Ascii.eqb c "]"%char.

(** [strlen]: the characters before the first NUL. *)
Fixpoint c_str (env : list ascii) : list ascii :=
  match env with
  | [] => []
  | c :: env' => if Ascii.eqb c Ascii.zero then [] else c :: c_str env'
  end.

(** The loop of [lexArgs] (lines 322-332) from position [i] on: [env] are
    the characters still to read, [buf] and [config] the two vectors. *)
Fixpoint lexArgs_loop (env : list ascii) (buf : list ascii) (config : list string)
    : list ascii * list string :=
  match env with
  | [] => (buf, config)
  | c :: env' =>
      if is_delimiter c then
        let config :=
          if negb (bool_decide (buf = []))
          then config ++ [String.string_of_list_ascii buf] else config in
        let buf := if negb (bool_decide (buf = [])) then [] else buf in
        lexArgs_loop env' buf (config ++ [String c EmptyString])
      else if negb (Ascii.eqb c " "%char) then lexArgs_loop env' (buf ++ [c]) config
      else lexArgs_loop env' buf config
  end.

(** [lexArgs] (lines 316-336); the result is [config] as the call leaves
    it. *)
Definition lexArgs (env : string) (config : list string) : list string :=
  let '(buf, config) :=
    lexArgs_loop (c_str (String.list_ascii_of_string env)) [] config in
  if negb (bool_decide (buf = []))
  then config ++ [String.string_of_list_ascii buf] else config.

Section Parser.

(** [std::stoi] and [std::stod] are outside the repository: they give a
    value or raise ([None]). *)
Variable stoi : string -> option Z.
Variable stod : string -> option double.

(** [consumeToken] (lines 338-345). *)
Definition consumeToken (config : list string) (i : nat) (c : ascii)
    (cfg : CachingAllocatorConfig) : ParseRes unit :=
  match config !! i with
  | Some token =>
      if String.eqb token (String c EmptyString) then POk tt cfg
      else PErr (ExpectedToken c) cfg
  | None => PErr (ExpectedToken c) cfg
  end.

(** [parseMaxSplitSize] (lines 347-364). *)
Definition parseMaxSplitSize (config : list string) (i : nat)
    (cfg : CachingAllocatorConfig) : ParseRes nat :=
  let i := S i in
  match consumeToken config i ":"%char cfg with
  | PErr e cfg => PErr e cfg
  | POk _ cfg =>
      let i := S i in
      match config !! i with
      | Some token =>
          match stoi token with
          | None => PErr ConversionFailed cfg
          | Some v =>
              let val1 := wrap64 v in
              match parseMaxSplitSize_value val1 with
              | None => PErr MaxSplitSizeTooSmall cfg
              | Some m => POk i (mkConfig m (m_garbage_collection_threshold cfg))
              end
          end
      | None => PErr ExpectingMaxSplitSizeValue cfg
      end
  end.

(** [parseGarbageCollectionThreshold] (lines 366-382). *)
Definition parseGarbageCollectionThreshold (config : list string) (i : nat)
    (cfg : CachingAllocatorConfig) : ParseRes nat :=
  let i := S i in
  match consumeToken config i ":"%char cfg with
  | PErr e cfg => PErr e cfg
  | POk _ cfg =>
      let i := S i in
      match config !! i with
      | Some token =>
          match stod token with
          | None => PErr ConversionFailed cfg
          | Some val1 =>
              if negb (double_positive val1) then PErr GcThresholdTooSmall cfg
              else if negb (double_below_one val1) then PErr GcThresholdTooBig cfg
              else POk i (mkConfig (m_max_split_size cfg) (double_value val1))
          end
      | None => PErr ExpectingGcThresholdValue cfg
      end
  end.

(** The loop of [parseArgs] (lines 396-408) from index [i] on.  Every
    round moves [i] forward, so [fuel] above the number of tokens is never
    used up. *)
Fixpoint parseArgs_loop (fuel : nat) (config : list string) (i : nat)
    (cfg : CachingAllocatorConfig) : ParseRes unit :=
  match fuel with
  | O => PErr LoopFuel cfg
  | S fuel' =>
      match config !! i with
      | None => POk tt cfg
      | Some token =>
          let r :=
            if String.eqb token "max_split_size_mb" then
              parseMaxSplitSize config i cfg
            else if String.eqb token "garbage_collection_threshold" then
              parseGarbageCollectionThreshold config i cfg
            else PErr (UnrecognizedOption token) cfg in
          match r with
          | PErr e cfg => PErr e cfg
          | POk i cfg =>
              if (i + 1 <? length config)%nat then
                match consumeToken config (S i) ","%char cfg with
                | PErr e cfg => PErr e cfg
                | POk _ cfg => parseArgs_loop fuel' config (S (S i)) cfg
                end
              else parseArgs_loop fuel' config (S i) cfg
          end
      end
  end.

(** [parseArgs] (lines 384-409); [None] is the null pointer [getenv]
    gives for a variable that is not set. *)
Definition parseArgs (env : option string) (cfg : CachingAllocatorConfig)
    : ParseRes unit :=
  let cfg := mkConfig SIZE_MAX 0%Q in
  match env with
  | None => POk tt cfg
  | Some env =>
      let config := lexArgs env [] in
      parseArgs_loop (S (length config)) config O cfg
  end.

End Parser.


(** A word of the settings: a non-empty string without delimiter, space
    or NUL. *)
Definition is_word_char (c : ascii) : Prop :=
  is_delimiter c = false /\ c <> " "%char /\ c <> Ascii.zero.

Definition is_word (s : string) : Prop :=
  s <> EmptyString /\ Forall is_word_char (String.list_ascii_of_string s).

(** A token as [lexArgs] makes them: one delimiter, or a word. *)
Definition is_token (t : string) : Prop :=
  (exists c, is_delimiter c = true /\ t = String c EmptyString) \/ is_word t.

(** The settings [parseArgs] can leave when it returns: the default
    [max_split_size] or a multiple of 1 MiB above [kLargeBuffer], and the
    default threshold or one strictly between 0 and 1. *)
Definition valid_settings (cfg : CachingAllocatorConfig) : Prop :=
  (m_max_split_size cfg = SIZE_MAX \/
   (kLargeBuffer < m_max_split_size cfg < 2 ^ 64 /\
    m_max_split_size cfg mod (1024 * 1024) = 0)) /\
  (m_garbage_collection_threshold cfg = 0%Q \/
   (0 < m_garbage_collection_threshold cfg /\ m_garbage_collection_threshold cfg < 1)%Q).


(** ** The threads around the task queue (NPUQueue.cpp) *)

Module QueueThreads.

Import Queue.

Section Threads.

Context {Param : Type}.
Variable execFunc : Param -> Z.

(** [Repository::GetStatus] (lines 143-149); the error log of an
    uninitialised queue is left out. *)
Definition GetStatus (q : Repository Param) : RepoStatus := repo_status q.

(** [Repository::SetStatus] (lines 151-158). *)
Definition SetStatus (desired : RepoStatus) (q : Repository Param) : Repository Param :=
  if negb (initialized q) then q else set_repo_status desired q.

(** [Repository::ChangeStatus] (lines 160-167). *)
Definition ChangeStatus (expected desired : RepoStatus) (q : Repository Param)
    : Repository Param :=
  if negb (initialized q) then q
  else if bool_decide (repo_status q = expected) then set_repo_status desired q
  else q.

Definition set_need_empty (v : bool) (q : Repository Param) : Repository Param :=
  mkRepository (datas q) (read_idx q) (read_working q) (write_idx q)
    (write_working q) v (repo_status q) (initialized q) (efd_read q)
    (efd_write q) (efd_empty q) (efd_read_counter q) (efd_write_counter q)
    (efd_empty_counter q) (calls q).

(** [eventfd_read(efd_empty, &u)]: takes the counter when it is not zero,
    and does not return while it is zero. *)
Definition eventfd_read_empty (q : Repository Param) : option (Repository Param) :=
  if efd_empty_counter q =? 0 then None
  else Some (set_counters (efd_read_counter q) (efd_write_counter q) 0 q).

(** [NPUStatus], as far as [MakeSureQueueEmpty] returns it. *)
Inductive NPUStatus := SUCCESS | FAILED | INTERNEL_ERROR.

(** How a call of [MakeSureQueueEmpty] ends: it returns, or it is
    suspended in [eventfd_read(efd_empty)]. *)
Inductive MakeSureResult :=
| MakeSureReturned (s : NPUStatus)
| MakeSureBlocked
| MakeSureNoReturn.

(** The loop of [MakeSureQueueEmpty] (lines 191-211), run while the
    consumer makes no step. *)
Fixpoint MakeSureQueueEmpty_loop (fuel : nat) (q : Repository Param)
    : MakeSureResult * Repository Param :=
  match fuel with
  | O => (MakeSureNoReturn, q)
  | S fuel' =>
      if IsEmptyQueue q then (MakeSureReturned SUCCESS, q)
      else
        let q := set_need_empty true q in
        if negb (IsEmptyQueue q) then
          match eventfd_read_empty q with
          | None => (MakeSureBlocked, q)
          | Some q => MakeSureQueueEmpty_loop fuel' (set_need_empty false q)
          end
        else MakeSureQueueEmpty_loop fuel' (set_need_empty false q)
  end.

(** [Repository::MakeSureQueueEmpty] (lines 169-223); [joinable] is
    [consumer.joinable()], and the handling of the GIL is left out.  With
    the consumer at rest the loop body runs at most once. *)
Definition MakeSureQueueEmpty (joinable : bool) (q : Repository Param)
    : MakeSureResult * Repository Param :=
  if negb (initialized q) then (MakeSureReturned FAILED, q)
  else if joinable then MakeSureQueueEmpty_loop 2 q
  else (MakeSureReturned SUCCESS, q).

(** [MakeSureQueueEmpty] from the point where [eventfd_read(efd_empty)]
    returns (lines 198-210 and on). *)
Definition MakeSureQueueEmpty_wake (q : Repository Param)
    : MakeSureResult * Repository Param :=
  match eventfd_read_empty q with
  | None => (MakeSureBlocked, q)
  | Some q => MakeSureQueueEmpty_loop 2 (set_need_empty false q)
  end.

(** The loop of [StartConsume] (lines 443-445): [Dequeue] until the status
    is [CAN_EXIT].  The thread name and the device it sets first are left
    out.  One round executes at most one record, so a fuel above the
    number of pending records is enough once the exit is asked for. *)
Fixpoint StartConsume_loop (fuel : nat) (q : Repository Param)
    : DequeueResult * Repository Param :=
  match fuel with
  | O => (DequeueNoReturn, q)
  | S fuel' =>
      if bool_decide (GetStatus q = CAN_EXIT) then (DequeueReturned, q)
      else
        match Dequeue execFunc q with
        | (DequeueReturned, q') => StartConsume_loop fuel' q'
        | r => r
        end
  end.

(** [Repository::~Repository] (lines 412-422) up to [consumer.join()]:
    the request to exit and the token that ends the consumer's wait. *)
Definition Repository_destructor_request (joinable : bool) (q : Repository Param)
    : Repository Param :=
  if initialized q && joinable then eventfd_write_read (SetStatus NEED_EXIT q)
  else q.

(** [Repository::~Repository] after [consumer.join()]. *)
Definition Repository_destructor_finish (q : Repository Param) : Repository Param :=
  if initialized q then ReleaseResource (eventfd_write_empty q) else q.

(** The ring is well formed: both indices are ring positions and the
    buffer has [kQueueCapacity] slots. *)
Definition ring_ok (q : Repository Param) : Prop :=
  0 <= read_idx q < kQueueCapacity /\
  0 <= write_idx q < kQueueCapacity /\
  length (datas q) = Z.to_nat kQueueCapacity.

(** The records waiting in the ring, oldest first. *)
Definition ring_contents (q : Repository Param) : list Param :=
  omap (fun i => datas q !! Z.to_nat i)
       (ring_positions (read_idx q) (Z.to_nat (pending q))).

(** The callbacks the consumer invokes on the slots [l], in turn. *)
Definition executes (l : list Z) : list QueueCall :=
  flat_map (fun i => [CbExec i; CbRelease i]) l.

End Threads.

End QueueThreads.


(** ** Further methods of the allocators (NPUCachingAllocator.cpp) *)

Section MoreMethods.

Context {D : Type} (ops : DriverOps D).
Variable uninitialized_stat_types : StatTypes.

(** [cache_info_aux] (lines 1241-1249): [total] and [largest] are what
    the two pointers of the caller hold. *)
Fixpoint cache_info_aux (blocks : list Z) (total largest : Z) : M (D := D) (Z * Z) :=
  match blocks with
  | [] => ret (total, largest)
  | it :: rest =>
      blk <-- load it ;;
      let blocksize := b_size blk in
      let total := wrap64 (total + blocksize) in
      let largest := if largest <? blocksize then blocksize else largest in
      cache_info_aux rest total largest
  end.

(** [cacheInfo] (lines 716-720). *)
Definition cacheInfo (total largest : Z) : M (D := D) (Z * Z) :=
  large <-- gets (fun st => large_blocks (this st)) ;;
  r <-- cache_info_aux large total largest ;;
  small <-- gets (fun st => small_blocks (this st)) ;;
  cache_info_aux small (fst r) (snd r).




(** [FreeBlock] (lines 1535-1541). *)
Definition FreeBlock (handle : Z) : T (D := D) unit :=
  fun s =>
    if handle =? 0 then (Throw AssertFailed, s)
    else
      match block_device handle s with
      | None => (Throw BadPointer, s)
      | Some device =>
          if negb ((0 <=? device) && (device <? device_count ops))
          then (Throw AssertFailed, s)
          else on_device device (free ops handle) s
      end.

(** [GetBlockPtr] and [GetBlockSize] (lines 1543-1553). *)
Definition GetBlockPtr (handle : Z) : T (D := D) Z :=
  fun s =>
    if handle =? 0 then (Throw AssertFailed, s)
    else match heap (thn_world s) !! handle with
         | Some blk => (Ok (b_ptr blk), s)
         | None => (Throw BadPointer, s)
         end.

Definition GetBlockSize (handle : Z) : T (D := D) Z :=
  fun s =>
    if handle =? 0 then (Throw AssertFailed, s)
    else match heap (thn_world s) !! handle with
         | Some blk => (Ok (b_size blk), s)
         | None => (Throw BadPointer, s)
         end.

End MoreMethods.

(** The sizes of the blocks at the addresses [l]. *)
Definition sizes_of (h : Heap) (l : list Z) : list Z :=
  omap (fun b => b_size <$> h !! b) l.

Definition sum_list (l : list Z) : Z := foldr Z.add 0 l.

Definition max_list (l : list Z) : Z := foldr Z.max 0 l.

(** * Properties *)

(** ** Size rounding *)

Lemma wrap64_small (z : Z) : 0 <= z < 2 ^ 64 -> wrap64 z = z.
Proof. intros H. unfold wrap64. apply Z.mod_small. exact H. Qed.

Lemma Zceil_div_512 (a : Z) : Zceil_div a 512 = (a + 511) / 512.
Proof.
  unfold Zceil_div.
  pose proof (Z.div_mod (- a) 512 ltac:(lia)) as H1.
  pose proof (Z.mod_pos_bound (- a) 512 ltac:(lia)) as H2.
  pose proof (Z.div_mod (a + 511) 512 ltac:(lia)) as H3.
  pose proof (Z.mod_pos_bound (a + 511) 512 ltac:(lia)) as H4.
  lia.
Qed.

(** C8 fails as stated: for a request of [2^64 - 1] bytes the addition of
    the 32-byte budget wraps around and the rounded size is 512, not the
    value of the formula. *)
Lemma round_size_wraps_around :
  round_size (2 ^ 64 - 1) = 512 /\
  round_size (2 ^ 64 - 1) <> spec_round_size (2 ^ 64 - 1).
Proof. split; [reflexivity | vm_compute; discriminate]. Qed.

(** C8, amended: for every request [n] whose rounding does not wrap around
    ([n + 543 < 2^64]) the size [malloc] works with is
    [max(512, 512 * ceil((n + 32) / 512))]; [malloc(1, s)] works with 512
    bytes, selects the small pool, and on a fresh allocator hands out a
    512-byte block of the small pool. *)
Theorem round_size_formula (n : Z) (Hn : 0 <= n) (Hno_wrap : n + 543 < 2 ^ 64) :
  round_size n = spec_round_size n /\
  round_size 1 = 512 /\
  get_pool (round_size 1) = SmallPool /\
  (exists b, fst (after_malloc default_config 1 7) = Ok b /\
             block_has (snd (after_malloc default_config 1 7)) b 512 SmallPool).
Proof.
  split; [| split; [reflexivity | split; [reflexivity |]]].
  - unfold round_size, spec_round_size, kMinBlockSize.
    rewrite Zceil_div_512.
    rewrite (wrap64_small (n + 32)) by lia.
    destruct (Z.ltb_spec (n + 32) 512) as [Hlt | Hge].
    + assert ((n + 32 + 511) / 512 = 1) as ->.
      { symmetry. apply (Z.div_unique _ _ 1 (n + 32 + 511 - 512)); lia. }
      reflexivity.
    + assert (wrap64 (wrap64 (n + 32 + 512) - 1) = n + 32 + 511) as ->.
      { unfold wrap64. rewrite Zminus_mod_idemp_l.
        replace (n + 32 + 512 - 1) with (n + 32 + 511) by lia.
        apply Z.mod_small. lia. }
      pose proof (Z.div_mod (n + 32 + 511) 512 ltac:(lia)) as H1.
      pose proof (Z.mod_pos_bound (n + 32 + 511) 512 ltac:(lia)) as H2.
      rewrite wrap64_small by lia.
      lia.
  - exists 2. split; [vm_compute; reflexivity |].
    eexists. split; [vm_compute; reflexivity |]. split; reflexivity.
Qed.

Lemma round_size_formula_witness :
  round_size 1000 = spec_round_size 1000 /\
  round_size 1 = 512 /\
  get_pool (round_size 1) = SmallPool /\
  (exists b, fst (after_malloc default_config 1 7) = Ok b /\
             block_has (snd (after_malloc default_config 1 7)) b 512 SmallPool).
Proof. apply (round_size_formula 1000); [lia | reflexivity]. Defined.

(** ** The in-place [xlogy_] with a scalar *)

(** C9: on the branch where [self] fails the contiguity check, the Scalar
    overload of [xlogy_] hands the kernel the local [result] as its
    destination while [result] is still being initialised and holds no
    tensor, and then refreshes [self] from that [result].  The Tensor
    overload differs: when its overlap check lets the call through it
    hands the kernel [contiguousSelf], which is bound; when the check
    raises it runs nothing. *)
Theorem xlogy__Scalar_output_is_unbound_result
    (check_match : Z -> bool) (format_contiguous : Z -> Z)
    (CheckMemoryOverLaps : list Z -> list Z -> bool) (self other : Z)
    (Hmismatch : check_match self = false) :
  Xlogy.xlogy__Scalar check_match format_contiguous self other =
    [Xlogy.Run (Xlogy.mkKernelRun Xlogy.Xlogy_name
                  (Xlogy.var_contiguousSelf, Some (format_contiguous self))
                  (Xlogy.ScalarOperand other)
                  (Xlogy.var_result, None));
     Xlogy.FreshView Xlogy.var_self (Xlogy.var_result, None)] /\
  (forall o,
     (CheckMemoryOverLaps [self; o] [self] = true ->
      exists k rest,
        Xlogy.xlogy__Tensor check_match format_contiguous CheckMemoryOverLaps self o
          = Some (Xlogy.Run k :: rest) /\
        Xlogy.run_output k = (Xlogy.var_contiguousSelf, Some (format_contiguous self))) /\
     (CheckMemoryOverLaps [self; o] [self] = false ->
      Xlogy.xlogy__Tensor check_match format_contiguous CheckMemoryOverLaps self o
        = None)).
Proof.
  split.
  - unfold Xlogy.xlogy__Scalar. rewrite Hmismatch. reflexivity.
  - intros o. unfold Xlogy.xlogy__Tensor. split; intros Hcheck; rewrite Hcheck.
    + rewrite Hmismatch. eexists _, _. split; reflexivity.
    + reflexivity.
Qed.

Lemma xlogy__Scalar_output_is_unbound_result_witness :
  let overlap_free := fun inputs outputs : list Z => bool_decide (inputs <> [5; 5]) in
  Xlogy.xlogy__Scalar (fun _ => false) (fun t => t + 1) 5 2 =
    [Xlogy.Run (Xlogy.mkKernelRun Xlogy.Xlogy_name
                  (Xlogy.var_contiguousSelf, Some 6)
                  (Xlogy.ScalarOperand 2)
                  (Xlogy.var_result, None));
     Xlogy.FreshView Xlogy.var_self (Xlogy.var_result, None)] /\
  (forall o,
     (overlap_free [5; o] [5] = true ->
      exists k rest,
        Xlogy.xlogy__Tensor (fun _ => false) (fun t => t + 1) overlap_free 5 o
          = Some (Xlogy.Run k :: rest) /\
        Xlogy.run_output k = (Xlogy.var_contiguousSelf, Some 6)) /\
     (overlap_free [5; o] [5] = false ->
      Xlogy.xlogy__Tensor (fun _ => false) (fun t => t + 1) overlap_free 5 o = None)).
Proof.
  intros overlap_free.
  apply (xlogy__Scalar_output_is_unbound_result
           (fun _ => false) (fun t => t + 1) overlap_free 5 2).
  reflexivity.
Defined.

(** ** The submission ring *)

Section QueueProperties.

Import Queue.

Context {Param : Type}.
Variable execFunc : Param -> Z.
Variable copyFunc : Param -> Param -> Param.

Lemma next_idx_mod (i : Z) :
  0 <= i < kQueueCapacity -> next_idx i = (i + 1) mod kQueueCapacity.
Proof.
  intros Hi. unfold next_idx, kQueueCapacity in *.
  rewrite (Z.mod_small (i + 1)) by lia.
  change (4096 - 1) with (Z.ones 12).
  rewrite Z.land_ones by lia. reflexivity.
Qed.

Lemma next_idx_succ (i : Z) : 0 <= i < kQueueCapacity - 1 -> next_idx i = i + 1.
Proof.
  intros Hi. rewrite next_idx_mod by lia.
  apply Z.mod_small. lia.
Qed.

Lemma next_idx_last : next_idx (kQueueCapacity - 1) = 0.
Proof. reflexivity. Qed.

Lemma next_idx_range (i : Z) :
  0 <= i < kQueueCapacity -> 0 <= next_idx i < kQueueCapacity.
Proof.
  intros Hi. rewrite next_idx_mod by lia.
  apply Z.mod_pos_bound. unfold kQueueCapacity. lia.
Qed.

Lemma pending_next (r w : Z) :
  0 <= r < kQueueCapacity -> 0 <= w < kQueueCapacity -> r <> w ->
  (w - next_idx r) mod kQueueCapacity = (w - r) mod kQueueCapacity - 1.
Proof.
  intros Hr Hw Hne. rewrite next_idx_mod by lia.
  unfold kQueueCapacity in *.
  destruct (Z.eq_dec r 4095) as [-> | Hr'].
  - change ((4095 + 1) mod 4096) with 0.
    rewrite Z.sub_0_r, (Z.mod_small w) by lia.
    replace (w - 4095) with (w + 1 + (-1) * 4096) by lia.
    rewrite Z.mod_add by lia. rewrite Z.mod_small by lia. lia.
  - rewrite (Z.mod_small (r + 1)) by lia.
    destruct (Z.lt_ge_cases r w) as [Hlt | Hge].
    + rewrite !Z.mod_small by lia. lia.
    + replace (w - (r + 1)) with (w - r - 1 + 4096 + (-1) * 4096) by lia.
      replace (w - r) with (w - r + 4096 + (-1) * 4096) by lia.
      rewrite !Z.mod_add by lia. rewrite !Z.mod_small by lia. lia.
Qed.

(** The drain loop releases the pending records in ring order, one call
    each, and stops with the read index on the write index. *)
Lemma drain_releases_pending (n : nat) :
  forall (fuel : nat) (q : Repository Param),
    0 <= read_idx q < kQueueCapacity ->
    0 <= write_idx q < kQueueCapacity ->
    pending q = Z.of_nat n ->
    (n <= fuel)%nat ->
    exists q',
      drain fuel q = Some q' /\
      calls q' = calls q ++ map CbRelease (ring_positions (read_idx q) n) /\
      read_idx q' = write_idx q /\
      write_idx q' = write_idx q /\
      efd_read q' = efd_read q /\
      efd_write q' = efd_write q /\
      efd_empty q' = efd_empty q.
Proof.
  induction n as [| n IH]; intros fuel q Hr Hw Hpend Hfuel.
  - assert (read_idx q = write_idx q) as Heq.
    { unfold pending, kQueueCapacity in *.
      destruct (Z.eq_dec (read_idx q) (write_idx q)) as [|Hne]; [assumption|].
      destruct (Z.lt_ge_cases (read_idx q) (write_idx q)).
      - rewrite Z.mod_small in Hpend by lia. lia.
      - replace (write_idx q - read_idx q)
          with (write_idx q - read_idx q + 4096 + (-1) * 4096) in Hpend by lia.
        rewrite Z.mod_add, Z.mod_small in Hpend by lia. lia. }
    exists q. destruct fuel; simpl; unfold IsEmptyQueue;
      rewrite Heq, Z.eqb_refl, app_nil_r; repeat split; auto.
  - assert (read_idx q <> write_idx q) as Hne.
    { intros Heq. unfold pending in Hpend. rewrite Heq, Z.sub_diag in Hpend.
      change (0 mod kQueueCapacity) with 0 in Hpend. lia. }
    destruct fuel as [| fuel]; [lia |].
    simpl drain. unfold IsEmptyQueue at 1.
    destruct (Z.eqb_spec (read_idx q) (write_idx q)) as [|_]; [contradiction |].
    set (q1 := set_read_idx (next_idx (read_idx q))
                 (record_call (CbRelease (read_idx q)) q)).
    destruct (IH fuel q1) as (q' & Hd & Hcalls & Hri & Hwi & H1 & H2 & H3).
    + simpl. apply next_idx_range. assumption.
    + simpl. assumption.
    + unfold pending in *. simpl. rewrite pending_next by assumption. lia.
    + lia.
    + exists q'. split; [exact Hd |].
      simpl in *. rewrite Hcalls, <- app_assoc. repeat split; auto.
Qed.

(** C5: when the execute callback returns non-zero for the record at the
    read index, [ReadQueue] invokes the execute callback that once, then
    the release callback on every record from the read index up to the
    write index and nothing else, leaves the ring empty, releases the
    resources of the queue (buffer and the three descriptors) and ends in
    the runtime error. *)
Theorem ReadQueue_failure_drains_ring (q : Repository Param) (record : Param)
    (Hread : 0 <= read_idx q < kQueueCapacity)
    (Hwrite : 0 <= write_idx q < kQueueCapacity)
    (Hnonempty : IsEmptyQueue q = false)
    (Hrecord : datas q !! Z.to_nat (read_idx q) = Some record)
    (Hfails : execFunc record <> 0) :
  exists q',
    ReadQueue execFunc q = (RuntimeError, q') /\
    calls q' =
      calls q ++ [CbExec (read_idx q)]
        ++ map CbRelease (ring_positions (read_idx q) (Z.to_nat (pending q)))
        ++ [CbDelete]
        ++ (if 0 <? efd_read q then [CloseFd (efd_read q)] else [])
        ++ (if 0 <? efd_write q then [CloseFd (efd_write q)] else [])
        ++ (if 0 <? efd_empty q then [CloseFd (efd_empty q)] else []) /\
    IsEmptyQueue q' = true /\
    read_idx q' = write_idx q /\
    (0 <? efd_read q') = false /\
    (0 <? efd_write q') = false /\
    (0 <? efd_empty q') = false.
Proof.
  unfold ReadQueue. rewrite Hnonempty, Hrecord.
  destruct (Z.eqb_spec (execFunc record) 0) as [|_]; [contradiction |].
  simpl negb. cbv iota.
  set (q1 := record_call (CbExec (read_idx q)) q).
  assert (0 <= pending q < kQueueCapacity) as Hp.
  { apply Z.mod_pos_bound. unfold kQueueCapacity. lia. }
  destruct (drain_releases_pending (Z.to_nat (pending q))
              (Z.to_nat kQueueCapacity) q1)
    as (q2 & Hd & Hcalls & Hri & Hwi & H1 & H2 & H3);
    [assumption | assumption | unfold pending in *; simpl; lia | lia |].
  rewrite Hd. eexists. split; [reflexivity |].
  simpl in Hcalls, Hri, Hwi, H1, H2, H3.
  unfold ReleaseResource, IsEmptyQueue.
  destruct (0 <? efd_read q) eqn:E1; destruct (0 <? efd_write q) eqn:E2;
    destruct (0 <? efd_empty q) eqn:E3;
    repeat (simpl;
            rewrite ?H1, ?H2, ?H3, ?E1, ?E2, ?E3, ?Hcalls, ?Hri, ?Hwi,
                    ?Z.eqb_refl, <- ?app_assoc);
    repeat split; auto.
Qed.

End QueueProperties.

Section RingCapacity.

Import Queue.

Context {Param : Type}.
Variable execFunc : Param -> Z.
Variable copyFunc : Param -> Param -> Param.

Lemma init_repo_view (blank : Param) (fd : Z) :
  producer_view 0 (init_repo blank fd).
Proof.
  unfold producer_view, init_repo. simpl.
  repeat split; reflexivity.
Qed.

Lemma WriteQueue_accepts (x : Param) (w : Z) (q : Repository Param) :
  producer_view w q -> 0 <= w < kQueueCapacity - 1 ->
  exists q',
    WriteQueue copyFunc x q = (true, q') /\
    producer_view (w + 1) q' /\
    read_working q' = read_working q /\
    write_working q' = write_working q /\
    efd_read_counter q' = efd_read_counter q.
Proof.
  intros (Hi & Hs & Hr & Hw & He & Hn & Hl) Hrange.
  unfold WriteQueue, IsFullQueue. rewrite Hw, Hr, next_idx_succ by assumption.
  destruct (Z.eqb_spec (w + 1) 0) as [|_]; [lia |].
  eexists. split; [reflexivity |].
  unfold producer_view.
  destruct (datas (record_call (CbCopy w) q) !! Z.to_nat w) eqn:E; simpl;
    rewrite ?length_insert, ?Hw, ?next_idx_succ by assumption; auto 10.
Qed.

Lemma Enqueue_accepts (x : Param) (w : Z) (q : Repository Param) :
  producer_view w q -> 0 <= w < kQueueCapacity - 1 ->
  exists q', Enqueue copyFunc x q = (EnqueueReturned, q') /\ producer_view (w + 1) q'.
Proof.
  intros Hv Hrange.
  assert (producer_view w (SetWriteWorking true q)) as Hv' by exact Hv.
  destruct (WriteQueue_accepts x w _ Hv' Hrange) as (q' & HW & Hv'' & _).
  destruct Hv as (Hi & Hs & _).
  unfold Enqueue. rewrite Hi, Hs. simpl. rewrite HW. simpl.
  eexists. split; [reflexivity |].
  destruct (read_working q'); exact Hv''.
Qed.

Lemma Enqueue_blocks (x : Param) (q : Repository Param) :
  producer_view (kQueueCapacity - 1) q ->
  IsFullQueue q = true /\
  Enqueue copyFunc x q = (EnqueueBlocked, SetWriteWorking false (SetWriteWorking true q)).
Proof.
  intros (Hi & Hs & Hr & Hw & He & Hn & Hl).
  assert (IsFullQueue q = true) as Hfull.
  { unfold IsFullQueue. rewrite Hw, Hr. reflexivity. }
  split; [exact Hfull |].
  unfold Enqueue. rewrite Hi, Hs. simpl.
  unfold WriteQueue.
  assert (IsFullQueue (SetWriteWorking true q) = true) as -> by exact Hfull.
  assert (IsFullQueue (SetWriteWorking false (SetWriteWorking true q)) = true)
    as -> by exact Hfull.
  unfold eventfd_read_write. simpl. rewrite He. reflexivity.
Qed.

Lemma ReadQueue_success (q : Repository Param) (record : Param) :
  IsEmptyQueue q = false ->
  datas q !! Z.to_nat (read_idx q) = Some record ->
  execFunc record = 0 ->
  ReadQueue execFunc q =
    (Returned true,
     set_read_idx (next_idx (read_idx q))
       (record_call (CbRelease (read_idx q)) (record_call (CbExec (read_idx q)) q))).
Proof.
  intros He Hr Hx. unfold ReadQueue. rewrite He, Hr, Hx. reflexivity.
Qed.

Lemma Enqueue_all_accepts (l : list Param) :
  forall (w : Z) (q : Repository Param),
    producer_view w q -> 0 <= w -> w + Z.of_nat (length l) <= kQueueCapacity - 1 ->
    exists q',
      Enqueue_all copyFunc l q = (replicate (length l) EnqueueReturned, q') /\
      producer_view (w + Z.of_nat (length l)) q'.
Proof.
  induction l as [| x l IH]; intros w q Hv Hw Hlen.
  - exists q. simpl. rewrite Z.add_0_r. auto.
  - simpl length in *.
    destruct (Enqueue_accepts x w q Hv ltac:(lia)) as (q1 & HE & Hv1).
    destruct (IH (w + 1) q1 Hv1 ltac:(lia) ltac:(lia)) as (q2 & HA & Hv2).
    exists q2. simpl. rewrite HE, HA. split; [reflexivity |].
    replace (w + Z.of_nat (S (length l))) with (w + 1 + Z.of_nat (length l)) by lia.
    exact Hv2.
Qed.

Lemma Enqueue_all_app (l1 l2 : list Param) :
  forall (q q1 : Repository Param),
    Enqueue_all copyFunc l1 q = (replicate (length l1) EnqueueReturned, q1) ->
    Enqueue_all copyFunc (l1 ++ l2) q =
      (replicate (length l1) EnqueueReturned ++ fst (Enqueue_all copyFunc l2 q1),
       snd (Enqueue_all copyFunc l2 q1)).
Proof.
  induction l1 as [| x l1 IH]; intros q q1 H.
  - simpl in *. inversion H. destruct (Enqueue_all copyFunc l2 q1). reflexivity.
  - simpl in *.
    destruct (Enqueue copyFunc x q) as [[] q'] eqn:E; try discriminate.
    destruct (Enqueue_all copyFunc l1 q') as [rs q''] eqn:E1.
    inversion H; subst.
    rewrite (IH q' q1); [reflexivity |].
    rewrite E1. reflexivity.
Qed.

(** C4, amended: with the consumer at rest the first 4095 calls of
    [Enqueue] return and the 4096th is suspended on [efd_write]; the
    full-test of the ring is true after exactly 4095 records.  When the
    consumer then dequeues one record (its execution succeeding), it
    signals [efd_write] and the suspended call goes through. *)
Theorem ring_accepts_4095_records (blank : Param) (fd : Z) (l : list Param) (x : Param)
    (Hlen : length l = 4095%nat)
    (Hexec : forall p, execFunc p = 0) :
  fst (Enqueue_all copyFunc (l ++ [x]) (init_repo blank fd)) =
    replicate 4095 EnqueueReturned ++ [EnqueueBlocked] /\
  (forall k, (k <= 4095)%nat ->
     IsFullQueue (snd (Enqueue_all copyFunc (take k l) (init_repo blank fd)))
     = bool_decide (k = 4095%nat)) /\
  (let blocked := snd (Enqueue_all copyFunc (l ++ [x]) (init_repo blank fd)) in
   exists q,
     Dequeue execFunc blocked = (DequeueReturned, q) /\
     fst (Enqueue_wake copyFunc x q) = EnqueueReturned).
Proof.
  destruct (Enqueue_all_accepts l 0 (init_repo blank fd) (init_repo_view blank fd))
    as (q1 & HA & Hv1); [lia | rewrite Hlen; unfold kQueueCapacity; lia |].
  rewrite Hlen in HA, Hv1. change (0 + Z.of_nat 4095) with (kQueueCapacity - 1) in Hv1.
  destruct (Enqueue_blocks x q1 Hv1) as (Hfull & HB).
  assert (Enqueue_all copyFunc (l ++ [x]) (init_repo blank fd) =
          (replicate 4095 EnqueueReturned ++ [EnqueueBlocked],
           SetWriteWorking false (SetWriteWorking true q1))) as Hall.
  { rewrite (Enqueue_all_app l [x] _ q1) by (rewrite Hlen; exact HA).
    rewrite Hlen. simpl Enqueue_all. rewrite HB. reflexivity. }
  split; [rewrite Hall; reflexivity | split].
  - intros k Hk.
    destruct (Enqueue_all_accepts (take k l) 0 (init_repo blank fd)
                (init_repo_view blank fd))
      as (q2 & HA2 & Hv2); [lia | rewrite length_take; unfold kQueueCapacity; lia |].
    rewrite HA2. simpl snd.
    rewrite length_take, Hlen in Hv2.
    destruct Hv2 as (_ & _ & Hr & Hw & _).
    unfold IsFullQueue. rewrite Hw, Hr.
    case_bool_decide as Hk'.
    + subst k. reflexivity.
    + rewrite next_idx_succ by (unfold kQueueCapacity; lia).
      apply Z.eqb_neq. lia.
  - rewrite Hall. simpl snd.
    destruct Hv1 as (Hi & Hs & Hr & Hw & He & Hn & Hl).
    destruct (datas q1 !! Z.to_nat (read_idx q1)) as [record |] eqn:Hrec.
    2:{ apply lookup_ge_None in Hrec. rewrite Hr, Hl in Hrec.
        unfold kQueueCapacity in Hrec. lia. }
    eexists. split.
    + unfold Dequeue. simpl. rewrite Hi. simpl. rewrite Hs.
      rewrite (ReadQueue_success _ record);
        [| unfold IsEmptyQueue; simpl; rewrite Hr, Hw; reflexivity
         | exact Hrec | apply Hexec].
      simpl. rewrite Hn. simpl. reflexivity.
    + unfold Enqueue_wake, eventfd_read_write. simpl. rewrite He. simpl.
      unfold WriteQueue, IsFullQueue. simpl. rewrite Hw, Hr. simpl.
      reflexivity.
Qed.

End RingCapacity.

(** C4 fails as stated: already the 4096th call of [Enqueue] is suspended,
    the full-test of the ring being true after 4095 records. *)
Lemma ring_full_after_4095_records :
  let copy := fun (_ src : Z) => src in
  Queue.IsFullQueue
    (snd (Queue.Enqueue_all copy (replicate 4095 0) (Queue.init_repo 0 3))) = true /\
  fst (Queue.Enqueue_all copy (replicate 4096 0) (Queue.init_repo 0 3)) !! 4095%nat
    = Some Queue.EnqueueBlocked.
Proof. vm_compute. split; reflexivity. Qed.

Lemma ring_accepts_4095_records_witness :
  let copy := fun (_ src : Z) => src in
  let exec := fun _ : Z => 0 in
  fst (Queue.Enqueue_all copy (replicate 4095 1 ++ [2]) (Queue.init_repo 0 3)) =
    replicate 4095 Queue.EnqueueReturned ++ [Queue.EnqueueBlocked] /\
  (forall k, (k <= 4095)%nat ->
     Queue.IsFullQueue
       (snd (Queue.Enqueue_all copy (take k (replicate 4095 1)) (Queue.init_repo 0 3)))
     = bool_decide (k = 4095%nat)) /\
  (let blocked := snd (Queue.Enqueue_all copy (replicate 4095 1 ++ [2]) (Queue.init_repo 0 3)) in
   exists q,
     Queue.Dequeue exec blocked = (Queue.DequeueReturned, q) /\
     fst (Queue.Enqueue_wake copy 2 q) = Queue.EnqueueReturned).
Proof.
  intros copy exec.
  apply (ring_accepts_4095_records exec copy 0 3 (replicate 4095 1) 2).
  - apply length_replicate.
  - reflexivity.
Defined.

Lemma ReadQueue_failure_drains_ring_witness :
  let exec := fun tag : Z => tag in
  let q := snd (Queue.Enqueue_all (fun _ src => src) [7; 8; 9] (Queue.init_repo 0 3)) in
  exists q',
    Queue.ReadQueue exec q = (Queue.RuntimeError, q') /\
    Queue.calls q' =
      Queue.calls q ++ [Queue.CbExec (Queue.read_idx q)]
        ++ map Queue.CbRelease
             (Queue.ring_positions (Queue.read_idx q) (Z.to_nat (Queue.pending q)))
        ++ [Queue.CbDelete]
        ++ (if 0 <? Queue.efd_read q then [Queue.CloseFd (Queue.efd_read q)] else [])
        ++ (if 0 <? Queue.efd_write q then [Queue.CloseFd (Queue.efd_write q)] else [])
        ++ (if 0 <? Queue.efd_empty q then [Queue.CloseFd (Queue.efd_empty q)] else []) /\
    Queue.IsEmptyQueue q' = true /\
    Queue.read_idx q' = Queue.write_idx q /\
    (0 <? Queue.efd_read q') = false /\
    (0 <? Queue.efd_write q') = false /\
    (0 <? Queue.efd_empty q') = false.
Proof.
  intros exec q.
  apply (ReadQueue_failure_drains_ring exec q 7).
  - vm_compute. split; [discriminate | reflexivity].
  - vm_compute. split; [discriminate | reflexivity].
  - reflexivity.
  - reflexivity.
  - discriminate.
Defined.

(** ** Reuse of cached blocks *)

Section FreeBlockSearch.

Context {D : Type}.

Lemma bind_Ok {A B} (m : M A) (k : A -> M B) (st st' : State D) (a : A) :
  m st = (Ok a, st') -> bind m k st = k a st'.
Proof. intros H. unfold bind. rewrite H. reflexivity. Qed.

Lemma bind_Throw {A B} (m : M A) (k : A -> M B) (st st' : State D) (e : Error) :
  m st = (Throw e, st') -> bind m k st = (Throw e, st').
Proof. intros H. unfold bind. rewrite H. reflexivity. Qed.

Lemma same_but_gc_count_refl (h : Heap) : same_but_gc_count h h.
Proof.
  intros a. destruct (h !! a) as [x |]; [| exact I].
  exists (b_gc_count x). destruct x; reflexivity.
Qed.

Lemma same_but_gc_count_insert (h h' : Heap) (a : Z) (x : Block) (n : Z) :
  same_but_gc_count h h' -> h' !! a = Some x ->
  same_but_gc_count h (<[a := set_b_gc_count x n]> h').
Proof.
  intros Hs Ha c. specialize (Hs c).
  destruct (decide (a = c)) as [-> | Hne].
  - rewrite lookup_insert_eq. rewrite Ha in Hs.
    destruct (h !! c) as [y |]; [| contradiction].
    destruct Hs as [m ->]. exists n. destruct y; reflexivity.
  - rewrite lookup_insert_ne by assumption. exact Hs.
Qed.

Lemma same_but_gc_count_lt_key (h h' : Heap) (key : Block) (a : Z) :
  same_but_gc_count h h' -> block_lt_key h' a key = block_lt_key h a key.
Proof.
  intros Hs. specialize (Hs a). unfold block_lt_key.
  destruct (h !! a) as [x |], (h' !! a) as [y |]; try contradiction; [| reflexivity].
  destruct Hs as [n ->]. destruct x; reflexivity.
Qed.

Lemma same_but_gc_count_lower_bound (h h' : Heap) (key : Block) (l : list Z) :
  same_but_gc_count h h' -> lower_bound h' key l = lower_bound h key l.
Proof.
  intros Hs. induction l as [| e l IH]; [reflexivity |].
  simpl. rewrite (same_but_gc_count_lt_key h h') by assumption.
  rewrite IH. reflexivity.
Qed.

(** The loop that ages the blocks of the pool touches nothing but their
    [gc_count]. *)
Lemma age_blocks_run (l : list Z) :
  forall (st : State D) (h0 : Heap),
    same_but_gc_count h0 (heap (world st)) ->
    (forall e, e ∈ l -> is_Some (h0 !! e)) ->
    exists h',
      for_each l (fun b =>
        update_block b (fun blk => set_b_gc_count blk (b_gc_count blk + 1))) st
      = (Ok tt, set_heap h' st) /\
      same_but_gc_count h0 h'.
Proof.
  induction l as [| e l IH]; intros st h0 Hs Hin.
  - exists (heap (world st)). split; [| exact Hs].
    simpl. unfold ret. destruct st as [t [? ? ? ? ? ? ?]]; reflexivity.
  - destruct (Hin e ltac:(left)) as [x0 Hx0].
    pose proof (Hs e) as He. rewrite Hx0 in He.
    destruct (heap (world st) !! e) as [x |] eqn:Hx; [| contradiction].
    set (st1 := set_heap (<[e := set_b_gc_count x (b_gc_count x + 1)]> (heap (world st))) st).
    destruct (IH st1 h0) as (h' & Hrun & Hs').
    + apply same_but_gc_count_insert; assumption.
    + intros e' He'. apply Hin. right. exact He'.
    + exists h'. split; [| exact Hs'].
      simpl for_each.
      erewrite bind_Ok; [exact Hrun |].
      unfold update_block. erewrite bind_Ok; [| unfold load; rewrite Hx; reflexivity].
      reflexivity.
Qed.

(** The comparator on a search key [(stream, size, nullptr)]. *)
Lemma lower_bound_finds (h : Heap) (key : Block) (l : list Z) (b : Z) :
  pool_sorted h l -> b ∈ l -> block_lt_key h b key = false ->
  exists it,
    l !! lower_bound h key l = Some it /\ it ∈ l /\
    block_lt_key h it key = false /\
    (it = b \/ block_lt h it b = true).
Proof.
  intros Hsorted. induction Hsorted as [| e l Hs IH Hall]; intros Hin Hge.
  - inversion Hin.
  - simpl. destruct (block_lt_key h e key) eqn:He.
    + apply elem_of_cons in Hin as [-> | Hin]; [congruence |].
      destruct (IH Hin Hge) as (it & Hl & Hit & Hk & Hle).
      exists it. simpl. repeat split; auto. right. exact Hit.
    + exists e. repeat split; auto; [left |].
      apply elem_of_cons in Hin as [-> | Hin]; [left; reflexivity | right].
      rewrite Forall_forall in Hall. apply Hall. exact Hin.
Qed.

Lemma candidate_between (key cand blk : Block) :
  b_ptr key = 0 -> 0 <= b_ptr cand ->
  BlockComparator cand key = false ->
  (cand = blk \/ BlockComparator cand blk = true) ->
  b_stream blk = b_stream key -> b_size key <= b_size blk ->
  b_stream cand = b_stream key /\ b_size key <= b_size cand <= b_size blk.
Proof.
  intros Hk Hp Hge Hle Hs Hsz.
  destruct Hle as [-> | Hlt]; [lia |].
  unfold BlockComparator in *.
  repeat match goal with
         | H : context [?a =? ?b] |- _ => destruct (Z.eqb_spec a b); simpl in H
         | H : (?a <? ?b) = true |- _ => apply Z.ltb_lt in H
         | H : (?a <? ?b) = false |- _ => apply Z.ltb_ge in H
         end; lia.
Qed.

Lemma age_blocks_when (cond : bool) (l : list Z) (st : State D) :
  (forall e, e ∈ l -> is_Some (heap (world st) !! e)) ->
  exists h',
    when cond
      (for_each l (fun b =>
         update_block b (fun blk => set_b_gc_count blk (b_gc_count blk + 1)))) st
    = (Ok tt, set_heap h' st) /\
    same_but_gc_count (heap (world st)) h'.
Proof.
  intros Hin. destruct cond; simpl.
  - apply age_blocks_run; [apply same_but_gc_count_refl | exact Hin].
  - exists (heap (world st)). split; [| apply same_but_gc_count_refl].
    unfold ret. destruct st as [t [? ? ? ? ? ? ?]]; reflexivity.
Qed.

(** A pool block of the stream within 20 MiB of an oversize request makes
    [get_free_block] take a block of that kind. *)
Lemma get_free_block_takes_block_within_20MiB
    (st : State D) (device stream Q : Z) (stat_types : StatTypes)
    (b : Z) (blk : Block) :
  let max_split := m_max_split_size (config (world st)) in
  let p := mkAllocParams (search_key_Block device stream Q) (get_pool Q)
             (get_allocation_size Q) 0 stat_types ACL_ERROR_NONE in
  let l := large_blocks (this st) in
  kLargeBuffer < max_split ->
  max_split <= Q ->
  Q + kLargeBuffer < 2 ^ 64 ->
  pool_sorted (heap (world st)) l ->
  pool_blocks_of (heap (world st)) LargePool l ->
  b ∈ l ->
  heap (world st) !! b = Some blk ->
  b_stream blk = stream ->
  Q <= b_size blk < Q + kLargeBuffer ->
  exists it cand st',
    get_free_block p st = (Ok (true, set_p_block p it), st') /\
    it ∈ l /\
    heap (world st) !! it = Some cand /\
    b_stream cand = stream /\
    Q <= b_size cand < Q + kLargeBuffer /\
    large_blocks (this st') = set_erase_it it l /\
    should_split it Q st' = (Ok false, st').
Proof.
  intros max_split p l Hcfg HQ Hwrap Hsorted Hwf Hb Hblk Hstream Hsize.
  assert (get_pool Q = LargePool) as Hpool.
  { unfold get_pool. destruct (Z.leb_spec Q kSmallSize); [| reflexivity].
    unfold kLargeBuffer, kSmallSize in *. lia. }
  destruct (age_blocks_when
              (set_fraction (this st)
               && Qpositive (m_garbage_collection_threshold (config (world st))))
              l st) as (h' & Hage & Hsame).
  { intros e He. destruct (Hwf e He) as (x & Hx & _). rewrite Hx. eauto. }
  set (key := search_key_Block device stream Q).
  assert (block_lt_key (heap (world st)) b key = false) as Hge.
  { unfold block_lt_key. rewrite Hblk. unfold BlockComparator, key. simpl.
    destruct (Hwf b Hb) as (x & Hx & _ & Hptr). rewrite Hblk in Hx. inversion Hx; subst x.
    rewrite Hstream, Z.eqb_refl. simpl.
    destruct (Z.eqb_spec (b_size blk) Q); simpl; [apply Z.ltb_ge | apply Z.ltb_ge]; lia. }
  destruct (lower_bound_finds _ key l b Hsorted Hb Hge) as (it & Hlb & Hit & Hitge & Hle).
  destruct (Hwf it Hit) as (cand & Hcand & Hcpool & Hcptr).
  assert (b_stream cand = stream /\ Q <= b_size cand <= b_size blk) as [Hcs Hcsz].
  { apply (candidate_between key cand blk).
    - reflexivity.
    - exact Hcptr.
    - unfold block_lt_key in Hitge. rewrite Hcand in Hitge. exact Hitge.
    - destruct Hle as [-> | Hlt].
      + left. congruence.
      + right. unfold block_lt in Hlt. rewrite Hcand, Hblk in Hlt. exact Hlt.
    - exact Hstream.
    - simpl. lia. }
  pose proof (Hsame it) as Hit'. rewrite Hcand in Hit'.
  destruct (h' !! it) as [cand' |] eqn:Hcand'; [| contradiction].
  destruct Hit' as [n ->].
  eexists it, cand, _. split; [| repeat split; try assumption; try lia].
  - unfold get_free_block. subst p. cbn [p_pool p_search_key].
    rewrite Hpool. cbn [pool_blocks].
    unfold bind at 1. cbn [gets]. unfold bind at 1. cbn [gets].
    unfold bind at 1. unfold CachingAllocatorConfig_garbage_collection_threshold.
    cbn [gets]. fold l. erewrite bind_Ok; [| exact Hage].
    unfold bind at 1. cbn [gets set_heap world heap].
    unfold bind at 1. unfold CachingAllocatorConfig_max_split_size.
    cbn [gets set_heap world config].
    fold key.
    rewrite (same_but_gc_count_lower_bound (heap (world st)) h') by exact Hsame.
    rewrite Hlb.
    unfold bind at 1, load. cbn [set_heap world heap]. rewrite Hcand'.
    assert (accepts_candidate (m_max_split_size (config (world st)))
              (p_stream (mkAllocParams key LargePool (get_allocation_size Q) 0
                           stat_types ACL_ERROR_NONE))
              (p_size (mkAllocParams key LargePool (get_allocation_size Q) 0
                         stat_types ACL_ERROR_NONE))
              (set_b_gc_count cand n) = true) as ->.
    { unfold accepts_candidate, p_stream, p_size, key. simpl.
      rewrite Hcs, Z.eqb_refl. simpl.
      fold max_split.
      destruct (Z.ltb_spec Q max_split); [lia |]. simpl.
      destruct (Z.leb_spec max_split Q); [| lia]. simpl.
      rewrite wrap64_small by (unfold kLargeBuffer in *; lia).
      destruct (Z.leb_spec (Q + kLargeBuffer) (b_size cand)); [lia | reflexivity]. }
    unfold update_block, bind, load, store, modify, pool_erase_it, ret.
    cbn. rewrite Hcand'. cbn. reflexivity.
  - cbn. reflexivity.
  - unfold should_split, bind, load, CachingAllocatorConfig_max_split_size, gets, ret.
    cbn. rewrite lookup_insert_eq. cbn. rewrite Hcpool. cbn.
    unfold should_split_on. fold max_split.
    destruct (Z.ltb_spec Q max_split); [lia | reflexivity].
Qed.


Lemma lower_bound_not_less (h : Heap) (key : Block) (l : list Z) (it : Z) :
  l !! lower_bound h key l = Some it ->
  it ∈ l /\ block_lt_key h it key = false.
Proof.
  induction l as [| e l IH]; intros Hit; [discriminate |].
  cbn [lower_bound] in Hit.
  destruct (block_lt_key h e key) eqn:He.
  - destruct (IH Hit) as [Hin Hlt]. split; [apply list_elem_of_further; exact Hin | exact Hlt].
  - injection Hit as <-. split; [apply list_elem_of_here | exact He].
Qed.

(** C2, amended: for a request of rounded size [Q >= max_split_size] on a
    well-formed large pool, [get_free_block] draws the line at 20 MiB
    above the request, and the line itself is outside.  When the pool
    holds a block of the request's stream whose size lies in the
    half-open interval [Q, Q + 20 MiB), [get_free_block] takes a block of
    that stream with a size in that interval out of the pool, and
    [should_split] then answers no for it.  When every block of the
    stream that is large enough is 20 MiB or more above the request, a
    block of exactly [Q + 20 MiB] included, [get_free_block] answers no
    and takes nothing out of the pool; so it does when the smallest block
    of the stream that is large enough has [Q + 20 MiB] bytes or more. *)
Theorem get_free_block_accepts_within_20MiB
    (st : State D) (device stream Q : Z) (stat_types : StatTypes) :
  let max_split := m_max_split_size (config (world st)) in
  let p := mkAllocParams (search_key_Block device stream Q) (get_pool Q)
             (get_allocation_size Q) 0 stat_types ACL_ERROR_NONE in
  let l := large_blocks (this st) in
  kLargeBuffer < max_split ->
  max_split <= Q ->
  Q + kLargeBuffer < 2 ^ 64 ->
  pool_sorted (heap (world st)) l ->
  pool_blocks_of (heap (world st)) LargePool l ->
  (forall b blk,
     b ∈ l -> heap (world st) !! b = Some blk -> b_stream blk = stream ->
     Q <= b_size blk < Q + kLargeBuffer ->
     exists it cand st',
       get_free_block p st = (Ok (true, set_p_block p it), st') /\
       it ∈ l /\
       heap (world st) !! it = Some cand /\
       b_stream cand = stream /\
       Q <= b_size cand < Q + kLargeBuffer /\
       large_blocks (this st') = set_erase_it it l /\
       should_split it Q st' = (Ok false, st')) /\
  ((forall b blk,
      b ∈ l -> heap (world st) !! b = Some blk -> b_stream blk = stream ->
      Q <= b_size blk -> Q + kLargeBuffer <= b_size blk) ->
   exists st',
     get_free_block p st = (Ok (false, p), st') /\
     large_blocks (this st') = l /\
     same_but_gc_count (heap (world st)) (heap (world st'))) /\
  (forall b blk,
     b ∈ l -> heap (world st) !! b = Some blk -> b_stream blk = stream ->
     Q + kLargeBuffer <= b_size blk ->
     (forall b' blk',
        b' ∈ l -> heap (world st) !! b' = Some blk' -> b_stream blk' = stream ->
        Q <= b_size blk' -> b_size blk <= b_size blk') ->
     exists st',
       get_free_block p st = (Ok (false, p), st') /\
       large_blocks (this st') = l /\
       same_but_gc_count (heap (world st)) (heap (world st'))).
Proof.
  intros max_split p l Hcfg HQ Hwrap Hsorted Hwf.
  assert (Hreject :
            (forall b blk,
               b ∈ l -> heap (world st) !! b = Some blk -> b_stream blk = stream ->
               Q <= b_size blk -> Q + kLargeBuffer <= b_size blk) ->
            exists st',
              get_free_block p st = (Ok (false, p), st') /\
              large_blocks (this st') = l /\
              same_but_gc_count (heap (world st)) (heap (world st'))).
  2: { split; [| split; [exact Hreject |]].
       - intros b blk Hb Hblk Hstream Hsize.
         exact (get_free_block_takes_block_within_20MiB st device stream Q stat_types b blk
                  Hcfg HQ Hwrap Hsorted Hwf Hb Hblk Hstream Hsize).
       - intros b blk Hb Hblk Hstream Hfar Hleast. apply Hreject.
         intros b' blk' Hb' Hblk' Hstream' HQ'.
         pose proof (Hleast b' blk' Hb' Hblk' Hstream' HQ'). lia. }
  - intros Hnone.
    assert (get_pool Q = LargePool) as Hpool.
    { unfold get_pool. destruct (Z.leb_spec Q kSmallSize); [| reflexivity].
      unfold kLargeBuffer, kSmallSize in *. lia. }
    destruct (age_blocks_when
                (set_fraction (this st)
                 && Qpositive (m_garbage_collection_threshold (config (world st))))
                l st) as (h' & Hage & Hsame).
    { intros e He. destruct (Hwf e He) as (x & Hx & _). rewrite Hx. eauto. }
    set (key := search_key_Block device stream Q).
    exists (set_heap h' st).
    split; [| split; [reflexivity | exact Hsame]].
    unfold get_free_block. subst p. cbn [p_pool p_search_key].
    rewrite Hpool. cbn [pool_blocks].
    unfold bind at 1. cbn [gets]. unfold bind at 1. cbn [gets].
    unfold bind at 1. unfold CachingAllocatorConfig_garbage_collection_threshold.
    cbn [gets]. fold l. erewrite bind_Ok; [| exact Hage].
    unfold bind at 1. cbn [gets set_heap world heap].
    unfold bind at 1. unfold CachingAllocatorConfig_max_split_size.
    cbn [gets set_heap world config].
    fold key.
    rewrite (same_but_gc_count_lower_bound (heap (world st)) h') by exact Hsame.
    destruct (l !! lower_bound (heap (world st)) key l) as [it |] eqn:Hlb;
      [| reflexivity].
    destruct (lower_bound_not_less _ _ _ _ Hlb) as [Hit Hge].
    destruct (Hwf it Hit) as (cand & Hcand & Hcpool & Hcptr).
    pose proof (Hsame it) as Hit'. rewrite Hcand in Hit'.
    destruct (h' !! it) as [cand' |] eqn:Hcand'; [| contradiction].
    destruct Hit' as [n ->].
    unfold bind at 1, load. cbn [set_heap world heap]. rewrite Hcand'.
    assert (accepts_candidate (m_max_split_size (config (world st)))
              (p_stream (mkAllocParams key LargePool (get_allocation_size Q) 0
                           stat_types ACL_ERROR_NONE))
              (p_size (mkAllocParams key LargePool (get_allocation_size Q) 0
                         stat_types ACL_ERROR_NONE))
              (set_b_gc_count cand n) = false) as ->; [| reflexivity].
    unfold accepts_candidate, p_stream, p_size, key. simpl.
    destruct (Z.eqb_spec (b_stream cand) stream) as [Hcs | Hcs]; [| reflexivity].
    simpl. fold max_split.
    destruct (Z.ltb_spec Q max_split); [lia |]. simpl.
    destruct (Z.leb_spec max_split Q); [| lia]. simpl.
    rewrite wrap64_small by (unfold kLargeBuffer in *; lia).
    assert (HQc : Q <= b_size cand).
    { unfold block_lt_key in Hge. rewrite Hcand in Hge.
      unfold BlockComparator, key in Hge. simpl in Hge.
      rewrite Hcs, Z.eqb_refl in Hge. simpl in Hge.
      destruct (Z.eqb_spec (b_size cand) Q); simpl in Hge; [lia |].
      apply Z.ltb_ge in Hge. exact Hge. }
    pose proof (Hnone it cand Hit Hcand Hcs HQc) as Hfar.
    destruct (Z.leb_spec (Q + kLargeBuffer) (b_size cand)); [reflexivity | lia].
Qed.

End FreeBlockSearch.

(** C2 fails as stated: with [max_split_size_mb:21], the pool holding one
    block of 42 MiB on stream 7, a request of rounded size [Q = 22 MiB] on
    that stream finds the block exactly 20 MiB larger than [Q], and
    [get_free_block] turns it down. *)
Lemma get_free_block_rejects_block_20MiB_larger :
  let st := one_cached_block (41 * MiB - 32) in
  let Q := round_size (22 * MiB - 32) in
  let p := malloc_params 0 7 Q stat_types_false in
  m_max_split_size (config (world st)) <= Q /\
  (exists b blk, large_blocks (this st) = [b] /\
                 heap (world st) !! b = Some blk /\
                 b_stream blk = 7 /\ b_size blk = Q + 20 * MiB) /\
  fst (get_free_block p st) = Ok (false, p).
Proof.
  split; [vm_compute; discriminate |]. split.
  - exists 1. eexists. split; [reflexivity |].
    split; [vm_compute; reflexivity |]. split; reflexivity.
  - vm_compute. reflexivity.
Qed.

Lemma get_free_block_accepts_within_20MiB_witness :
  let Q := round_size (22 * MiB - 32) in
  let p := mkAllocParams (search_key_Block 0 7 Q) (get_pool Q)
             (get_allocation_size Q) 0 stat_types_false ACL_ERROR_NONE in
  (let st := one_cached_block (30 * MiB - 32) in
   let l := large_blocks (this st) in
   exists it cand st',
     get_free_block p st = (Ok (true, set_p_block p it), st') /\
     it ∈ l /\
     heap (world st) !! it = Some cand /\
     b_stream cand = 7 /\
     Q <= b_size cand < Q + kLargeBuffer /\
     large_blocks (this st') = set_erase_it it l /\
     should_split it Q st' = (Ok false, st')) /\
  (let st := one_cached_block (41 * MiB - 32) in
   (exists blk, large_blocks (this st) = [1] /\
                heap (world st) !! 1 = Some blk /\
                b_stream blk = 7 /\ b_size blk = Q + kLargeBuffer) /\
   exists st',
     get_free_block p st = (Ok (false, p), st') /\
     large_blocks (this st') = large_blocks (this st) /\
     same_but_gc_count (heap (world st)) (heap (world st'))).
Proof.
  intros Q p.
  assert (Hshape : forall n blk,
            large_blocks (this (one_cached_block n)) = [1] ->
            heap (world (one_cached_block n)) !! 1 = Some blk ->
            b_pool blk = LargePool -> 0 <= b_ptr blk ->
            pool_sorted (heap (world (one_cached_block n)))
              (large_blocks (this (one_cached_block n))) /\
            pool_blocks_of (heap (world (one_cached_block n))) LargePool
              (large_blocks (this (one_cached_block n)))).
  { intros n blk Hl Hblk Hpool Hptr. rewrite Hl. split.
    - repeat constructor.
    - intros e He. apply list_elem_of_singleton in He as ->.
      exists blk. split; [exact Hblk | split; assumption]. }
  split.
  - intros st l.
    destruct (Hshape (30 * MiB - 32)
                (mkBlock 0 7 [] (30 * MiB) LargePool 4096 false 0 0 0 0))
      as [Hsorted Hwf];
      [reflexivity | vm_compute; reflexivity | reflexivity | simpl; lia |].
    apply (proj1 (get_free_block_accepts_within_20MiB st 0 7 Q stat_types_false
                    ltac:(reflexivity) ltac:(vm_compute; discriminate)
                    ltac:(reflexivity) Hsorted Hwf)
             1 (mkBlock 0 7 [] (30 * MiB) LargePool 4096 false 0 0 0 0)).
    + change (large_blocks (this st)) with [1]. apply list_elem_of_singleton. reflexivity.
    + vm_compute. reflexivity.
    + reflexivity.
    + vm_compute. split; [discriminate | reflexivity].
  - intros st.
    assert (Hblk : heap (world st) !! 1
                   = Some (mkBlock 0 7 [] (42 * MiB) LargePool 4096 false 0 0 0 0))
      by (vm_compute; reflexivity).
    split.
    + eexists. split; [reflexivity |]. split; [exact Hblk |]. split; reflexivity.
    + destruct (Hshape (41 * MiB - 32)
                  (mkBlock 0 7 [] (42 * MiB) LargePool 4096 false 0 0 0 0))
        as [Hsorted Hwf];
        [reflexivity | exact Hblk | reflexivity | simpl; lia |].
      apply (proj2 (proj2 (get_free_block_accepts_within_20MiB st 0 7 Q stat_types_false
                             ltac:(reflexivity) ltac:(vm_compute; discriminate)
                             ltac:(reflexivity) Hsorted Hwf))
               1 (mkBlock 0 7 [] (42 * MiB) LargePool 4096 false 0 0 0 0)).
      * change (large_blocks (this st)) with [1]. apply list_elem_of_singleton. reflexivity.
      * exact Hblk.
      * reflexivity.
      * vm_compute. discriminate.
      * intros b' blk' Hb' Hlook _ _.
        change (large_blocks (this st)) with [1] in Hb'.
        apply list_elem_of_singleton in Hb'. subst b'.
        rewrite Hblk in Hlook. injection Hlook as <-. reflexivity.
Defined.

(** ** Splitting *)

(** What does hold: a block [get_free_block] takes from the pool for a
    request is not split when its size is at or above [max_split_size],
    since then the request is, too. *)
Lemma cached_oversize_block_is_not_split (max_split stream size : Z) (cand : Block) :
  accepts_candidate max_split stream size cand = true ->
  max_split <= b_size cand ->
  should_split_on max_split false (b_size cand) size = false.
Proof.
  unfold accepts_candidate, should_split_on. intros Hacc Hover.
  destruct (negb (b_stream cand =? stream)); [discriminate |].
  destruct (Z.ltb_spec size max_split) as [Hlt |]; [| reflexivity].
  destruct (Z.leb_spec max_split (b_size cand)); [discriminate | lia].
Qed.

(** C3, at the failing input: with [max_split_size_mb:21] a request of
    20.5 MiB finds no cached block, the driver hands out a segment of
    22 MiB, which is not below [max_split_size], and [malloc] splits it
    into the 20.5 MiB handed out and a cached remainder of 1.5 MiB. *)
Theorem malloc_splits_oversize_segment (garbage : StatTypes) :
  let st0 := init_state config_21MiB (sim_driver (2 ^ 30)) in
  let size := round_size (21495808 - 32) in
  let acquired := malloc_acquire sim_ops garbage 0 size 7 (get_pool size)
                    (get_allocation_size size) st0 in
  let result := malloc_traced sim_ops garbage 0 (21495808 - 32) 7 st0 in
  parseMaxSplitSize_value 21 = Some (m_max_split_size config_21MiB) /\
  (exists params segment,
     fst acquired = Ok params /\
     heap (world (snd acquired)) !! p_block params = Some segment /\
     b_size segment = 22 * MiB /\
     m_max_split_size config_21MiB <= b_size segment) /\
  (exists block, fst result = Ok (block, true) /\
     block_has (snd result) block 21495808 LargePool /\
     exists remaining,
       large_blocks (this (snd result)) = [remaining] /\
       block_has (snd result) remaining 1572864 LargePool).
Proof.
  split; [reflexivity |]. split.
  - eexists _, _. split; [vm_compute; reflexivity |].
    split; [vm_compute; reflexivity |].
    split; [reflexivity | vm_compute; discriminate].
  - exists 2. split; [vm_compute; reflexivity |]. split.
    + eexists. split; [vm_compute; reflexivity |]. split; reflexivity.
    + exists 1. split; [vm_compute; reflexivity |].
      eexists. split; [vm_compute; reflexivity |]. split; reflexivity.
Qed.

(** ** Fragmentation garbage collection *)

(** C1, at the failing input: with a memory fraction set, the threshold
    at one half and 300 MiB cached in one unsplit block of the large pool,
    [garbage_collect_cached_blocks] synchronises the device before it
    frees the block; so does the [malloc] that triggers it. *)
Theorem garbage_collect_synchronises_device (garbage : StatTypes) :
  let collected := garbage_collect_cached_blocks sim_ops garbage gc_ready in
  let allocated := malloc sim_ops garbage 0 100 8 gc_ready in
  set_fraction (this gc_ready) = true /\
  large_blocks (this gc_ready) = [1] /\
  fst collected = Ok tt /\
  trace (world (snd collected)) =
    trace (world gc_ready) ++ [CallSynchronizeDevice true; CallFree 4096] /\
  existsb is_synchronize (trace (world gc_ready)) = false /\
  existsb is_synchronize (trace (world (snd collected))) = true /\
  trace (world (snd allocated)) =
    trace (world gc_ready)
      ++ [CallSynchronizeDevice true; CallFree 4096; CallMalloc (2 * MiB)].
Proof.
  repeat split; vm_compute; reflexivity.
Qed.

(** ** Pointers the allocator did not issue *)

Section InvalidPointers.

Context {D : Type} (ops : DriverOps D).

(** C6, amended: for a pointer [p] that is not in [allocated_blocks],
    [get_base_allocation] raises "invalid device pointer"; so do
    [raw_delete] and [erase_stream] when [p] is not null, while on the
    null pointer both return without an error.  In every case the
    allocator is left as it was. *)
Theorem unknown_pointer_is_invalid (s : THNCachingAllocator D)
    (p stream : Z) (deleter outSize : bool)
    (Hunknown : allocated_blocks s !! p = None) :
  get_base_allocation p outSize s = (Throw (InvalidDevicePointer p), s) /\
  (p <> 0 ->
     raw_delete ops p s = (Throw (InvalidDevicePointer p), s) /\
     erase_stream (mkDataPtr p deleter) stream s = (Throw (InvalidDevicePointer p), s)) /\
  (p = 0 ->
     raw_delete ops p s = (Ok tt, s) /\
     erase_stream (mkDataPtr p deleter) stream s = (Ok tt, s)).
Proof.
  unfold get_base_allocation, raw_delete, erase_stream,
    THN_getBaseAllocation, THN_free, THN_eraseStream, get_allocated_block.
  simpl. rewrite Hunknown. simpl.
  split; [reflexivity |]. split.
  - intros Hp. apply Z.eqb_neq in Hp. rewrite Hp. split; reflexivity.
  - intros ->. split; reflexivity.
Qed.

(** C10: [raw_delete(nullptr)] returns without an error and leaves the
    allocator, with its pools, active set, pending events and statistics,
    exactly as it was. *)
Theorem raw_delete_nullptr_is_noop (s : THNCachingAllocator D) :
  raw_delete ops 0 s = (Ok tt, s).
Proof. reflexivity. Qed.

End InvalidPointers.

(** C6 fails as stated: the null pointer was not issued by the allocator,
    and [raw_delete] and [erase_stream] return on it without an error. *)
Lemma null_pointer_is_not_rejected :
  let s := init_thn default_config (sim_driver (2 ^ 30)) 1 in
  allocated_blocks s !! 0 = None /\
  raw_delete sim_ops 0 s = (Ok tt, s) /\
  erase_stream (mkDataPtr 0 true) 7 s = (Ok tt, s).
Proof. repeat split. Qed.

Lemma unknown_pointer_is_invalid_witness :
  let s := init_thn default_config (sim_driver (2 ^ 30)) 1 in
  get_base_allocation 4096 true s = (Throw (InvalidDevicePointer 4096), s) /\
  (4096 <> 0 ->
     raw_delete sim_ops 4096 s = (Throw (InvalidDevicePointer 4096), s) /\
     erase_stream (mkDataPtr 4096 true) 7 s = (Throw (InvalidDevicePointer 4096), s)) /\
  (4096 = 0 ->
     raw_delete sim_ops 4096 s = (Ok tt, s) /\
     erase_stream (mkDataPtr 4096 true) 7 s = (Ok tt, s)).
Proof.
  intros s.
  apply (unknown_pointer_is_invalid sim_ops s 4096 7 true true).
  reflexivity.
Defined.

(** ** Coherence of the statistics *)

Section StatsInvariant.

Context {D : Type} (ops : DriverOps D).
Variable garbage : StatTypes.

(** An invariant [I] of the statistics that the updates of the allocator
    keep when they go through stat types accepted by [wf]. *)
Variable I : DeviceStats -> Prop.
Variable wf : StatTypes -> Prop.

Hypothesis I_update_stats :
  forall stat_types updates d,
    wf stat_types -> I d -> I (update_stats stat_types updates d).
Hypothesis I_oversize_allocations :
  forall d a, I d -> I (set_oversize_allocations d (update_stat (oversize_allocations d) a)).
Hypothesis I_oversize_segments :
  forall d a, I d -> I (set_oversize_segments d (update_stat (oversize_segments d) a)).
Hypothesis I_num_alloc_retries :
  forall d n, I d -> I (set_num_alloc_retries d n).
Hypothesis I_num_ooms :
  forall d n, I d -> I (set_num_ooms d n).
Hypothesis wf_selected :
  forall ty, ty <> AGGREGATE ->
    wf (st_set (st_set stat_types_false AGGREGATE true) ty true).
Hypothesis wf_garbage :
  forall ty, ty <> AGGREGATE ->
    wf (st_set (st_set garbage AGGREGATE true) ty true).

#[local] Abbreviation holds := (@hoare D _ I).
#[local] Abbreviation keeps m := (@hoare D _ I m (fun _ => True)).

Lemma hoare_bind {A B} (m : @M D A) (k : A -> @M D B) (Q : A -> Prop) (R : B -> Prop) :
  holds m Q -> (forall a, Q a -> holds (k a) R) -> holds (bind m k) R.
Proof.
  intros Hm Hk st HI. unfold bind.
  destruct (Hm st HI) as [HI' HQ].
  destruct (m st) as [[a | e] st']; simpl in *.
  - apply Hk; auto.
  - split; [assumption | discriminate].
Qed.

Lemma hoare_weaken {A} (m : @M D A) (Q R : A -> Prop) :
  holds m Q -> (forall a, Q a -> R a) -> holds m R.
Proof.
  intros Hm HQR st HI. destruct (Hm st HI) as [HI' HQ]. split; auto.
Qed.

Lemma hoare_ret {A} (a : A) (Q : A -> Prop) : Q a -> holds (ret a) Q.
Proof. intros HQ st HI. split; [exact HI |]. simpl. intros ? [= <-]. exact HQ. Qed.

Lemma hoare_throw {A} (e : Error) (Q : A -> Prop) : holds (throw e) Q.
Proof. intros st HI. split; [exact HI | discriminate]. Qed.

Lemma keeps_gets {A} (f : State D -> A) : keeps (gets f).
Proof. intros st HI. split; [exact HI | trivial]. Qed.

Lemma keeps_modify (f : State D -> State D) :
  (forall st, stats (this (f st)) = stats (this st)) -> keeps (modify f).
Proof. intros Hf st HI. split; [simpl; rewrite Hf; exact HI | trivial]. Qed.

Lemma keeps_modify_stats (g : DeviceStats -> DeviceStats) :
  (forall d, I d -> I (g d)) -> keeps (modify_stats g).
Proof. intros Hg st HI. split; [simpl; auto | trivial]. Qed.

Lemma keeps_when (b : bool) (m : @M D unit) : keeps m -> keeps (when b m).
Proof. intros Hm. destruct b; [exact Hm | apply hoare_ret; exact Logic.I]. Qed.

Lemma keeps_for_each {A} (l : list A) (body : A -> @M D unit) :
  (forall x, keeps (body x)) -> keeps (for_each l body).
Proof.
  intros Hb. induction l as [| x l IH]; simpl.
  - apply hoare_ret. exact Logic.I.
  - eapply hoare_bind; [apply Hb | intros _ _; exact IH].
Qed.

Lemma keeps_AT_ASSERT (b : bool) : keeps (AT_ASSERT b).
Proof. destruct b; [apply hoare_ret; exact Logic.I | apply hoare_throw]. Qed.

Lemma keeps_NPU_CHECK_ERROR (err : Z) : keeps (NPU_CHECK_ERROR err).
Proof.
  unfold NPU_CHECK_ERROR.
  destruct (err =? ACL_ERROR_NONE); [apply hoare_ret; exact Logic.I | apply hoare_throw].
Qed.

(** A computation that leaves the statistics alone keeps the invariant. *)
Lemma keeps_frame {A} (m : @M D A) :
  (forall st, stats (this (snd (m st))) = stats (this st)) -> keeps m.
Proof. intros Hm st HI. split; [rewrite Hm; exact HI | trivial]. Qed.

Lemma keeps_load (b : Z) : keeps (load b).
Proof.
  apply keeps_frame. intros st. unfold load.
  destruct (heap (world st) !! b); reflexivity.
Qed.

Lemma keeps_log (c : DriverCall) : keeps (log c).
Proof. apply keeps_modify. reflexivity. Qed.

Create HintDb keeps discriminated.

Hint Resolve keeps_gets keeps_AT_ASSERT keeps_NPU_CHECK_ERROR keeps_load
  keeps_log : keeps.

(** One step through monadic code: take the head of a bind with a lemma
    of the data base, split on tests, or close a leaf. *)
Ltac keep_step :=
  cbv beta zeta;
  lazymatch goal with
  | |- @hoare _ _ _ (bind _ _) _ =>
      first [ eapply hoare_bind; [solve [eauto with keeps] | intros ? ?]
            | eapply hoare_bind with (Q := fun _ => True); [| intros ? ?] ]
  | |- @hoare _ _ _ (ret _) _ => apply hoare_ret; try exact Logic.I
  | |- @hoare _ _ _ (throw _) _ => apply hoare_throw
  | |- @hoare _ _ _ (when _ _) _ => apply keeps_when
  | |- @hoare _ _ _ (for_each _ _) _ => apply keeps_for_each; intros ?
  | |- @hoare _ _ _ (modify _) _ =>
      apply keeps_modify; intros ?;
      first [ reflexivity
            | repeat (match goal with
                      | |- context [match ?x with _ => _ end] => destruct x
                      end);
              reflexivity ]
  | |- @hoare _ _ _ (if ?b then _ else _) _ => destruct b
  | |- @hoare _ _ _ (match ?x with _ => _ end) _ => destruct x
  | |- @hoare _ _ _ _ _ => solve [eauto with keeps]
  end.

Ltac keep := repeat keep_step.

Lemma keeps_store (b : Z) (blk : Block) : keeps (store b blk).
Proof. unfold store. keep. Qed.

Lemma keeps_update_block (b : Z) (f : Block -> Block) : keeps (update_block b f).
Proof. unfold update_block. keep. apply keeps_store. Qed.

Lemma keeps_alloc_Block (blk : Block) : keeps (alloc_Block blk).
Proof. apply keeps_frame. reflexivity. Qed.

Lemma keeps_delete_Block (b : Z) : keeps (delete_Block b).
Proof. unfold delete_Block. keep. Qed.

Lemma keeps_call_AclrtMallocAlign32 (size : Z) : keeps (call_AclrtMallocAlign32 ops size).
Proof.
  apply keeps_frame. intros st. unfold call_AclrtMallocAlign32, bind, log. simpl.
  destruct (AclrtMallocAlign32 ops _ size) as [[? ?] ?]. reflexivity.
Qed.

Lemma keeps_call_aclrtFree (ptr : Z) : keeps (call_aclrtFree ops ptr).
Proof. apply keeps_frame. reflexivity. Qed.

Lemma keeps_call_npuSynchronizeDevice (check_error : bool) :
  keeps (call_npuSynchronizeDevice ops check_error).
Proof.
  unfold call_npuSynchronizeDevice.
  eapply hoare_bind; [apply keeps_log | intros _ _].
  eapply hoare_bind with (Q := fun _ => True).
  - apply keeps_frame. intros st.
    destruct (npuSynchronizeDevice ops (driver (world st)) check_error); reflexivity.
  - intros err _. destruct check_error; [apply keeps_NPU_CHECK_ERROR |].
    apply hoare_ret. exact Logic.I.
Qed.

Lemma keeps_call_aclrtSynchronizeEvent (event : Z) :
  keeps (call_aclrtSynchronizeEvent ops event).
Proof.
  apply keeps_frame. intros st. unfold call_aclrtSynchronizeEvent, bind, log. simpl.
  destruct (aclrtSynchronizeEvent ops _ event). reflexivity.
Qed.

Lemma keeps_call_aclrtGetMemInfo : keeps (call_aclrtGetMemInfo ops).
Proof. apply keeps_frame. reflexivity. Qed.

Lemma keeps_call_aclrtGetDevice : keeps (call_aclrtGetDevice ops).
Proof. apply keeps_frame. reflexivity. Qed.

Lemma keeps_call_aclrtSetDevice (device : Z) : keeps (call_aclrtSetDevice ops device).
Proof.
  apply keeps_frame. intros st. unfold call_aclrtSetDevice, bind, log. simpl.
  destruct (aclrtSetDevice ops _ device). reflexivity.
Qed.

Lemma keeps_call_aclrtGetCurrentContext : keeps (call_aclrtGetCurrentContext ops).
Proof. apply keeps_frame. reflexivity. Qed.

Lemma keeps_call_aclrtSetCurrentContext (context : Z) :
  keeps (call_aclrtSetCurrentContext ops context).
Proof.
  apply keeps_frame. intros st. unfold call_aclrtSetCurrentContext, bind, log. simpl.
  destruct (aclrtSetCurrentContext ops _ context). reflexivity.
Qed.

Lemma keeps_call_event_record (event stream : Z) :
  keeps (call_event_record ops event stream).
Proof. apply keeps_frame. reflexivity. Qed.

Lemma keeps_call_event_query (event : Z) : keeps (call_event_query ops event).
Proof.
  apply keeps_frame. intros st. unfold call_event_query, bind, log. simpl.
  destruct (event_query ops _ event). reflexivity.
Qed.

Lemma keeps_call_free_memory_callback (cb : D -> bool * D) :
  keeps (call_free_memory_callback cb).
Proof.
  apply keeps_frame. intros st. unfold call_free_memory_callback, bind, log. simpl.
  destruct (cb _). reflexivity.
Qed.

Hint Resolve keeps_store keeps_update_block keeps_alloc_Block keeps_delete_Block
  keeps_call_AclrtMallocAlign32 keeps_call_aclrtFree
  keeps_call_npuSynchronizeDevice keeps_call_aclrtSynchronizeEvent
  keeps_call_aclrtGetMemInfo keeps_call_aclrtGetDevice keeps_call_event_record
  keeps_call_event_query keeps_call_free_memory_callback
  keeps_call_aclrtSetDevice keeps_call_aclrtGetCurrentContext
  keeps_call_aclrtSetCurrentContext : keeps.

Lemma keeps_switch_to_device (device : Z) : keeps (switch_to_device ops device).
Proof. unfold switch_to_device. keep. Qed.

Hint Resolve keeps_switch_to_device : keeps.

Lemma keeps_config_max_split_size : keeps CachingAllocatorConfig_max_split_size.
Proof. apply keeps_gets. Qed.

Lemma keeps_config_threshold : keeps CachingAllocatorConfig_garbage_collection_threshold.
Proof. apply keeps_gets. Qed.

Lemma keeps_pool_blocks (p : PoolPtr) : keeps (pool_blocks p).
Proof. destruct p; simpl; keep. Qed.

Lemma keeps_set_pool_blocks (p : PoolPtr) (l : list Z) : keeps (set_pool_blocks p l).
Proof. destruct p; simpl; keep. Qed.

Lemma keeps_pool_is_small (p : PoolPtr) : keeps (pool_is_small p).
Proof. destruct p; simpl; keep. Qed.

Hint Resolve keeps_config_max_split_size keeps_config_threshold
  keeps_pool_blocks keeps_set_pool_blocks keeps_pool_is_small : keeps.

Lemma keeps_pool_insert (p : PoolPtr) (b : Z) : keeps (pool_insert p b).
Proof. unfold pool_insert. keep. Qed.

Lemma keeps_pool_erase (p : PoolPtr) (b : Z) : keeps (pool_erase p b).
Proof. unfold pool_erase. keep. Qed.

Lemma keeps_pool_erase_it (p : PoolPtr) (b : Z) : keeps (pool_erase_it p b).
Proof. unfold pool_erase_it. keep. Qed.

Lemma keeps_should_split (block size : Z) : keeps (should_split block size).
Proof. unfold should_split. keep. Qed.

Hint Resolve keeps_pool_insert keeps_pool_erase keeps_pool_erase_it
  keeps_should_split : keeps.

(** The stat types an operation selects are accepted by [wf]. *)
Lemma select_stat_types_false (p : PoolPtr) :
  holds (select_stat_types stat_types_false p) wf.
Proof.
  unfold select_stat_types, get_stat_type_for_pool.
  destruct p; simpl; unfold bind, throw, ret; intros st HI; simpl;
    (split; [exact HI |]); intros a [= <-];
    first [exact (wf_selected SMALL_POOL ltac:(discriminate))
          | exact (wf_selected LARGE_POOL ltac:(discriminate))].
Qed.

Lemma select_stat_types_garbage (p : PoolPtr) :
  holds (select_stat_types garbage p) wf.
Proof.
  unfold select_stat_types, get_stat_type_for_pool.
  destruct p; simpl; unfold bind, throw, ret; intros st HI; simpl;
    (split; [exact HI |]); intros a [= <-];
    first [exact (wf_garbage SMALL_POOL ltac:(discriminate))
          | exact (wf_garbage LARGE_POOL ltac:(discriminate))].
Qed.

Lemma keeps_modify_update_stats (stat_types : StatTypes) (updates : list (StatField * Z)) :
  wf stat_types -> keeps (modify_stats (update_stats stat_types updates)).
Proof. intros Hwf. apply keeps_modify_stats. intros d. apply I_update_stats. exact Hwf. Qed.

Lemma keeps_modify_update_stat_array (f : StatField) (amount : Z) (stat_types : StatTypes) :
  wf stat_types -> keeps (modify_stats (update_stat_array f amount stat_types)).
Proof.
  intros Hwf. apply keeps_modify_stats. intros d.
  change (update_stat_array f amount stat_types d)
    with (update_stats stat_types [(f, amount)] d).
  apply I_update_stats. exact Hwf.
Qed.

Lemma keeps_modify_oversize_allocations (a : Z) :
  keeps (modify_stats (fun d =>
    set_oversize_allocations d (update_stat (oversize_allocations d) a))).
Proof. apply keeps_modify_stats. intros d. apply I_oversize_allocations. Qed.

Lemma keeps_modify_oversize_segments (a : Z) :
  keeps (modify_stats (fun d =>
    set_oversize_segments d (update_stat (oversize_segments d) a))).
Proof. apply keeps_modify_stats. intros d. apply I_oversize_segments. Qed.

Hint Resolve select_stat_types_false select_stat_types_garbage
  keeps_modify_update_stats keeps_modify_update_stat_array
  keeps_modify_oversize_allocations keeps_modify_oversize_segments : keeps.

Lemma keeps_release_event (ev : Z * Z) : keeps (release_event ev).
Proof. unfold release_event. keep. Qed.

Lemma keeps_create_event_internal (idx : Z) : keeps (create_event_internal ops idx).
Proof. unfold create_event_internal. keep. Qed.

Lemma keeps_set_deque (s : Z) (dq : list (Z * Z * Z)) : keeps (set_deque s dq).
Proof. unfold set_deque. keep. Qed.

Hint Resolve keeps_release_event keeps_create_event_internal keeps_set_deque : keeps.

Lemma keeps_try_merge_blocks (dst src : Z) (pool : PoolPtr) :
  keeps (try_merge_blocks dst src pool).
Proof. unfold try_merge_blocks. keep. Qed.

Hint Resolve keeps_try_merge_blocks : keeps.

Lemma keeps_free_block (block : Z) : keeps (free_block block).
Proof. unfold free_block. keep. Qed.

Hint Resolve keeps_free_block : keeps.

Lemma keeps_event_done (block : Z) : keeps (event_done block).
Proof. unfold event_done. keep. Qed.

Hint Resolve keeps_event_done : keeps.

Lemma keeps_process_deque (s : Z) (dq : list (Z * Z * Z)) :
  keeps (process_deque ops s dq).
Proof.
  induction dq as [| [ev block] rest IH]; simpl; keep; try apply IH.
Qed.

Hint Resolve keeps_process_deque : keeps.

Lemma keeps_process_events : keeps (process_events ops).
Proof. unfold process_events. keep. Qed.

Lemma keeps_release_block (block : Z) : keeps (release_block ops garbage block).
Proof. unfold release_block. keep. Qed.

Hint Resolve keeps_process_events keeps_release_block : keeps.

Lemma keeps_release_blocks (pool : PoolPtr) : keeps (release_blocks ops garbage pool).
Proof. unfold release_blocks. keep. Qed.

(** [get_free_block] and [alloc_block] pass the stat types of their
    parameters on. *)
Lemma get_free_block_keeps (p : AllocParams) :
  holds (get_free_block p) (fun r => p_stat_types (snd r) = p_stat_types p).
Proof. unfold get_free_block. keep; reflexivity. Qed.

Lemma keeps_run_free_memory_callbacks (cbs : list (D -> bool * D)) :
  forall freed, keeps (run_free_memory_callbacks cbs freed).
Proof. induction cbs as [| cb cbs IH]; intros freed; simpl; keep; try apply IH. Qed.

Lemma keeps_trigger_free_memory_callbacks (p : AllocParams) :
  keeps (trigger_free_memory_callbacks ops p).
Proof. apply keeps_run_free_memory_callbacks. Qed.

Lemma keeps_gc_count_freeable (l : list Z) :
  forall age count, keeps (gc_count_freeable l age count).
Proof. induction l as [| b l IH]; intros age count; simpl; keep; try apply IH. Qed.

Lemma keeps_gc_sweep (age_threshold : Q) (l : list Z) :
  forall v, keeps (gc_sweep age_threshold l v (release_block ops garbage)).
Proof. induction l as [| b l IH]; intros v; simpl; keep; try apply IH. Qed.

Hint Resolve keeps_release_blocks keeps_trigger_free_memory_callbacks
  keeps_gc_count_freeable keeps_gc_sweep : keeps.

Lemma keeps_gc_rounds (fuel : nat) (target_size : Z) :
  forall v, keeps (gc_rounds ops garbage fuel target_size v).
Proof.
  induction fuel as [| fuel IH]; intros v; simpl; keep; try apply IH.
Qed.

Hint Resolve keeps_gc_rounds : keeps.

Lemma keeps_garbage_collect_cached_blocks :
  keeps (garbage_collect_cached_blocks ops garbage).
Proof. unfold garbage_collect_cached_blocks. keep. Qed.

Lemma alloc_block_keeps (p : AllocParams) (isRetry : bool) :
  wf (p_stat_types p) ->
  holds (alloc_block ops p isRetry) (fun r => p_stat_types (snd r) = p_stat_types p).
Proof.
  intros Hwf. unfold alloc_block. keep; try reflexivity.
  apply keeps_modify_stats. intros d. apply I_num_alloc_retries.
Qed.

Lemma keeps_release_oversize (key_size stream max_split : Z) (cands : list Z) :
  forall total,
    keeps (release_oversize key_size stream max_split cands total
             (release_block ops garbage)).
Proof. induction cands as [| c cands IH]; intros total; simpl; keep; try apply IH. Qed.

Hint Resolve keeps_garbage_collect_cached_blocks keeps_release_oversize : keeps.

Lemma keeps_release_available_cached_blocks (p : AllocParams) :
  keeps (release_available_cached_blocks ops garbage p).
Proof. unfold release_available_cached_blocks. keep. Qed.

Lemma keeps_synchronize_and_free_events (check_error : bool) :
  keeps (synchronize_and_free_events ops check_error).
Proof. unfold synchronize_and_free_events. keep. Qed.

Hint Resolve keeps_release_available_cached_blocks
  keeps_synchronize_and_free_events : keeps.

Lemma keeps_release_cached_blocks (check_error : bool) :
  keeps (release_cached_blocks ops garbage check_error).
Proof. unfold release_cached_blocks. keep. Qed.

Lemma keeps_insert_events (block : Z) : keeps (insert_events ops block).
Proof. unfold insert_events. keep. Qed.

Hint Resolve keeps_release_cached_blocks keeps_insert_events : keeps.

Lemma keeps_malloc_finish (device size stream : Z) (pool : PoolPtr) (params : AllocParams) :
  wf (p_stat_types params) ->
  keeps (malloc_finish device size stream pool params).
Proof. intros Hwf. unfold malloc_finish. keep. Qed.

Lemma malloc_acquire_keeps (device size stream : Z) (pool : PoolPtr) (alloc_size : Z) :
  holds (malloc_acquire ops garbage device size stream pool alloc_size)
        (fun params => wf (p_stat_types params)).
Proof.
  unfold malloc_acquire.
  eapply hoare_bind; [apply select_stat_types_false | intros stat_types Hwf].
  cbv zeta.
  eapply hoare_bind; [apply get_free_block_keeps | intros r1 Hr1].
  simpl in Hr1.
  eapply hoare_bind with (Q := fun r => wf (p_stat_types (snd r))).
  { destruct (fst r1).
    - apply hoare_ret. rewrite Hr1. exact Hwf.
    - eapply hoare_bind; [apply keeps_trigger_free_memory_callbacks | intros freed _].
      destruct freed.
      + eapply hoare_weaken; [apply get_free_block_keeps |].
        intros r Hr. simpl in Hr. rewrite Hr, Hr1. exact Hwf.
      + apply hoare_ret. simpl. rewrite Hr1. exact Hwf. }
  intros r2 Hr2.
  eapply hoare_bind with (Q := fun r => wf (p_stat_types (snd r))).
  { destruct (fst r2).
    - apply hoare_ret. exact Hr2.
    - eapply hoare_bind; [apply keeps_gets | intros fraction _].
      eapply hoare_bind; [apply keeps_config_threshold | intros threshold _].
      eapply hoare_bind;
        [apply keeps_when; apply keeps_garbage_collect_cached_blocks | intros _ _].
      eapply hoare_bind; [apply (alloc_block_keeps _ _ Hr2) | intros r3 Hr3].
      simpl in Hr3.
      assert (wf (p_stat_types (snd r3))) as Hw3 by (rewrite Hr3; exact Hr2).
      destruct (fst r3); [apply hoare_ret; exact Hw3 |].
      eapply hoare_bind;
        [apply keeps_release_available_cached_blocks | intros released _].
      eapply hoare_bind with (Q := fun r => wf (p_stat_types (snd r))).
      { destruct released.
        - eapply hoare_weaken; [apply (alloc_block_keeps _ _ Hw3) |].
          intros r Hr. simpl in Hr. rewrite Hr. exact Hw3.
        - apply hoare_ret. exact Hw3. }
      intros r4 Hw4.
      destruct (fst r4); [apply hoare_ret; exact Hw4 |].
      eapply hoare_bind; [apply keeps_release_cached_blocks | intros _ _].
      eapply hoare_weaken; [apply (alloc_block_keeps _ _ Hw4) |].
      intros r Hr. simpl in Hr. rewrite Hr. exact Hw4. }
  intros r5 Hw5. cbv zeta.
  eapply hoare_bind with (Q := fun _ => True).
  { destruct (fst r5); [apply hoare_ret; exact Logic.I |].
    destruct (p_err (snd r5) =? ACL_ERROR_RT_MEMORY_ALLOCATION).
    - keep. apply keeps_modify_stats. intros d. apply I_num_ooms.
    - apply keeps_NPU_CHECK_ERROR. }
  intros _ _. apply hoare_ret. exact Hw5.
Qed.

Lemma keeps_malloc_traced (device size stream : Z) :
  keeps (malloc_traced ops garbage device size stream).
Proof.
  unfold malloc_traced.
  eapply hoare_bind with (Q := fun _ => True); [keep | intros dev _].
  eapply hoare_bind; [apply keeps_process_events | intros _ _].
  cbv zeta.
  eapply hoare_bind; [apply malloc_acquire_keeps | intros params Hwf].
  apply keeps_malloc_finish. exact Hwf.
Qed.

Lemma keeps_malloc (device size stream : Z) :
  keeps (malloc ops garbage device size stream).
Proof.
  unfold malloc.
  eapply hoare_bind; [apply keeps_malloc_traced | intros r _].
  apply hoare_ret. exact Logic.I.
Qed.

Lemma keeps_free (block : Z) : keeps (free ops block).
Proof. unfold free. keep. Qed.

Lemma keeps_first_of_chain (fuel : nat) :
  forall block, keeps (first_of_chain fuel block).
Proof. induction fuel as [| fuel IH]; intros block; simpl; keep; try apply IH. Qed.

Lemma keeps_size_of_chain (fuel : nat) :
  forall block size, keeps (size_of_chain fuel block size).
Proof.
  induction fuel as [| fuel IH]; intros block size; simpl; keep; try apply IH.
Qed.

Hint Resolve keeps_first_of_chain keeps_size_of_chain : keeps.

Lemma keeps_getBaseAllocation (block : Z) (outSize : bool) :
  keeps (getBaseAllocation block outSize).
Proof. unfold getBaseAllocation. keep. Qed.

Lemma keeps_recordStream (block stream : Z) : keeps (recordStream block stream).
Proof. unfold recordStream. keep. Qed.

Lemma keeps_eraseStream_loop (block stream : Z) (dq : list (Z * Z * Z)) :
  forall kept, keeps (eraseStream_loop block stream kept dq).
Proof.
  induction dq as [| [ev b] rest IH]; intros kept; simpl; keep; try apply IH.
Qed.

Hint Resolve keeps_eraseStream_loop : keeps.

Lemma keeps_eraseStream (block stream : Z) : keeps (eraseStream block stream).
Proof. unfold eraseStream. keep. Qed.

Lemma keeps_setMemoryFraction (fraction : Q) : keeps (setMemoryFraction ops fraction).
Proof. unfold setMemoryFraction. keep. Qed.

Lemma keeps_emptyCache (check_error : bool) :
  keeps (emptyCache ops garbage check_error).
Proof. unfold emptyCache. keep. Qed.

(** Every public method but the two resets keeps the invariant. *)
Lemma keeps_run_call (c : Call) :
  c <> Call_resetAccumulatedStats -> c <> Call_resetPeakStats ->
  keeps (run_call ops garbage c).
Proof.
  intros Hacc Hpeak. destruct c; simpl; try contradiction.
  - eapply hoare_bind; [apply keeps_malloc | intros; apply hoare_ret; exact Logic.I].
  - apply keeps_free.
  - eapply hoare_bind;
      [apply keeps_getBaseAllocation | intros; apply hoare_ret; exact Logic.I].
  - apply keeps_recordStream.
  - apply keeps_eraseStream.
  - apply keeps_setMemoryFraction.
  - apply keeps_emptyCache.
  - unfold devSetShutdownStats. keep.
  - unfold getStats. keep.
Qed.

End StatsInvariant.

(** *** The three invariants *)

Lemma sa_get_set (a : StatArray) (t u : StatType) (s : Stat) :
  sa_get (sa_set a t s) u = if decide (t = u) then s else sa_get a u.
Proof. destruct t, u; reflexivity. Qed.

Lemma ds_get_set (d : DeviceStats) (f g : StatField) (a : StatArray) :
  ds_get (ds_set d f a) g = if decide (f = g) then a else ds_get d g.
Proof. destruct f, g; reflexivity. Qed.


















Section QuiescentPoints.

Context {D : Type} (ops : DriverOps D).
Variable garbage : StatTypes.

Lemma run_call_resetAccumulatedStats (st : State D) :
  stats (this (snd (run_call ops garbage Call_resetAccumulatedStats st)))
  = resetAccumulatedStats_stats (stats (this st)).
Proof. reflexivity. Qed.

Lemma run_call_resetPeakStats (st : State D) :
  stats (this (snd (run_call ops garbage Call_resetPeakStats st)))
  = resetPeakStats_stats (stats (this st)).
Proof. reflexivity. Qed.

Lemma Call_cases (c : Call) :
  c = Call_resetAccumulatedStats \/ c = Call_resetPeakStats \/
  (c <> Call_resetAccumulatedStats /\ c <> Call_resetPeakStats).
Proof. destruct c; auto; right; right; split; discriminate. Qed.








End QuiescentPoints.



(** * Further properties of the allocator *)

(** ** Ordering and size classes *)

(** X1: [BlockComparator] is a strict total order on the keys
    (stream, size, address): no block is below itself, the relation is
    transitive, and two blocks neither of which is below the other agree
    on all three. *)
Theorem BlockComparator_strict_total_order (a b c : Block) :
  BlockComparator a a = false /\
  (BlockComparator a b = true -> BlockComparator b c = true ->
   BlockComparator a c = true) /\
  (BlockComparator a b = true -> BlockComparator b a = false) /\
  (BlockComparator a b = false -> BlockComparator b a = false ->
   b_stream a = b_stream b /\ b_size a = b_size b /\ b_ptr a = b_ptr b).
Proof.
  unfold BlockComparator.
  split; [| split; [| split]]; intros;
    repeat match goal with
           | H : context [?x =? ?y] |- _ => destruct (Z.eqb_spec x y); simpl in *
           | |- context [?x =? ?y] => destruct (Z.eqb_spec x y); simpl in *
           | H : context [?x <? ?y] |- _ => destruct (Z.ltb_spec x y); simpl in *
           | |- context [?x <? ?y] => destruct (Z.ltb_spec x y); simpl in *
           end;
    try discriminate; try reflexivity; lia.
Qed.

Lemma round_up_multiple (size k : Z) :
  0 < k -> 0 <= size -> size + k <= 2 ^ 64 -> k < 2 ^ 64 ->
  let r := wrap64 (k * (wrap64 (wrap64 (size + k) - 1) / k)) in
  size <= r /\ r < size + k /\ r mod k = 0.
Proof.
  intros Hk Hs Hno Hk64 r. subst r.
  assert (wrap64 (wrap64 (size + k) - 1) = size + k - 1) as ->.
  { unfold wrap64. rewrite Zminus_mod_idemp_l. apply Z.mod_small. lia. }
  pose proof (Z.div_mod (size + k - 1) k ltac:(lia)) as H1.
  pose proof (Z.mod_pos_bound (size + k - 1) k ltac:(lia)) as H2.
  assert (0 <= (size + k - 1) / k) by (apply Z.div_pos; lia).
  rewrite wrap64_small by nia.
  split; [lia |]. split; [lia |].
  rewrite Z.mul_comm. apply Z.mod_mul. lia.
Qed.

(** X2: for a request that does not wrap around, the segment size
    [get_allocation_size] chooses holds the request, is a whole number of
    2 MiB buffers, and for a request of 10 MiB or more wastes less than
    2 MiB. *)
Theorem get_allocation_size_fits (size : Z)
    (Hsize : 0 <= size) (Hno_wrap : size + kRoundLarge <= 2 ^ 64) :
  size <= get_allocation_size size /\
  get_allocation_size size mod kSmallBuffer = 0 /\
  kSmallBuffer <= get_allocation_size size /\
  (kMinLargeAlloc <= size -> get_allocation_size size < size + kRoundLarge).
Proof.
  unfold get_allocation_size.
  destruct (Z.leb_spec size kSmallSize) as [Hsmall | Hlarge].
  { unfold kSmallSize, kSmallBuffer, kMinLargeAlloc in *.
    repeat split; try reflexivity; lia. }
  destruct (Z.ltb_spec size kMinLargeAlloc) as [Hmid | Hbig].
  { unfold kSmallSize, kSmallBuffer, kMinLargeAlloc, kLargeBuffer in *.
    repeat split; try reflexivity; lia. }
  destruct (round_up_multiple size kRoundLarge) as (H1 & H2 & H3);
    [reflexivity | lia | lia | reflexivity |].
  unfold kSmallBuffer, kRoundLarge, kMinLargeAlloc in *.
  repeat split; try assumption; lia.
Qed.

Lemma get_allocation_size_fits_witness :
  12 * MiB + 512 <= get_allocation_size (12 * MiB + 512) /\
  get_allocation_size (12 * MiB + 512) mod kSmallBuffer = 0 /\
  kSmallBuffer <= get_allocation_size (12 * MiB + 512) /\
  (kMinLargeAlloc <= 12 * MiB + 512 ->
   get_allocation_size (12 * MiB + 512) < 12 * MiB + 512 + kRoundLarge).
Proof.
  apply (get_allocation_size_fits (12 * MiB + 512)); vm_compute; discriminate.
Defined.

Lemma round_size_bounds (n : Z) :
  0 <= n -> n + 543 < 2 ^ 64 ->
  n + 32 <= round_size n /\ round_size n < n + 544 /\
  round_size n mod 512 = 0 /\ 512 <= round_size n.
Proof.
  intros Hn Hno. unfold round_size, kMinBlockSize.
  rewrite (wrap64_small (n + 32)) by lia.
  destruct (Z.ltb_spec (n + 32) 512) as [Hlt | Hge].
  { repeat split; try reflexivity; lia. }
  destruct (round_up_multiple (n + 32) 512) as (H1 & H2 & H3);
    [lia | lia | lia | lia |].
  cbv zeta in H1, H2, H3. repeat split; try assumption; lia.
Qed.

(** X3: as long as the rounding does not wrap around, [round_size] leaves
    room for the request and its 32 bytes, adds less than one further
    block of 512 bytes, yields a multiple of 512, and is monotone in the
    request. *)
Theorem round_size_covers_and_is_monotone (n m : Z)
    (Hn : 0 <= n) (Hnm : n <= m) (Hno_wrap : m + 543 < 2 ^ 64) :
  n + 32 <= round_size n < n + 544 /\
  round_size n mod kMinBlockSize = 0 /\
  round_size n <= round_size m.
Proof.
  destruct (round_size_bounds n) as (H1 & H2 & H3 & H4); [lia | lia |].
  destruct (round_size_bounds m) as (G1 & G2 & G3 & G4); [lia | lia |].
  split; [lia |]. split; [exact H3 |].
  (* two multiples of 512, the first below the second plus 512 *)
  apply Z.mod_divide in H3, G3; try lia.
  destruct H3 as [a Ha], G3 as [b Hb]. nia.
Qed.

Lemma round_size_covers_and_is_monotone_witness :
  1000 + 32 <= round_size 1000 < 1000 + 544 /\
  round_size 1000 mod kMinBlockSize = 0 /\
  round_size 1000 <= round_size 5000.
Proof.
  apply (round_size_covers_and_is_monotone 1000 5000); lia.
Defined.

(** X4: a segment freshly obtained for a request below 10 MiB is always
    split: whenever the rounded request is a small or medium one and
    [max_split_size] is above 20 MiB, [should_split] answers yes on a
    block of [get_allocation_size] bytes. *)
Theorem fresh_segment_below_10MiB_is_split (max_split size : Z)
    (Hsize : 0 < size) (Hmedium : size < kMinLargeAlloc)
    (Hcfg : kLargeBuffer < max_split) :
  should_split_on max_split (bool_decide (get_pool size = SmallPool))
    (get_allocation_size size) size = true.
Proof.
  unfold should_split_on, get_pool, get_allocation_size.
  unfold kMinLargeAlloc, kLargeBuffer, kSmallSize, kSmallBuffer, kMinBlockSize in *.
  destruct (Z.leb_spec size 1048576).
  - simpl. rewrite wrap64_small by lia. apply Z.leb_le. lia.
  - simpl. destruct (Z.ltb_spec size 10485760); [| lia].
    rewrite wrap64_small by lia.
    apply andb_true_iff. split; [apply Z.ltb_lt | apply Z.ltb_lt]; lia.
Qed.

Lemma fresh_segment_below_10MiB_is_split_witness :
  should_split_on (21 * MiB) (bool_decide (get_pool 4096 = SmallPool))
    (get_allocation_size 4096) 4096 = true.
Proof.
  apply (fresh_segment_below_10MiB_is_split (21 * MiB) 4096); vm_compute; reflexivity.
Defined.

(** ** What the operations leave alone *)

Section Steps.

Context {D : Type} (ops : DriverOps D).

(** A part [view] of the state and a preorder [R] on it; [allowed] are the
    driver calls whose logging is a step of [R], and the hypotheses
    [on_...] say which fields may change along [R]. *)
Context {X : Type} (view : State D -> X) (R : relation X).
Variable allowed : DriverCall -> Prop.

Hypothesis R_refl : forall x, R x x.
Hypothesis R_trans : forall x y z, R x y -> R y z -> R x z.

Hypothesis on_heap : forall h st, R (view st) (view (set_heap h st)).
Hypothesis on_stats : forall d st, R (view st) (view (set_stats d st)).
Hypothesis on_small_blocks : forall l st, R (view st) (view (set_small_blocks l st)).
Hypothesis on_large_blocks : forall l st, R (view st) (view (set_large_blocks l st)).
Hypothesis on_active_blocks : forall s st, R (view st) (view (set_active_blocks s st)).
Hypothesis on_npu_events : forall l st, R (view st) (view (set_npu_events l st)).
Hypothesis on_event_pool : forall p st, R (view st) (view (set_event_pool p st)).
Hypothesis on_next_event : forall e st, R (view st) (view (set_next_event e st)).
Hypothesis on_driver : forall d st, R (view st) (view (set_driver d st)).
Hypothesis on_trace :
  forall c st, allowed c -> R (view st) (view (set_trace (trace (world st) ++ [c]) st)).
Hypothesis allowed_record : forall e s, allowed (CallEventRecord e s).
Hypothesis allowed_query : forall e, allowed (CallEventQuery e).
Hypothesis allowed_context : forall c, is_context_call c -> allowed c.

#[local] Abbreviation moves m := (@steps D _ X view R m).

Lemma steps_bind {A B} (m : @M D A) (k : A -> @M D B) :
  moves m -> (forall a, moves (k a)) -> moves (bind m k).
Proof.
  intros Hm Hk st. unfold bind. specialize (Hm st).
  destruct (m st) as [[a | e] st']; simpl in *.
  - eapply R_trans; [exact Hm | apply Hk].
  - exact Hm.
Qed.

Lemma steps_ret {A} (a : A) : moves (ret a).
Proof. intros st. apply R_refl. Qed.

Lemma steps_throw {A} (e : Error) : moves (@throw D A e).
Proof. intros st. apply R_refl. Qed.

Lemma steps_gets {A} (f : State D -> A) : moves (gets f).
Proof. intros st. apply R_refl. Qed.

Lemma steps_when (b : bool) (m : @M D unit) : moves m -> moves (when b m).
Proof. intros Hm. destruct b; [exact Hm | apply steps_ret]. Qed.

Lemma steps_for_each {A} (l : list A) (body : A -> @M D unit) :
  (forall x, moves (body x)) -> moves (for_each l body).
Proof.
  intros Hb. induction l as [| x l IH]; simpl.
  - apply steps_ret.
  - apply steps_bind; [apply Hb | intros _; exact IH].
Qed.

Lemma steps_AT_ASSERT (b : bool) : moves (AT_ASSERT b).
Proof. destruct b; [apply steps_ret | apply steps_throw]. Qed.

Lemma steps_load (b : Z) : moves (load b).
Proof. intros st. unfold load. destruct (heap (world st) !! b); apply R_refl. Qed.

Create HintDb steps discriminated.

Hint Resolve steps_ret steps_throw steps_gets steps_AT_ASSERT steps_load : steps.

(** One step through monadic code. *)
Ltac step :=
  cbv beta zeta;
  lazymatch goal with
  | |- @steps _ _ _ _ _ (bind _ _) => apply steps_bind; [| intros ?]
  | |- @steps _ _ _ _ _ (ret _) => apply steps_ret
  | |- @steps _ _ _ _ _ (throw _) => apply steps_throw
  | |- @steps _ _ _ _ _ (gets _) => apply steps_gets
  | |- @steps _ _ _ _ _ (when _ _) => apply steps_when
  | |- @steps _ _ _ _ _ (for_each _ _) => apply steps_for_each; intros ?
  | |- @steps _ _ _ _ _ (modify _) =>
      intros ?; unfold modify; cbn [snd];
      repeat (match goal with
              | |- context [match ?x with _ => _ end] => destruct x
              end);
      first [ apply R_refl | apply on_heap | apply on_stats
            | apply on_small_blocks | apply on_large_blocks
            | apply on_active_blocks | apply on_npu_events
            | apply on_event_pool | apply on_next_event | apply on_driver ]
  | |- @steps _ _ _ _ _ (if ?b then _ else _) => destruct b
  | |- @steps _ _ _ _ _ (match ?x with _ => _ end) => destruct x
  | |- @steps _ _ _ _ _ _ => solve [eauto with steps]
  end.

Ltac steps_tac := repeat step.

Lemma steps_store (b : Z) (blk : Block) : moves (store b blk).
Proof. unfold store. steps_tac. Qed.

Lemma steps_delete_Block (b : Z) : moves (delete_Block b).
Proof. unfold delete_Block. steps_tac. Qed.

Lemma steps_modify_stats (g : DeviceStats -> DeviceStats) : moves (modify_stats g).
Proof. unfold modify_stats. steps_tac. Qed.

Lemma steps_log (c : DriverCall) : allowed c -> moves (log c).
Proof. intros Hc st. unfold log, modify. cbn [snd]. apply on_trace. exact Hc. Qed.

Hint Resolve steps_store steps_delete_Block steps_modify_stats : steps.

Lemma steps_update_block (b : Z) (f : Block -> Block) : moves (update_block b f).
Proof. unfold update_block. steps_tac. Qed.

Lemma steps_call_event_record (event stream : Z) :
  moves (call_event_record ops event stream).
Proof.
  unfold call_event_record. apply steps_bind; [| intros _].
  - apply steps_log. apply allowed_record.
  - steps_tac.
Qed.

Lemma steps_call_aclrtGetDevice : moves (call_aclrtGetDevice ops).
Proof.
  unfold call_aclrtGetDevice. apply steps_bind; [| intros _].
  - apply steps_log. apply allowed_context. exact I.
  - steps_tac.
Qed.

Lemma steps_call_aclrtSetDevice (device : Z) : moves (call_aclrtSetDevice ops device).
Proof.
  unfold call_aclrtSetDevice. apply steps_bind; [| intros _].
  - apply steps_log. apply allowed_context. exact I.
  - intros st. destruct (aclrtSetDevice ops (driver (world st)) device) as [e d].
    cbn [snd]. apply on_driver.
Qed.

Lemma steps_call_aclrtGetCurrentContext : moves (call_aclrtGetCurrentContext ops).
Proof.
  unfold call_aclrtGetCurrentContext. apply steps_bind; [| intros _].
  - apply steps_log. apply allowed_context. exact I.
  - steps_tac.
Qed.

Lemma steps_call_aclrtSetCurrentContext (context : Z) :
  moves (call_aclrtSetCurrentContext ops context).
Proof.
  unfold call_aclrtSetCurrentContext. apply steps_bind; [| intros _].
  - apply steps_log. apply allowed_context. exact I.
  - intros st. destruct (aclrtSetCurrentContext ops (driver (world st)) context) as [e d].
    cbn [snd]. apply on_driver.
Qed.

Lemma steps_NPU_CHECK_ERROR (err : Z) : moves (NPU_CHECK_ERROR err).
Proof. unfold NPU_CHECK_ERROR. steps_tac. Qed.

Lemma steps_call_event_query (event : Z) : moves (call_event_query ops event).
Proof.
  unfold call_event_query. apply steps_bind; [| intros _].
  - apply steps_log. apply allowed_query.
  - intros st. destruct (event_query ops (driver (world st)) event) as [b d].
    cbn [snd]. apply on_driver.
Qed.

Lemma steps_config_max_split_size : moves CachingAllocatorConfig_max_split_size.
Proof. apply steps_gets. Qed.

Lemma steps_pool_blocks (p : PoolPtr) : moves (pool_blocks p).
Proof. destruct p; simpl; steps_tac. Qed.

Lemma steps_set_pool_blocks (p : PoolPtr) (l : list Z) : moves (set_pool_blocks p l).
Proof. destruct p; simpl; steps_tac. Qed.

Lemma steps_pool_is_small (p : PoolPtr) : moves (pool_is_small p).
Proof. destruct p; simpl; steps_tac. Qed.

Hint Resolve steps_call_aclrtGetDevice steps_call_aclrtSetDevice
  steps_call_aclrtGetCurrentContext steps_call_aclrtSetCurrentContext
  steps_NPU_CHECK_ERROR : steps.

Lemma steps_switch_to_device (device : Z) : moves (switch_to_device ops device).
Proof. unfold switch_to_device. steps_tac. Qed.

Hint Resolve steps_switch_to_device : steps.

Hint Resolve steps_update_block steps_call_event_record steps_call_event_query
  steps_config_max_split_size steps_pool_blocks steps_set_pool_blocks
  steps_pool_is_small : steps.

Lemma steps_pool_insert (p : PoolPtr) (b : Z) : moves (pool_insert p b).
Proof. unfold pool_insert. steps_tac. Qed.

Lemma steps_pool_erase (p : PoolPtr) (b : Z) : moves (pool_erase p b).
Proof. unfold pool_erase. steps_tac. Qed.

Lemma steps_select_stat_types (base : StatTypes) (p : PoolPtr) :
  moves (select_stat_types base p).
Proof. unfold select_stat_types, get_stat_type_for_pool. steps_tac. Qed.

Lemma steps_release_event (ev : Z * Z) : moves (release_event ev).
Proof. unfold release_event. steps_tac. Qed.

Lemma steps_create_event_internal (idx : Z) : moves (create_event_internal ops idx).
Proof. unfold create_event_internal. steps_tac. Qed.

Lemma steps_set_deque (s : Z) (dq : list (Z * Z * Z)) : moves (set_deque s dq).
Proof. unfold set_deque. steps_tac. Qed.

Hint Resolve steps_pool_insert steps_pool_erase steps_select_stat_types
  steps_release_event steps_create_event_internal steps_set_deque : steps.

Lemma steps_try_merge_blocks (dst src : Z) (pool : PoolPtr) :
  moves (try_merge_blocks dst src pool).
Proof. unfold try_merge_blocks. steps_tac. Qed.

Hint Resolve steps_try_merge_blocks : steps.

Lemma steps_free_block (block : Z) : moves (free_block block).
Proof. unfold free_block. steps_tac. Qed.

Hint Resolve steps_free_block : steps.

Lemma steps_event_done (block : Z) : moves (event_done block).
Proof. unfold event_done. steps_tac. Qed.

Lemma steps_insert_events (block : Z) : moves (insert_events ops block).
Proof. unfold insert_events. steps_tac. Qed.

Hint Resolve steps_event_done steps_insert_events : steps.

Lemma steps_process_deque (s : Z) (dq : list (Z * Z * Z)) : moves (process_deque ops s dq).
Proof.
  induction dq as [| [ev block] rest IH]; simpl.
  - apply steps_ret.
  - steps_tac.
Qed.

Hint Resolve steps_process_deque : steps.

Lemma steps_process_events : moves (process_events ops).
Proof. unfold process_events. steps_tac. Qed.

Lemma steps_free (block : Z) : moves (free ops block).
Proof. unfold free. steps_tac. Qed.

Lemma steps_recordStream (block stream : Z) : moves (recordStream block stream).
Proof. unfold recordStream. steps_tac. Qed.

Lemma steps_eraseStream_loop (block stream : Z) (kept dq : list (Z * Z * Z)) :
  moves (eraseStream_loop block stream kept dq).
Proof.
  revert kept. induction dq as [| [ev b] rest IH]; intros kept; simpl.
  - apply steps_ret.
  - steps_tac; try apply IH.
Qed.

Hint Resolve steps_eraseStream_loop : steps.

Lemma steps_eraseStream (block stream : Z) : moves (eraseStream block stream).
Proof. unfold eraseStream. steps_tac. Qed.

End Steps.


Lemma grows_by_refl (P : DriverCall -> Prop) (l : list DriverCall) : grows_by P l l.
Proof. exists []. split; [symmetry; apply app_nil_r | constructor]. Qed.

Lemma grows_by_trans (P : DriverCall -> Prop) (l1 l2 l3 : list DriverCall) :
  grows_by P l1 l2 -> grows_by P l2 l3 -> grows_by P l1 l3.
Proof.
  intros [e1 [-> H1]] [e2 [-> H2]]. exists (e1 ++ e2). split.
  - symmetry. apply app_assoc.
  - apply Forall_app. split; assumption.
Qed.

Lemma grows_by_one (P : DriverCall -> Prop) (l : list DriverCall) (c : DriverCall) :
  P c -> grows_by P l (l ++ [c]).
Proof. intros Hc. exists [c]. split; [reflexivity | repeat constructor; exact Hc]. Qed.

Section QuietOperations.

Context {D : Type} (ops : DriverOps D).

(** X5: giving memory back does not synchronise.  Whatever the block and
    the state, and whether the call returns or raises, the only driver
    calls [free] makes record an event or read or set the current context
    and device: it never calls [npuSynchronizeDevice] or
    [aclrtSynchronizeEvent], never queries an event, never asks for the
    memory information and never allocates or frees device memory.
    [recordStream] and [eraseStream] make no driver call at all. *)
Theorem free_makes_no_synchronising_call (block stream : Z) (st : State D) :
  grows_by records_or_switches
    (driver_log st) (driver_log (snd (free ops block st))) /\
  (forall c, records_or_switches c ->
     is_synchronize c = false /\ ~ is_event_query c /\
     (forall size, c <> CallMalloc size) /\ (forall ptr, c <> CallFree ptr) /\
     c <> CallGetMemInfo /\ c <> CallFreeMemoryCallback) /\
  driver_log (snd (recordStream block stream st)) = driver_log st /\
  driver_log (snd (eraseStream block stream st)) = driver_log st.
Proof.
  split; [| split; [| split]].
  - apply (steps_free ops driver_log (grows_by records_or_switches) records_or_switches);
      try (intros; apply grows_by_refl).
    + apply grows_by_trans.
    + intros c st' Hc. apply grows_by_one. exact Hc.
    + intros e s. left. exact I.
    + intros c Hc. right. exact Hc.
  - intros c [Hc | Hc]; destruct c; try contradiction;
      repeat split; try reflexivity; try discriminate; intros H; exact H.
  - symmetry.
    apply (steps_recordStream driver_log eq); try reflexivity.
    intros x y z -> ->. reflexivity.
  - symmetry.
    apply (steps_eraseStream driver_log eq); try reflexivity.
    intros x y z -> ->. reflexivity.
Qed.

(** When [m] leaves [view] alone, [bind m k] either stops in a state with
    the same [view] or goes on with [k] from one. *)
Lemma bind_same_view {A B X} (view : State D -> X) (m : @M D A) (k : A -> @M D B)
    (st : State D) :
  steps view eq m ->
  view (snd (bind m k st)) = view st \/
  exists a st', view st' = view st /\ bind m k st = k a st'.
Proof.
  intros Hm. specialize (Hm st). unfold bind.
  destruct (m st) as [[a | e] st']; simpl in *.
  - right. exists a, st'. split; [symmetry; exact Hm | reflexivity].
  - left. symmetry. exact Hm.
Qed.

Lemma log_kept_event_done (block : Z) : steps driver_log eq (event_done (D := D) block).
Proof.
  apply steps_event_done; try reflexivity. intros x y z -> ->. reflexivity.
Qed.

Lemma log_kept_set_deque (s : Z) (dq : list (Z * Z * Z)) :
  steps driver_log eq (set_deque (D := D) s dq).
Proof.
  apply steps_set_deque; try reflexivity.
Qed.

Lemma log_kept_release_event (ev : Z * Z) :
  steps driver_log eq (release_event (D := D) ev).
Proof.
  apply steps_release_event; try reflexivity.
Qed.

(** X6: the events of a stream are polled in the order they were
    recorded.  Whatever the state, [process_deque] makes exactly the
    event queries of a prefix of the deque, front to back, and no other
    driver call. *)
Theorem process_deque_polls_in_order (s : Z) (dq : list (Z * Z * Z)) (st : State D) :
  exists n,
    driver_log (snd (process_deque ops s dq st)) = driver_log st ++ polls (take n dq).
Proof.
  revert st. induction dq as [| [ev block] rest IH]; intros st.
  - exists 0%nat. simpl. symmetry. apply app_nil_r.
  - cbn [process_deque].
    unfold bind at 1.
    assert (Hq : exists b st1,
               call_event_query ops (fst ev) st = (Ok b, st1) /\
               driver_log st1 = driver_log st ++ [CallEventQuery (fst ev)]).
    { unfold call_event_query, bind, log, modify. cbn.
      destruct (event_query ops _ (fst ev)) as [b d]. eexists _, _.
      split; reflexivity. }
    destruct Hq as (b & st1 & -> & Hlog1).
    assert (Hstop : driver_log st1 = driver_log st ++ polls (take 1 ((ev, block) :: rest))).
    { exact Hlog1. }
    destruct b; cbn [negb].
    + destruct (bind_same_view driver_log (event_done block)
                  (fun _ => set_deque s rest ;;; release_event ev ;;; process_deque ops s rest)
                  st1 (log_kept_event_done block)) as [H | (a & st2 & H2 & ->)].
      { exists 1%nat. rewrite H. exact Hstop. }
      destruct (bind_same_view driver_log (set_deque s rest)
                  (fun _ => release_event ev ;;; process_deque ops s rest)
                  st2 (log_kept_set_deque s rest)) as [H | (a' & st3 & H3 & ->)].
      { exists 1%nat. rewrite H, H2. exact Hstop. }
      destruct (bind_same_view driver_log (release_event ev)
                  (fun _ => process_deque ops s rest)
                  st3 (log_kept_release_event ev)) as [H | (a'' & st4 & H4 & ->)].
      { exists 1%nat. rewrite H, H3, H2. exact Hstop. }
      destruct (IH st4) as [n Hn]. exists (S n).
      rewrite Hn, H4, H3, H2, Hlog1. cbn [take polls map fst].
      rewrite <- app_assoc. reflexivity.
    + exists 1%nat. exact Hstop.
Qed.

(** X7: a block that other streams have used is not reusable at once.
    When the block has recorded stream uses and the allocator is not
    shutting down, [free] puts it in no pool: both pools and the set of
    active blocks are as before. *)
Theorem free_defers_block_with_stream_uses (block : Z) (blk : Block) (st : State D)
    (Hblock : heap (world st) !! block = Some blk)
    (Huses : b_stream_uses blk <> [])
    (Hrunning : shutdown_stats (this st) = false) :
  pools_and_active (snd (free ops block st)) = pools_and_active st.
Proof.
  assert (Hins : forall st', pools_and_active (snd (insert_events ops block st'))
                             = pools_and_active st').
  { intros st'. symmetry.
    apply (steps_insert_events ops pools_and_active eq (fun _ => True));
      try reflexivity; try (intros; exact I).
    intros x y z -> ->. reflexivity. }
  unfold free, update_block, store, bind, load, modify. cbn.
  rewrite Hblock. cbn. rewrite lookup_insert_eq.
  unfold select_stat_types, get_stat_type_for_pool, bind, pool_is_small, ret, throw.
  cbn [b_pool set_b_allocated b_size b_stream_uses].
  destruct (b_pool blk); [reflexivity | |].
  all: unfold when, modify_stats, modify, ret.
  all: destruct (_ <=? b_size blk).
  all: cbn [this shutdown_stats set_stats set_heap].
  all: rewrite Hrunning, bool_decide_eq_false_2 by exact Huses.
  all: cbn [negb andb].
  all: rewrite Hins; reflexivity.
Qed.

End QuietOperations.

Lemma free_defers_block_with_stream_uses_witness :
  let blk := set_b_stream_uses (new_Block 0 0 512 SmallPool 4096) [7] in
  let st := set_heap (<[1 := blk]> ∅) (init_state default_config (sim_driver 0)) in
  pools_and_active (snd (free sim_ops 1 st)) = pools_and_active st.
Proof.
  intros blk st.
  apply (free_defers_block_with_stream_uses sim_ops 1 blk st).
  - reflexivity.
  - discriminate.
  - reflexivity.
Defined.

(** ** Segments and their base allocation *)

Section BaseAllocation.

Context {D : Type}.

Lemma first_of_chain_reads (fuel : nat) (block : Z) (st : State D) :
  snd (first_of_chain fuel block st) = st.
Proof.
  revert block. induction fuel as [| fuel IH]; intros block; [reflexivity |].
  cbn [first_of_chain]. unfold bind, load.
  destruct (heap (world st) !! block) as [blk |]; [| reflexivity].
  destruct (b_prev blk =? 0); [reflexivity | apply IH].
Qed.

Lemma size_of_chain_reads (fuel : nat) (block size : Z) (st : State D) :
  snd (size_of_chain fuel block size st) = st.
Proof.
  revert block size. induction fuel as [| fuel IH]; intros block size.
  - cbn [size_of_chain]. destruct (block =? 0); reflexivity.
  - cbn [size_of_chain]. destruct (block =? 0); [reflexivity |].
    unfold bind, load.
    destruct (heap (world st) !! block) as [blk |]; [| reflexivity].
    apply IH.
Qed.

Lemma getBaseAllocation_reads (block : Z) (outSize : bool) (st : State D) :
  snd (getBaseAllocation block outSize st) = st.
Proof.
  unfold getBaseAllocation, bind, gets.
  pose proof (first_of_chain_reads (size (heap (world st))) block st) as H1.
  destruct (first_of_chain _ block st) as [[b | e] st1]; simpl in H1; subst st1;
    [| reflexivity].
  unfold load. destruct (heap (world st) !! b) as [blk |]; [| reflexivity].
  destruct outSize; [| reflexivity].
  pose proof (size_of_chain_reads (size (heap (world st))) b 0 st) as H2.
  destruct (size_of_chain _ b 0 st) as [[sz | e] st2]; simpl in H2; subst st2;
    reflexivity.
Qed.

Lemma linked_nonzero (h : Heap) (p : Z) (l : list Z) :
  linked h p l -> 0 ∉ l.
Proof.
  revert p. induction l as [| b l IH]; intros p Hl.
  - apply not_elem_of_nil.
  - destruct Hl as (Hb & blk & _ & _ & _ & Hl).
    rewrite elem_of_cons. intros [H0 | H0]; [congruence | exact (IH _ Hl H0)].
Qed.

Lemma last_cons_default (l : list Z) (x p : Z) : List.last (x :: l) p = List.last l x.
Proof.
  revert x p. induction l as [| y l IH]; intros x p; [reflexivity |].
  change (List.last (x :: y :: l) p) with (List.last (y :: l) p).
  rewrite (IH y p). symmetry. apply IH.
Qed.

(** Inside a chain every block points back to the one before it. *)
Lemma linked_middle (h : Heap) (p : Z) (l1 : list Z) (b : Z) (l2 : list Z) :
  linked h p (l1 ++ b :: l2) ->
  b <> 0 /\
  exists blk, h !! b = Some blk /\ b_prev blk = List.last l1 p /\
              b_next blk = hd 0 l2 /\ linked h b l2.
Proof.
  revert p. induction l1 as [| x l1 IH]; intros p Hl.
  - destruct Hl as (Hb & blk & Hblk & Hprev & Hnext & Hl). split; [exact Hb |].
    exists blk. repeat split; assumption.
  - destruct Hl as (_ & _ & _ & _ & _ & Hl).
    destruct (IH x Hl) as (Hb & blk & Hblk & Hprev & Hrest). split; [exact Hb |].
    exists blk. split; [exact Hblk |]. split; [| exact Hrest].
    rewrite Hprev. symmetry. apply last_cons_default.
Qed.

Lemma last_default_or_elem (l : list Z) (p : Z) : List.last l p = p \/ List.last l p ∈ l.
Proof.
  revert p. induction l as [| x l IH]; intros p; [left; reflexivity |].
  right. rewrite last_cons_default.
  destruct (IH x) as [-> | H]; [apply list_elem_of_here | apply list_elem_of_further; exact H].
Qed.

Lemma linked_NoDup (h : Heap) (p : Z) (l : list Z) :
  linked h p l -> p ∉ l -> NoDup l.
Proof.
  revert p. induction l as [| b l IH]; intros p Hl Hp; [constructor |].
  pose proof Hl as (Hb & blk & Hblk & Hprev & Hnext & Hl').
  assert (Hbl : b ∉ l).
  { intros Hin. apply list_elem_of_split in Hin as (l1 & l2 & ->).
    destruct (linked_middle h b l1 b l2 Hl') as (_ & blk' & Hblk' & Hprev' & _).
    rewrite Hblk in Hblk'. injection Hblk' as <-.
    apply Hp. rewrite <- Hprev, Hprev'.
    destruct (last_default_or_elem l1 b) as [-> | Hlast].
    - apply list_elem_of_here.
    - apply list_elem_of_further. apply elem_of_app. left. exact Hlast. }
  constructor; [exact Hbl | exact (IH b Hl' Hbl)].
Qed.

Lemma linked_in_heap (h : Heap) (p : Z) (l : list Z) :
  linked h p l -> forall b, b ∈ l -> b ∈ dom h.
Proof.
  revert p. induction l as [| x l IH]; intros p Hl b Hb.
  - apply elem_of_nil in Hb. contradiction.
  - destruct Hl as (_ & blk & Hblk & _ & _ & Hl).
    apply elem_of_cons in Hb as [-> | Hb].
    + apply elem_of_dom. eexists; exact Hblk.
    + exact (IH _ Hl b Hb).
Qed.

(** A segment has no more blocks than the block store. *)
Lemma linked_length (h : Heap) (l : list Z) :
  linked h 0 l -> (length l <= size h)%nat.
Proof.
  intros Hl.
  pose proof (linked_NoDup h 0 l Hl (linked_nonzero h 0 l Hl)) as Hnd.
  rewrite <- size_dom.
  rewrite <- (size_list_to_set (C := gset Z) l Hnd).
  apply subseteq_size. intros b Hb. apply elem_of_list_to_set in Hb.
  exact (linked_in_heap h 0 l Hl b Hb).
Qed.

Lemma first_of_chain_linked (st : State D) (l1 : list Z) :
  forall (b : Z) (l2 : list Z) (fuel : nat),
    linked (heap (world st)) 0 (l1 ++ b :: l2) ->
    (length l1 < fuel)%nat ->
    first_of_chain fuel b st = (Ok (hd 0 (l1 ++ b :: l2)), st).
Proof.
  induction l1 as [| x l1 IH] using rev_ind; intros b l2 fuel Hl Hfuel.
  - destruct fuel as [| fuel]; [lia |].
    destruct (linked_middle _ 0 [] b l2 Hl) as (Hb & blk & Hblk & Hprev & _).
    cbn [first_of_chain]. unfold bind, load. rewrite Hblk.
    simpl in Hprev. rewrite Hprev. reflexivity.
  - destruct fuel as [| fuel]; [lia |].
    rewrite length_app in Hfuel. simpl in Hfuel.
    destruct (linked_middle _ 0 (l1 ++ [x]) b l2 Hl) as (Hb & blk & Hblk & Hprev & _).
    rewrite <- app_assoc in Hl. simpl in Hl.
    destruct (linked_middle _ 0 l1 x (b :: l2) Hl) as (Hx & _).
    assert (Hlast : List.last (l1 ++ [x]) 0 = x) by apply last_last.
    rewrite Hlast in Hprev.
    cbn [first_of_chain]. unfold bind, load. rewrite Hblk, Hprev.
    destruct (Z.eqb_spec x 0) as [-> | _]; [contradiction |].
    rewrite (IH x (b :: l2) fuel Hl ltac:(lia)).
    rewrite <- app_assoc. reflexivity.
Qed.

Lemma wrap64_add_l (a b : Z) : wrap64 (wrap64 a + b) = wrap64 (a + b).
Proof. unfold wrap64. apply Zplus_mod_idemp_l. Qed.

Lemma size_of_chain_linked (st : State D) (l : list Z) :
  forall (p a : Z) (fuel : nat),
    linked (heap (world st)) p l ->
    (length l <= fuel)%nat ->
    size_of_chain fuel (hd 0 l) (wrap64 a) st
    = (Ok (wrap64 (a + chain_size (heap (world st)) l)), st).
Proof.
  induction l as [| b l IH]; intros p a fuel Hl Hfuel.
  - simpl. rewrite Z.add_0_r. destruct fuel; reflexivity.
  - destruct Hl as (Hb & blk & Hblk & Hprev & Hnext & Hl).
    destruct fuel as [| fuel]; [simpl in Hfuel; lia |].
    cbn [size_of_chain hd].
    destruct (Z.eqb_spec b 0) as [-> | _]; [contradiction |].
    unfold bind, load. rewrite Hblk, Hnext, wrap64_add_l.
    rewrite (IH b (a + b_size blk) fuel Hl ltac:(simpl in Hfuel; lia)).
    cbn [chain_size foldr]. rewrite Hblk. fold (chain_size (heap (world st)) l).
    rewrite Z.add_assoc. reflexivity.
Qed.

(** X8: [getBaseAllocation] only reads, and on a block of a segment it
    answers for the whole segment.  For every input the state is
    unchanged; and when the blocks at [l] are the chain of one segment and
    [block] is one of them, the result is the address of the first block
    of the chain and, when a size is asked for, the sizes of all blocks of
    the chain added up in [size_t]. *)
Theorem getBaseAllocation_answers_for_segment (st : State D) (outSize : bool) :
  (forall block, snd (getBaseAllocation block outSize st) = st) /\
  (forall l block,
     linked (heap (world st)) 0 l -> block ∈ l ->
     exists head,
       heap (world st) !! hd 0 l = Some head /\
       fst (getBaseAllocation block outSize st)
       = Ok (b_ptr head,
             if outSize then Some (wrap64 (chain_size (heap (world st)) l)) else None)).
Proof.
  split; [intros block; apply getBaseAllocation_reads |].
  intros l block Hl Hin.
  pose proof (linked_length _ l Hl) as Hlen.
  apply list_elem_of_split in Hin as (l1 & l2 & ->).
  assert (Hhead : exists head, heap (world st) !! hd 0 (l1 ++ block :: l2) = Some head).
  { destruct l1 as [| x l1]; simpl in *.
    - destruct Hl as (_ & blk & Hblk & _). eauto.
    - destruct Hl as (_ & blk & Hblk & _). eauto. }
  destruct Hhead as [head Hhead]. exists head. split; [exact Hhead |].
  unfold getBaseAllocation, bind, gets.
  rewrite (first_of_chain_linked st l1 block l2 _ Hl)
    by (rewrite length_app in Hlen; simpl in Hlen; lia).
  unfold load. rewrite Hhead.
  destruct outSize; [| reflexivity].
  change 0 with (wrap64 0) at 2.
  rewrite (size_of_chain_linked st _ 0 0 _ Hl Hlen). reflexivity.
Qed.

End BaseAllocation.

Lemma getBaseAllocation_answers_for_segment_witness :
  let first := set_b_next (new_Block 0 0 512 LargePool 4096) 2 in
  let second := set_b_prev (new_Block 0 0 1024 LargePool 4608) 1 in
  let st := set_heap (<[1 := first]> (<[2 := second]> ∅))
              (init_state default_config (sim_driver 0)) in
  linked (heap (world st)) 0 [1; 2] /\ 2 ∈ [1; 2] /\
  exists head,
    heap (world st) !! hd 0 [1; 2] = Some head /\
    fst (getBaseAllocation 2 true st)
    = Ok (b_ptr head, Some (wrap64 (chain_size (heap (world st)) [1; 2]))).
Proof.
  intros first second st.
  assert (Hl : linked (heap (world st)) 0 [1; 2]).
  { split; [discriminate |]. exists first. repeat split.
    - discriminate.
    - exists second. repeat split. }
  assert (Hin : 2 ∈ [1; 2]) by (apply list_elem_of_further, list_elem_of_here).
  split; [exact Hl |]. split; [exact Hin |].
  exact (proj2 (getBaseAllocation_answers_for_segment st true) [1; 2] 2 Hl Hin).
Defined.

(** ** Peaks and accumulators *)

Lemma stats_related_update_stat_at (R : Stat -> Stat -> Prop) (f : StatField)
    (t : StatType) (a : Z) (d0 d : DeviceStats) :
  (forall s0 s x, R s0 s -> R s0 (update_stat s x)) ->
  stats_related R d0 d -> stats_related R d0 (update_stat_at f t a d).
Proof.
  intros HR (Harr & Ho1 & Ho2). unfold update_stat_at.
  split; [| split; [exact Ho1 | exact Ho2]].
  intros g u. rewrite ds_get_set.
  destruct (decide (f = g)) as [<- |]; [| apply Harr].
  rewrite sa_get_set. destruct (decide (t = u)) as [<- |]; [| apply Harr].
  apply HR, Harr.
Qed.

Lemma stats_related_update_stats (R : Stat -> Stat -> Prop) (stat_types : StatTypes)
    (updates : list (StatField * Z)) (d0 d : DeviceStats) :
  (forall s0 s x, R s0 s -> R s0 (update_stat s x)) ->
  stats_related R d0 d -> stats_related R d0 (update_stats stat_types updates d).
Proof.
  intros HR.
  assert (forall t d, stats_related R d0 d ->
            stats_related R d0
              (fold_left (fun d u => update_stat_at (fst u) t (snd u) d) updates d))
    as Hfold.
  { intros t. induction updates as [| u updates IH]; intros d1 Hd; simpl; [exact Hd |].
    apply IH. apply stats_related_update_stat_at; assumption. }
  intros Hd. unfold update_stats, for_each_selected_stat_type. simpl.
  destruct (st_aggregate stat_types), (st_small_pool stat_types),
    (st_large_pool stat_types); auto.
Qed.

Lemma stats_related_frame (R : Stat -> Stat -> Prop) (d0 d d' : DeviceStats) :
  (forall f, ds_get d' f = ds_get d f) ->
  R (oversize_allocations d0) (oversize_allocations d') ->
  R (oversize_segments d0) (oversize_segments d') ->
  stats_related R d0 d -> stats_related R d0 d'.
Proof.
  intros Hf Ho1 Ho2 (Harr & _ & _). split; [| split; assumption].
  intros f t. rewrite Hf. apply Harr.
Qed.

Lemma update_stat_peak_not_below (s0 s : Stat) (x : Z) :
  peak_not_below s0 s -> peak_not_below s0 (update_stat s x).
Proof. unfold peak_not_below, update_stat. simpl. lia. Qed.

Lemma update_stat_accumulators_not_below (s0 s : Stat) (x : Z) :
  accumulators_not_below s0 s -> accumulators_not_below s0 (update_stat s x).
Proof.
  unfold accumulators_not_below, update_stat. simpl. intros [Ha Hf].
  destruct (Z.ltb_spec 0 x), (Z.ltb_spec x 0); lia.
Qed.

Section Monotone.

Context {D : Type} (ops : DriverOps D).
Variable garbage : StatTypes.

(** Every public method but the two resets keeps a relation to the
    statistics of an earlier state that [update_stat] keeps. *)
Lemma stats_related_after_call (R : Stat -> Stat -> Prop) (d0 : DeviceStats)
    (c : Call) (st : State D) :
  (forall s0 s x, R s0 s -> R s0 (update_stat s x)) ->
  c <> Call_resetAccumulatedStats -> c <> Call_resetPeakStats ->
  stats_related R d0 (stats (this st)) ->
  stats_related R d0 (stats (this (snd (run_call ops garbage c st)))).
Proof.
  intros HR Hc1 Hc2 Hst.
  refine (proj1 (keeps_run_call ops garbage (stats_related R d0) (fun _ => True)
                   _ _ _ _ _ _ _ c Hc1 Hc2 st Hst)).
  - intros. apply stats_related_update_stats; assumption.
  - intros d a Hd. apply (stats_related_frame R d0 d); try assumption.
    + intros []; reflexivity.
    + apply HR, Hd.
    + apply Hd.
  - intros d a Hd. apply (stats_related_frame R d0 d); try assumption.
    + intros []; reflexivity.
    + apply Hd.
    + apply HR, Hd.
  - intros d n Hd. apply (stats_related_frame R d0 d); try assumption.
    + intros []; reflexivity.
    + apply Hd.
    + apply Hd.
  - intros d n Hd. apply (stats_related_frame R d0 d); try assumption.
    + intros []; reflexivity.
    + apply Hd.
    + apply Hd.
  - trivial.
  - trivial.
Qed.

(** X9: peaks fall only at [resetPeakStats], and the accumulated counters
    only at [resetAccumulatedStats].  Across any other public method, in
    any state and whether it returns or raises, no [peak] of the device
    statistics decreases; and across any method but
    [resetAccumulatedStats], no [allocated] or [freed] decreases. *)
Theorem peaks_and_accumulators_fall_only_at_resets (c : Call) (st : State D) :
  (c <> Call_resetPeakStats ->
   stats_related peak_not_below (stats (this st))
     (stats (this (snd (run_call ops garbage c st))))) /\
  (c <> Call_resetAccumulatedStats ->
   stats_related accumulators_not_below (stats (this st))
     (stats (this (snd (run_call ops garbage c st))))).
Proof.
  assert (Hp0 : stats_related peak_not_below (stats (this st)) (stats (this st))).
  { repeat split; intros; unfold peak_not_below; lia. }
  assert (Ha0 : stats_related accumulators_not_below (stats (this st)) (stats (this st))).
  { repeat split; intros; unfold accumulators_not_below; lia. }
  destruct (Call_cases c) as [-> | [-> | [Hc1 Hc2]]].
  - split; [intros _ | intros H; contradiction].
    rewrite run_call_resetAccumulatedStats.
    split; [| split; unfold peak_not_below; simpl; lia].
    intros f t. unfold peak_not_below. destruct f, t; simpl; lia.
  - split; [intros H; contradiction | intros _].
    rewrite run_call_resetPeakStats.
    split; [| split; unfold accumulators_not_below; simpl; lia].
    intros f t. unfold accumulators_not_below. destruct f, t; simpl; lia.
  - split; intros _.
    + apply stats_related_after_call; try assumption.
      apply update_stat_peak_not_below.
    + apply stats_related_after_call; try assumption.
      apply update_stat_accumulators_not_below.
Qed.

End Monotone.

(** ** Pointers handed out and taken back *)

Section PointerTable.

Context {D : Type} (ops : DriverOps D).
Variable garbage : StatTypes.

Lemma on_device_allocated_blocks {A} (device : Z) (m : @M D A)
    (s : THNCachingAllocator D) :
  allocated_blocks (snd (on_device device m s)) = allocated_blocks s.
Proof.
  unfold on_device.
  destruct (if 0 <=? device then device_allocator s !! Z.to_nat device else None);
    [| reflexivity].
  destruct (m _) as [r st]. reflexivity.
Qed.

(** After [raw_delete] the pointer is no longer in [allocated_blocks],
    whether the call returned or raised. *)
Lemma raw_delete_forgets (ptr : Z) (s : THNCachingAllocator D) :
  ptr <> 0 -> allocated_blocks (snd (raw_delete ops ptr s)) !! ptr = None.
Proof.
  intros Hptr. unfold raw_delete, THN_free, get_allocated_block.
  apply Z.eqb_neq in Hptr. rewrite Hptr.
  destruct (allocated_blocks s !! ptr) as [block |] eqn:Hlook.
  - destruct (block =? 0); [simpl; apply lookup_delete_eq |].
    destruct (block_device block _); [| simpl; apply lookup_delete_eq].
    rewrite on_device_allocated_blocks. simpl. apply lookup_delete_eq.
  - simpl. exact Hlook.
Qed.

(** X10: a second [raw_delete] of the same pointer is detected.  For
    every non-null pointer and every state of the allocator, whatever the
    first [raw_delete] did, [raw_delete] of the same pointer right after
    it raises "invalid device pointer" and changes nothing. *)
Theorem double_free_is_detected (ptr : Z) (s : THNCachingAllocator D)
    (Hptr : ptr <> 0) :
  let s1 := snd (raw_delete ops ptr s) in
  raw_delete ops ptr s1 = (Throw (InvalidDevicePointer ptr), s1).
Proof.
  intros s1.
  pose proof (raw_delete_forgets ptr s Hptr) as Hgone. fold s1 in Hgone.
  unfold raw_delete at 1, THN_free, get_allocated_block.
  apply Z.eqb_neq in Hptr. rewrite Hptr, Hgone. reflexivity.
Qed.

(** X11: a pointer that [THNCachingAllocator::malloc] returns is
    registered.  When the call returns [ptr], [allocated_blocks] maps
    [ptr] to a block of the block store whose address is [ptr], so that
    the lookups of [raw_delete], [get_base_allocation] and the stream
    functions find it. *)
Theorem malloc_registers_pointer (device size stream ptr : Z)
    (s : THNCachingAllocator D)
    (Hok : fst (THN_malloc ops garbage device size stream s) = Ok ptr) :
  let s' := snd (THN_malloc ops garbage device size stream s) in
  exists block blk,
    allocated_blocks s' !! ptr = Some block /\
    heap (thn_world s') !! block = Some blk /\
    b_ptr blk = ptr.
Proof.
  intros s'. subst s'. revert Hok. unfold THN_malloc.
  destruct (on_device device _ s) as [[block | e] s1]; [| discriminate].
  unfold add_allocated_block.
  destruct (heap (thn_world s1) !! block) as [blk |] eqn:Hblk; [| discriminate].
  cbn [thn_world]. rewrite Hblk. cbn [fst snd]. intros [= <-].
  exists block, blk. cbn [allocated_blocks thn_world].
  split; [apply lookup_insert_eq |]. split; [exact Hblk | reflexivity].
Qed.

End PointerTable.

Lemma double_free_is_detected_witness :
  let s := snd (THN_malloc sim_ops stat_types_false 0 1000 7
                  (init_thn default_config (sim_driver (2 ^ 30)) 1)) in
  4096 <> 0 /\
  let s1 := snd (raw_delete sim_ops 4096 s) in
  raw_delete sim_ops 4096 s1 = (Throw (InvalidDevicePointer 4096), s1).
Proof.
  intros s. split; [discriminate |].
  apply (double_free_is_detected sim_ops 4096 s). discriminate.
Defined.

Lemma malloc_registers_pointer_witness :
  let s := init_thn default_config (sim_driver (2 ^ 30)) 1 in
  let s' := snd (THN_malloc sim_ops stat_types_false 0 1000 7 s) in
  fst (THN_malloc sim_ops stat_types_false 0 1000 7 s) = Ok 4096 /\
  exists block blk,
    allocated_blocks s' !! 4096 = Some block /\
    heap (thn_world s') !! block = Some blk /\
    b_ptr blk = 4096.
Proof.
  intros s s'.
  assert (Hok : fst (THN_malloc sim_ops stat_types_false 0 1000 7 s) = Ok 4096)
    by (vm_compute; reflexivity).
  split; [exact Hok |].
  exact (malloc_registers_pointer sim_ops stat_types_false 0 1000 7 4096 s Hok).
Defined.

(** ** Stream uses *)

Section StreamUses.

Context {D : Type}.

Lemma Block_eta (b : Block) :
  mkBlock (b_device b) (b_stream b) (b_stream_uses b) (b_size b) (b_pool b)
          (b_ptr b) (b_allocated b) (b_prev b) (b_next b) (b_event_count b)
          (b_gc_count b) = b.
Proof. destruct b; reflexivity. Qed.

Lemma filter_drop_last (stream : Z) (uses : list Z) :
  stream ∉ uses -> filter (fun s => s ≠ stream) (uses ++ [stream]) = uses.
Proof.
  intros Hnew. rewrite filter_app.
  rewrite (filter_cons_False (fun s => s ≠ stream)) by (intros H; apply H; reflexivity).
  rewrite filter_nil, app_nil_r.
  induction uses as [| x uses IH]; [reflexivity |].
  apply not_elem_of_cons in Hnew as [Hx Hnew].
  rewrite filter_cons_True by (intros ->; apply Hx; reflexivity).
  rewrite IH by exact Hnew. reflexivity.
Qed.

(** The loop of [eraseStream] passes over a deque with no entry of the
    block. *)
Lemma eraseStream_loop_no_entry (block stream : Z) (dq : list (Z * Z * Z)) :
  forall (kept : list (Z * Z * Z)) (st : State D),
    Forall (fun e => snd e <> block) dq ->
    eraseStream_loop block stream kept dq st = (Ok tt, st).
Proof.
  induction dq as [| [ev b] rest IH]; intros kept st Hdq; [reflexivity |].
  apply Forall_cons in Hdq as [Hb Hrest]. simpl in Hb.
  cbn [eraseStream_loop].
  destruct (Z.eqb_spec block b) as [-> | _]; [contradiction |].
  cbn [negb]. apply IH. exact Hrest.
Qed.

(** X12: [recordStream] is idempotent, and [eraseStream] undoes it.  A
    second [recordStream] of the same stream changes nothing, in any
    state.  And for a block of the block store that has no use of
    [stream] recorded and no event pending on it, [recordStream] followed
    by [eraseStream] returns and leaves the state as it was, but for the
    entry of [stream] in [npu_events], which [eraseStream] writes back. *)
Theorem eraseStream_undoes_recordStream (block stream : Z) (st : State D) :
  snd (recordStream block stream (snd (recordStream block stream st)))
  = snd (recordStream block stream st) /\
  (forall blk,
     heap (world st) !! block = Some blk ->
     stream ∉ b_stream_uses blk ->
     Forall (fun e => snd e <> block) (events_get stream (npu_events (this st))) ->
     eraseStream block stream (snd (recordStream block stream st))
     = (Ok tt,
        set_npu_events
          (events_set stream (events_get stream (npu_events (this st)))
             (npu_events (this st))) st)).
Proof.
  split.
  - unfold recordStream, update_block, bind, load, store, modify.
    destruct (heap (world st) !! block) as [blk |] eqn:Hblk; cbn.
    + rewrite lookup_insert_eq. cbn.
      destruct (bool_decide (stream ∈ b_stream_uses blk)) eqn:Hin.
      * rewrite Hin. unfold set_heap. cbn. rewrite insert_insert_eq. reflexivity.
      * cbn [b_stream_uses set_b_stream_uses].
        rewrite bool_decide_eq_true_2
          by (apply elem_of_app; right; apply list_elem_of_here).
        unfold set_heap. cbn. rewrite insert_insert_eq. reflexivity.
    + rewrite Hblk. reflexivity.
  - intros blk Hblk Hnew Hdq.
    unfold recordStream, eraseStream, update_block, bind, load, store, modify, gets,
      set_deque.
    rewrite Hblk. cbn. rewrite lookup_insert_eq. cbn.
    rewrite bool_decide_eq_false_2 by exact Hnew.
    cbn [b_stream_uses set_b_stream_uses].
    rewrite filter_drop_last by exact Hnew.
    rewrite eraseStream_loop_no_entry by exact Hdq.
    f_equal. unfold set_npu_events, set_heap. cbn.
    rewrite insert_insert_eq.
    assert (Hsame : set_b_stream_uses (set_b_stream_uses blk (b_stream_uses blk ++ [stream]))
                      (b_stream_uses blk) = blk).
    { destruct blk; reflexivity. }
    unfold set_b_stream_uses in *. cbn in *. rewrite Hsame.
    rewrite insert_id by exact Hblk.
    destruct st as [t [h nb ep ne d tr cfg]]. reflexivity.
Qed.

End StreamUses.

Lemma eraseStream_undoes_recordStream_witness :
  let blk := new_Block 0 7 512 SmallPool 4096 in
  let st := set_heap (<[1 := blk]> ∅) (init_state default_config (sim_driver 0)) in
  heap (world st) !! 1 = Some blk /\
  (3 ∉ b_stream_uses blk) /\
  eraseStream 1 3 (snd (recordStream 1 3 st))
  = (Ok tt,
     set_npu_events
       (events_set 3 (events_get 3 (npu_events (this st))) (npu_events (this st))) st).
Proof.
  intros blk st.
  assert (H1 : heap (world st) !! 1 = Some blk) by reflexivity.
  assert (H2 : 3 ∉ b_stream_uses blk) by apply not_elem_of_nil.
  split; [exact H1 |]. split; [exact H2 |].
  apply (proj2 (eraseStream_undoes_recordStream 1 3 st) blk H1 H2).
  constructor.
Defined.

(** ** What the search hands out, and the memory cap *)

Section SearchSoundness.

Context {D : Type} (ops : DriverOps D).

Lemma set_heap_same (st : State D) : set_heap (heap (world st)) st = st.
Proof. destruct st as [t [? ? ? ? ? ? ?]]; reflexivity. Qed.

Lemma same_but_gc_count_trans (h1 h2 h3 : Heap) :
  same_but_gc_count h1 h2 -> same_but_gc_count h2 h3 -> same_but_gc_count h1 h3.
Proof.
  intros H12 H23 a. specialize (H12 a). specialize (H23 a).
  destruct (h1 !! a) as [x |], (h2 !! a) as [y |], (h3 !! a) as [z |];
    try contradiction; try exact I.
  destruct H12 as [n ->], H23 as [m ->]. exists m. destruct x; reflexivity.
Qed.

(** The loop that ages the blocks, wherever it stops, touches nothing but
    the [gc_count] of blocks. *)
Lemma age_blocks_any (l : list Z) :
  forall (st : State D),
    exists h',
      snd (for_each l (fun b =>
             update_block b (fun blk => set_b_gc_count blk (b_gc_count blk + 1))) st)
      = set_heap h' st /\
      same_but_gc_count (heap (world st)) h'.
Proof.
  induction l as [| e l IH]; intros st.
  - exists (heap (world st)). split; [| apply same_but_gc_count_refl].
    simpl. symmetry. apply set_heap_same.
  - cbn [for_each].
    destruct (heap (world st) !! e) as [x |] eqn:Hx.
    + set (st1 := set_heap (<[e := set_b_gc_count x (b_gc_count x + 1)]> (heap (world st))) st).
      destruct (IH st1) as (h' & Hrun & Hs'). exists h'. split.
      * erewrite bind_Ok with (st' := st1) (a := tt).
        -- rewrite Hrun. reflexivity.
        -- unfold update_block. erewrite bind_Ok; [| unfold load; rewrite Hx; reflexivity].
           reflexivity.
      * eapply same_but_gc_count_trans; [| exact Hs'].
        apply same_but_gc_count_insert; [apply same_but_gc_count_refl | exact Hx].
    + exists (heap (world st)). split; [| apply same_but_gc_count_refl].
      erewrite bind_Throw with (st' := st) (e := BadPointer).
      * simpl. symmetry. apply set_heap_same.
      * unfold update_block. erewrite bind_Throw; [reflexivity |].
        unfold load. rewrite Hx. reflexivity.
Qed.

Lemma blocks_of_pool_run (pool : PoolPtr) (st : State D) (l : list Z) (st' : State D) :
  pool_blocks pool st = (Ok l, st') -> st' = st /\ l = blocks_of_pool st pool.
Proof.
  destruct pool; cbn; intros H; [discriminate | |]; injection H as <- <-; split; reflexivity.
Qed.

(** X13: what [get_free_block] hands out fits the request.  Whenever it
    answers yes, in any state, the block it names was in the pool of the
    request and is taken out of it; it is on the stream of the request, at
    least as large as the size asked for, and within the oversize rules:
    below [max_split_size] for a request below it, and less than
    [kLargeBuffer] above the request otherwise; its [gc_count] is zero,
    and nothing else in the block store changed but [gc_count]s. *)
Theorem get_free_block_sound (p p' : AllocParams) (st st' : State D)
    (Hrun : get_free_block p st = (Ok (true, p'), st')) :
  let max_split := m_max_split_size (config (world st)) in
  exists blk,
    p' = set_p_block p (p_block p') /\
    p_block p' ∈ blocks_of_pool st (p_pool p) /\
    blocks_of_pool st' (p_pool p)
      = set_erase_it (p_block p') (blocks_of_pool st (p_pool p)) /\
    heap (world st') !! p_block p' = Some blk /\
    b_stream blk = p_stream p /\
    p_size p <= b_size blk /\
    (p_size p < max_split -> b_size blk < max_split) /\
    (max_split <= p_size p -> b_size blk < wrap64 (p_size p + kLargeBuffer)) /\
    b_gc_count blk = 0 /\
    same_but_gc_count (heap (world st)) (heap (world st')).
Proof.
  intros max_split. revert Hrun. unfold get_free_block.
  unfold bind at 1.
  destruct (pool_blocks (p_pool p) st) as [[l | e] st0] eqn:Hpool; [| discriminate].
  apply blocks_of_pool_run in Hpool as [-> ->].
  set (l := blocks_of_pool st (p_pool p)).
  unfold bind at 1. cbn [gets]. unfold bind at 1.
  unfold CachingAllocatorConfig_garbage_collection_threshold. cbn [gets].
  unfold bind at 1.
  set (cond := set_fraction (this st) && Qpositive _).
  assert (Hage : exists h',
            snd (when cond
                   (for_each l (fun b =>
                      update_block b (fun blk => set_b_gc_count blk (b_gc_count blk + 1)))) st)
            = set_heap h' st /\ same_but_gc_count (heap (world st)) h').
  { destruct cond; cbn [when].
    - apply age_blocks_any.
    - exists (heap (world st)). split; [symmetry; apply set_heap_same |].
      apply same_but_gc_count_refl. }
  destruct Hage as (h1 & Hst1 & Hsame).
  destruct (when cond _ st) as [[[] | e] st1]; [| discriminate].
  cbn [snd] in Hst1. subst st1.
  unfold bind at 1. cbn [gets set_heap world heap].
  unfold bind at 1. unfold CachingAllocatorConfig_max_split_size.
  cbn [gets set_heap world config]. fold max_split.
  destruct (l !! lower_bound h1 (p_search_key p) l) as [it |] eqn:Hlb;
    [| intros [= ? ?]; discriminate].
  destruct (lower_bound_not_less _ _ _ _ Hlb) as [Hin Hge].
  unfold bind at 1, load. cbn [set_heap world heap].
  unfold block_lt_key in Hge.
  destruct (h1 !! it) as [cand |] eqn:Hcand; [| discriminate].
  destruct (accepts_candidate max_split (p_stream p) (p_size p) cand) eqn:Hacc;
    [| intros [= ? ?]; discriminate].
  unfold update_block, bind, load, store, modify, pool_erase_it, ret.
  cbn [set_heap world heap]. rewrite Hcand.
  assert (Hfacts : b_stream cand = p_stream p /\ p_size p <= b_size cand /\
                   (p_size p < max_split -> b_size cand < max_split) /\
                   (max_split <= p_size p ->
                    b_size cand < wrap64 (p_size p + kLargeBuffer))).
  { revert Hacc Hge. unfold accepts_candidate, BlockComparator, p_stream, p_size.
    destruct (Z.eqb_spec (b_stream cand) (b_stream (p_search_key p))) as [Hs | Hs];
      cbn [negb]; [| discriminate].
    destruct (Z.ltb_spec (b_size (p_search_key p)) max_split),
      (Z.leb_spec max_split (b_size cand)),
      (Z.leb_spec max_split (b_size (p_search_key p))),
      (Z.leb_spec (wrap64 (b_size (p_search_key p) + kLargeBuffer)) (b_size cand));
      cbn [andb]; try discriminate; intros _;
      destruct (Z.eqb_spec (b_size cand) (b_size (p_search_key p))); cbn [negb];
      intros Hlt; try apply Z.ltb_ge in Hlt; repeat split; lia. }
  destruct Hfacts as (Hf1 & Hf2 & Hf3 & Hf4).
  assert (Hfinal : forall st2 : State D,
            heap (world st2) = <[it := set_b_gc_count cand 0]> h1 ->
            blocks_of_pool st2 (p_pool p) = set_erase_it it l ->
            (Ok (true, set_p_block p it), st2) = (Ok (true, p'), st') ->
            exists blk,
              p' = set_p_block p (p_block p') /\ p_block p' ∈ l /\
              blocks_of_pool st' (p_pool p) = set_erase_it (p_block p') l /\
              heap (world st') !! p_block p' = Some blk /\
              b_stream blk = p_stream p /\ p_size p <= b_size blk /\
              (p_size p < max_split -> b_size blk < max_split) /\
              (max_split <= p_size p -> b_size blk < wrap64 (p_size p + kLargeBuffer)) /\
              b_gc_count blk = 0 /\
              same_but_gc_count (heap (world st)) (heap (world st'))).
  { intros st2 Hheap Hblocks [= <- <-]. cbn [p_block set_p_block].
    exists (set_b_gc_count cand 0). rewrite Hheap, lookup_insert_eq.
    repeat split; try assumption.
    apply same_but_gc_count_insert; assumption. }
  subst l. destruct (p_pool p) eqn:Hp; cbn.
  - intros [=].
  - apply Hfinal; reflexivity.
  - apply Hfinal; reflexivity.
Qed.

(** X14: the memory fraction caps what [alloc_block] reserves.  With a
    fraction set, a request that would take the reserved memory above the
    allowed maximum fails with the out-of-memory code without any driver
    call and without changing the reserved total; and in every case the
    reserved total stays at or below the allowed maximum when it was. *)
Theorem alloc_block_respects_memory_fraction (p : AllocParams) (isRetry : bool)
    (st : State D) (Hfraction : set_fraction (this st) = true) :
  let r := alloc_block ops p isRetry st in
  let total := total_allocated_memory (this st) in
  let allowed := allowed_memory_maximum (this st) in
  (allowed < wrap64 (total + p_alloc_size p) ->
   fst r = Ok (false, set_p_err p ACL_ERROR_RT_MEMORY_ALLOCATION) /\
   driver_log (snd r) = driver_log st /\
   total_allocated_memory (this (snd r)) = total) /\
  (total <= allowed -> total_allocated_memory (this (snd r)) <= allowed).
Proof.
  intros r total allowed.
  set (st0 := snd (when isRetry
                     (modify_stats (fun d => set_num_alloc_retries d (num_alloc_retries d + 1)))
                     st)).
  assert (Hrun0 : when isRetry
                    (modify_stats (fun d => set_num_alloc_retries d (num_alloc_retries d + 1)))
                    st = (Ok tt, st0)) by (destruct isRetry; reflexivity).
  assert (H0 : set_fraction (this st0) = true /\
               total_allocated_memory (this st0) = total /\
               allowed_memory_maximum (this st0) = allowed /\
               driver_log st0 = driver_log st).
  { subst st0. destruct isRetry; repeat split; assumption. }
  destruct H0 as (Hf0 & Ht0 & Ha0 & Hl0).
  clearbody st0.
  assert (Hcases :
            (allowed < wrap64 (total + p_alloc_size p) ->
             r = (Ok (false, set_p_err p ACL_ERROR_RT_MEMORY_ALLOCATION), st0)) /\
            (wrap64 (total + p_alloc_size p) <= allowed ->
             total_allocated_memory (this (snd r)) = total \/
             total_allocated_memory (this (snd r)) = wrap64 (total + p_alloc_size p))).
  { assert (Hr : r = alloc_block ops p isRetry st) by reflexivity. clearbody r.
    unfold alloc_block in Hr.
    unfold bind at 1 in Hr. rewrite Hrun0 in Hr.
    unfold bind at 1 in Hr. cbn [gets] in Hr. unfold bind at 1 in Hr. cbn [gets] in Hr.
    unfold bind at 1 in Hr. cbn [gets] in Hr.
    rewrite Hf0, Ht0, Ha0 in Hr. cbn [andb] in Hr.
    destruct (Z.ltb_spec allowed (wrap64 (total + p_alloc_size p))) as [Hover | Hfits].
    - split; [intros _; exact Hr | intros Hle; lia].
    - split; [intros Hlt; lia | intros _].
      unfold bind at 1, call_AclrtMallocAlign32, bind, log, modify in Hr. cbv beta in Hr.
      destruct (AclrtMallocAlign32 ops _ (p_alloc_size p)) as [[err ptr] d].
      destruct (Z.eqb_spec err ACL_ERROR_NONE) as [-> | Herr]; cbn [negb] in Hr.
      + right. cbn -[update_stats] in Hr. rewrite Ht0 in Hr.
        destruct (_ <=? p_alloc_size p); rewrite Hr; reflexivity.
      + left. rewrite Hr. cbn. exact Ht0. }
  destruct Hcases as [Hover Hfits]. split.
  - intros Hlt. rewrite (Hover Hlt). cbn [fst snd].
    split; [reflexivity | split; [exact Hl0 | exact Ht0]].
  - intros Hle.
    destruct (Z.lt_ge_cases allowed (wrap64 (total + p_alloc_size p))) as [Hlt | Hge].
    + rewrite (Hover Hlt). cbn [snd]. rewrite Ht0. exact Hle.
    + destruct (Hfits Hge) as [-> | ->]; assumption.
Qed.

End SearchSoundness.

Lemma get_free_block_sound_witness :
  let st := one_cached_block (41 * MiB - 32) in
  let p := malloc_params 0 7 (30 * MiB) stat_types_false in
  let p' := set_p_block p 1 in
  let st' := snd (get_free_block p st) in
  let max_split := m_max_split_size (config (world st)) in
  fst (get_free_block p st) = Ok (true, p') /\
  exists blk,
    p' = set_p_block p (p_block p') /\
    p_block p' ∈ blocks_of_pool st (p_pool p) /\
    blocks_of_pool st' (p_pool p)
      = set_erase_it (p_block p') (blocks_of_pool st (p_pool p)) /\
    heap (world st') !! p_block p' = Some blk /\
    b_stream blk = p_stream p /\
    p_size p <= b_size blk /\
    (p_size p < max_split -> b_size blk < max_split) /\
    (max_split <= p_size p -> b_size blk < wrap64 (p_size p + kLargeBuffer)) /\
    b_gc_count blk = 0 /\
    same_but_gc_count (heap (world st)) (heap (world st')).
Proof.
  intros st p p' st' max_split.
  assert (Hfst : fst (get_free_block p st) = Ok (true, p')) by (vm_compute; reflexivity).
  split; [exact Hfst |].
  apply (get_free_block_sound p p' st st').
  rewrite (surjective_pairing (get_free_block p st)). rewrite Hfst. reflexivity.
Defined.

Lemma alloc_block_respects_memory_fraction_witness :
  let st := snd (setMemoryFraction sim_ops (1 # 2)
                   (init_state default_config (sim_driver (2 ^ 30)))) in
  let p := malloc_params 0 7 (600 * MiB) stat_types_false in
  let r := alloc_block sim_ops p false st in
  let total := total_allocated_memory (this st) in
  let allowed := allowed_memory_maximum (this st) in
  set_fraction (this st) = true /\
  (allowed < wrap64 (total + p_alloc_size p) ->
   fst r = Ok (false, set_p_err p ACL_ERROR_RT_MEMORY_ALLOCATION) /\
   driver_log (snd r) = driver_log st /\
   total_allocated_memory (this (snd r)) = total) /\
  (total <= allowed -> total_allocated_memory (this (snd r)) <= allowed).
Proof.
  intros st p r total allowed.
  assert (Hf : set_fraction (this st) = true) by reflexivity.
  split; [exact Hf |].
  exact (alloc_block_respects_memory_fraction sim_ops p false st Hf).
Defined.

(** ** Splitting a block *)

Section Split.

Context {D : Type}.

Lemma run_load (b : Z) (x : Block) (s : State D) :
  heap (world s) !! b = Some x -> load b s = (Ok x, s).
Proof. intros H. unfold load. rewrite H. reflexivity. Qed.

Lemma run_update_block (b : Z) (f : Block -> Block) (x : Block) (s : State D) :
  heap (world s) !! b = Some x ->
  exists s', update_block b f s = (Ok tt, s') /\
             heap (world s') = <[b := f x]> (heap (world s)).
Proof.
  intros H. eexists. unfold update_block, bind, load. rewrite H.
  split; reflexivity.
Qed.

Lemma run_pool_insert (pool : PoolPtr) (b : Z) (s : State D) :
  pool <> NullPool ->
  exists s', pool_insert pool b s = (Ok tt, s') /\ heap (world s') = heap (world s).
Proof.
  intros H. destruct pool; [contradiction | |]; eexists; split; reflexivity.
Qed.

Lemma run_modify_stats (g : DeviceStats -> DeviceStats) (s : State D) :
  exists s', modify_stats g s = (Ok tt, s') /\ heap (world s') = heap (world s).
Proof. eexists; split; reflexivity. Qed.

(** X15: a split loses no byte.  When [should_split] says yes for the
    block found, [malloc] hands out a new block at the address
    [next_block] that starts where the block found started and has the
    size asked for; the block found stays behind it, starting [size]
    bytes later and shorter by [size]; the two are linked to each other,
    the new block takes over the predecessor and the block found keeps
    its successor; and the new block is marked allocated and active. *)
Theorem malloc_finish_split_tiles (device size stream : Z) (pool : PoolPtr)
    (params : AllocParams) (st : State D) (blk : Block)
    (Hblock : p_block params <> 0)
    (Hblk : heap (world st) !! p_block params = Some blk)
    (Hpool : b_pool blk = pool)
    (Hpool' : pool <> NullPool)
    (Hprev : b_prev blk = 0 \/
             (b_prev blk <> p_block params /\ is_Some (heap (world st) !! b_prev blk)))
    (Hfresh : heap (world st) !! next_block (world st) = None)
    (Hsplit : should_split_on (m_max_split_size (config (world st)))
                (bool_decide (pool = SmallPool)) (b_size blk) size = true) :
  let nb := next_block (world st) in
  let r := malloc_finish device size stream pool params st in
  fst r = Ok (nb, true) /\
  exists handed rest,
    heap (world (snd r)) !! nb = Some handed /\
    heap (world (snd r)) !! p_block params = Some rest /\
    b_ptr handed = b_ptr blk /\ b_size handed = size /\
    b_ptr rest = wrap64 (b_ptr blk + size) /\
    b_size rest = wrap64 (b_size blk - size) /\
    b_prev handed = b_prev blk /\ b_next handed = p_block params /\
    b_prev rest = nb /\ b_next rest = b_next blk /\
    b_allocated handed = true /\ b_stream handed = stream /\
    b_allocated rest = b_allocated blk /\
    nb ∈ active_blocks (this (snd r)).
Proof.
  intros nb r.
  assert (Hr : r = malloc_finish device size stream pool params st) by reflexivity.
  clearbody r.
  assert (Hnb : nb <> p_block params).
  { intros Heq. subst nb. rewrite Heq in Hfresh. congruence. }
  unfold malloc_finish in Hr.
  apply Z.eqb_neq in Hblock. rewrite Hblock in Hr. cbn [negb AT_ASSERT] in Hr.
  unfold bind at 1 in Hr. cbn [ret] in Hr.
  unfold bind at 1, load at 1 in Hr. rewrite Hblk in Hr.
  assert (Hss : should_split (p_block params) size st = (Ok true, st)).
  { unfold should_split, bind, load. rewrite Hblk, Hpool.
    destruct pool; [contradiction | |]; rewrite <- Hsplit; reflexivity. }
  unfold bind at 1 in Hr. rewrite Hss in Hr.
  unfold bind at 1 in Hr.
  (* the new block *)
  set (B0 := new_Block device stream size pool (b_ptr blk)) in *.
  set (s1 := set_next_block (nb + 1) (set_heap (<[nb := B0]> (heap (world st))) st)).
  assert (E1 : alloc_Block B0 st = (Ok nb, s1)) by reflexivity.
  assert (H1 : heap (world s1) = <[nb := B0]> (heap (world st))) by reflexivity.
  clearbody s1.
  erewrite (bind_Ok (alloc_Block B0)) in Hr by exact E1.
  (* its predecessor *)
  destruct (run_update_block nb (fun b => set_b_prev b (b_prev blk)) B0 s1)
    as (s2 & E2 & H2); [rewrite H1; apply lookup_insert_eq |].
  erewrite (bind_Ok (update_block nb _)) in Hr by exact E2.
  rewrite H1, insert_insert_eq in H2.
  assert (E3 : exists s3,
            when (negb (b_prev blk =? 0))
              (update_block (b_prev blk) (fun x => set_b_next x nb)) s2 = (Ok tt, s3) /\
            heap (world s3) !! nb = Some (set_b_prev B0 (b_prev blk)) /\
            heap (world s3) !! p_block params = Some blk).
  { destruct (Z.eqb_spec (b_prev blk) 0) as [H0 | H0]; cbn [negb when].
    - exists s2. split; [reflexivity |]. rewrite H2. split.
      + apply lookup_insert_eq.
      + rewrite lookup_insert_ne by exact Hnb. exact Hblk.
    - destruct Hprev as [? | [Hpb [pv Hpv]]]; [contradiction |].
      assert (Hpn : nb <> b_prev blk).
      { intros Heq. subst nb. rewrite Heq in Hfresh. congruence. }
      destruct (run_update_block (b_prev blk) (fun x => set_b_next x nb) pv s2)
        as (s3 & E3 & H3).
      { rewrite H2, lookup_insert_ne by exact Hpn. exact Hpv. }
      exists s3. split; [exact E3 |]. rewrite H3, H2. split.
      + rewrite lookup_insert_ne by congruence. apply lookup_insert_eq.
      + rewrite lookup_insert_ne by exact Hpb.
        rewrite lookup_insert_ne by exact Hnb. exact Hblk. }
  destruct E3 as (s3 & E3 & H3n & H3b).
  erewrite (bind_Ok (when _ _)) in Hr by exact E3.
  (* its successor *)
  destruct (run_update_block nb (fun b => set_b_next b (p_block params)) _ s3 H3n)
    as (s4 & E4 & H4).
  erewrite (bind_Ok (update_block nb _)) in Hr by exact E4.
  (* what stays behind *)
  destruct (run_update_block (p_block params)
              (fun r => set_b_size (set_b_ptr (set_b_prev r nb) (wrap64 (b_ptr r + size)))
                          (wrap64 (b_size r - size))) blk s4)
    as (s5 & E5 & H5).
  { rewrite H4, lookup_insert_ne by exact Hnb. exact H3b. }
  erewrite (bind_Ok (update_block (p_block params) _)) in Hr by exact E5.
  destruct (run_pool_insert pool (p_block params) s5 Hpool') as (s6 & E6 & H6).
  erewrite (bind_Ok (pool_insert _ _)) in Hr by exact E6.
  set (rest := set_b_size (set_b_ptr (set_b_prev blk nb) (wrap64 (b_ptr blk + size)))
                 (wrap64 (b_size blk - size))) in *.
  set (handed0 := set_b_next (set_b_prev B0 (b_prev blk)) (p_block params)) in *.
  assert (H6b : heap (world s6) !! p_block params = Some rest).
  { rewrite H6, H5. apply lookup_insert_eq. }
  assert (H6n : heap (world s6) !! nb = Some handed0).
  { rewrite H6, H5, lookup_insert_ne by congruence. rewrite H4. apply lookup_insert_eq. }
  assert (E7 : exists s7,
            (if is_split blk
             then modify_stats
                    (update_stat_array F_inactive_split_bytes
                       (to_int64 (wrap64 (- size))) (p_stat_types params))
             else r <-- load (p_block params) ;;
                  modify_stats
                    (update_stats (p_stat_types params)
                       [(F_inactive_split_bytes, to_int64 (b_size r));
                        (F_inactive_split, 1)])) s6 = (Ok tt, s7) /\
            heap (world s7) = heap (world s6)).
  { destruct (is_split blk).
    - apply run_modify_stats.
    - erewrite bind_Ok by (apply run_load; exact H6b). apply run_modify_stats. }
  destruct E7 as (s7 & E7 & H7).
  erewrite (bind_Ok (if is_split blk then _ else _)) in Hr by exact E7.
  cbn [ret] in Hr.
  (* marked allocated and active *)
  destruct (run_update_block nb (fun b => set_b_allocated b true) handed0 s7)
    as (s8 & E8 & H8); [rewrite H7; exact H6n |].
  erewrite (bind_Ok (update_block nb _)) in Hr by exact E8.
  unfold bind at 1, modify at 1 in Hr.
  set (s9 := set_active_blocks (active_blocks (this s8) ∪ {[nb]}) s8) in *.
  assert (H9 : heap (world s9) = heap (world s8)) by reflexivity.
  assert (H9a : nb ∈ active_blocks (this s9)).
  { subst s9. cbn. apply elem_of_union. right. apply elem_of_singleton. reflexivity. }
  clearbody s9.
  set (handed := set_b_allocated handed0 true) in *.
  assert (H9n : heap (world s9) !! nb = Some handed).
  { rewrite H9, H8. apply lookup_insert_eq. }
  assert (H9b : heap (world s9) !! p_block params = Some rest).
  { rewrite H9, H8, lookup_insert_ne by exact Hnb. rewrite H7. exact H6b. }
  erewrite (bind_Ok (load nb)) in Hr by (apply run_load; exact H9n).
  destruct (run_modify_stats
              (update_stats (p_stat_types params)
                 [(F_allocation, 1); (F_allocated_bytes, to_int64 (b_size handed));
                  (F_active, 1); (F_active_bytes, to_int64 (b_size handed))]) s9)
    as (s10 & E10 & H10).
  erewrite (bind_Ok (modify_stats _)) in Hr by exact E10.
  unfold bind at 1, CachingAllocatorConfig_max_split_size, gets in Hr.
  assert (E11 : exists s11,
            when (m_max_split_size (config (world s10)) <=? b_size handed)
              (modify_stats (fun d =>
                 set_oversize_allocations d (update_stat (oversize_allocations d) 1)))
              s10 = (Ok tt, s11) /\
            heap (world s11) = heap (world s10) /\
            active_blocks (this s11) = active_blocks (this s10)).
  { destruct (_ <=? _); eexists; repeat split. }
  destruct E11 as (s11 & E11 & H11 & H11a).
  erewrite (bind_Ok (when _ _)) in Hr by exact E11.
  unfold ret in Hr. subst r. cbn [fst snd].
  split; [reflexivity |].
  exists handed, rest. rewrite H11, H10, H11a.
  assert (Ha10 : active_blocks (this s10) = active_blocks (this s9)).
  { revert E10. unfold modify_stats, modify. intros [= <-]. reflexivity. }
  rewrite Ha10.
  repeat split; try assumption; try reflexivity.
Qed.

End Split.

Lemma malloc_finish_split_tiles_witness :
  let st0 := snd ((b <-- malloc sim_ops stat_types_false 0 1000 7 ;; free sim_ops b)
                    (init_state default_config (sim_driver (2 ^ 30)))) in
  let p := malloc_params 0 7 1536 stat_types_false in
  let st := snd (get_free_block p st0) in
  let params := set_p_block p 2 in
  let blk := new_Block 0 7 2097152 SmallPool 4096 in
  let r := malloc_finish 0 1536 7 SmallPool params st in
  heap (world st) !! p_block params = Some blk /\
  heap (world st) !! next_block (world st) = None /\
  fst r = Ok (next_block (world st), true) /\
  exists handed rest,
    heap (world (snd r)) !! next_block (world st) = Some handed /\
    heap (world (snd r)) !! p_block params = Some rest /\
    b_ptr handed = b_ptr blk /\ b_size handed = 1536 /\
    b_ptr rest = wrap64 (b_ptr blk + 1536) /\
    b_size rest = wrap64 (b_size blk - 1536) /\
    b_prev handed = b_prev blk /\ b_next handed = p_block params /\
    b_prev rest = next_block (world st) /\ b_next rest = b_next blk /\
    b_allocated handed = true /\ b_stream handed = 7 /\
    b_allocated rest = b_allocated blk /\
    next_block (world st) ∈ active_blocks (this (snd r)).
Proof.
  intros st0 p st params blk r.
  assert (Hblk : heap (world st) !! p_block params = Some blk) by (vm_compute; reflexivity).
  assert (Hfresh : heap (world st) !! next_block (world st) = None)
    by (vm_compute; reflexivity).
  split; [exact Hblk |]. split; [exact Hfresh |].
  apply (malloc_finish_split_tiles 0 1536 7 SmallPool params st blk).
  - discriminate.
  - exact Hblk.
  - reflexivity.
  - discriminate.
  - left. reflexivity.
  - exact Hfresh.
  - vm_compute. reflexivity.
Defined.

(** * Properties of the settings parser *)

Section Lexer.

#[local] Abbreviation chars := String.list_ascii_of_string.

Lemma chars_single (c : ascii) : chars (String c EmptyString) = [c].
Proof. reflexivity. Qed.

Lemma delimiter_not_space (c : ascii) : is_delimiter c = true -> c <> " "%char.
Proof. intros H ->. discriminate. Qed.

Lemma of_chars_not_empty (buf : list ascii) :
  buf <> [] -> String.string_of_list_ascii buf <> EmptyString.
Proof. destruct buf; [contradiction | discriminate]. Qed.

(** What the loop of [lexArgs] adds to its two vectors. *)
Lemma lexArgs_loop_spec (env : list ascii) :
  forall (buf : list ascii) (config : list string),
    let r := lexArgs_loop env buf config in
    (concat (map chars (snd r)) ++ fst r
     = concat (map chars config) ++ buf ++ filter (fun c => c <> " "%char) env) /\
    (Forall (fun c => c <> Ascii.zero) env ->
     Forall is_token config -> Forall is_word_char buf ->
     Forall is_token (snd r) /\ Forall is_word_char (fst r)).
Proof.
  induction env as [| c env IH]; intros buf config.
  - simpl. split; [rewrite app_nil_r; reflexivity | auto].
  - cbn [lexArgs_loop]. destruct (is_delimiter c) eqn:Hc.
    + pose proof (delimiter_not_space c Hc) as Hsp.
      rewrite filter_cons_True by exact Hsp.
      destruct (decide (buf = [])) as [-> | Hbuf].
      * rewrite bool_decide_eq_true_2 by reflexivity. cbn [negb].
        destruct (IH [] (config ++ [String c EmptyString])) as [IH1 IH2].
        split.
        -- rewrite IH1, map_app, concat_app. simpl. rewrite <- app_assoc. reflexivity.
        -- intros Henv Hcfg _. apply Forall_cons in Henv as [_ Henv].
           apply IH2; [exact Henv | | constructor].
           apply Forall_app. split; [exact Hcfg |].
           constructor; [| constructor]. left. exists c. split; [exact Hc | reflexivity].
      * rewrite bool_decide_eq_false_2 by exact Hbuf. cbn [negb].
        destruct (IH [] ((config ++ [String.string_of_list_ascii buf])
                           ++ [String c EmptyString])) as [IH1 IH2].
        split.
        -- rewrite IH1, !map_app, !concat_app. simpl.
           rewrite String.list_ascii_of_string_of_list_ascii, !app_nil_r, <- !app_assoc.
           reflexivity.
        -- intros Henv Hcfg Hb. apply Forall_cons in Henv as [_ Henv].
           apply IH2; [exact Henv | | constructor].
           apply Forall_app. split; [apply Forall_app; split; [exact Hcfg |] |].
           ++ constructor; [| constructor]. right. split.
              ** apply of_chars_not_empty. exact Hbuf.
              ** rewrite String.list_ascii_of_string_of_list_ascii. exact Hb.
           ++ constructor; [| constructor]. left. exists c. split; [exact Hc | reflexivity].
    + destruct (Ascii.eqb_spec c " "%char) as [-> | Hsp]; cbn [negb].
      * rewrite filter_cons_False by (intros H; apply H; reflexivity).
        destruct (IH buf config) as [IH1 IH2]. split; [exact IH1 |].
        intros Henv. apply Forall_cons in Henv as [_ Henv]. apply IH2. exact Henv.
      * rewrite filter_cons_True by exact Hsp.
        destruct (IH (buf ++ [c]) config) as [IH1 IH2]. split.
        -- rewrite IH1, <- !app_assoc. reflexivity.
        -- intros Henv Hcfg Hb. apply Forall_cons in Henv as [Hz Henv].
           apply IH2; [exact Henv | exact Hcfg |].
           apply Forall_app. split; [exact Hb |].
           constructor; [| constructor]. repeat split; assumption.
Qed.

Lemma c_str_no_NUL (env : list ascii) : Forall (fun c => c <> Ascii.zero) (c_str env).
Proof.
  induction env as [| c env IH]; [constructor |].
  cbn [c_str]. destruct (Ascii.eqb_spec c Ascii.zero); [constructor |].
  constructor; assumption.
Qed.

(** X16: [lexArgs] loses nothing but spaces.  For every string, the
    tokens put end to end are the characters of the string before its
    first NUL without the spaces, and every token is either a single
    delimiter (one of [,:[]]) or a non-empty word without delimiter and
    space. *)
Theorem lexArgs_loses_only_spaces (env : string) :
  concat (map String.list_ascii_of_string (lexArgs env []))
  = filter (fun c => c <> " "%char) (c_str (String.list_ascii_of_string env)) /\
  Forall is_token (lexArgs env []).
Proof.
  unfold lexArgs.
  pose proof (lexArgs_loop_spec (c_str (chars env)) [] []) as [H1 H2].
  specialize (H2 (c_str_no_NUL _) ltac:(constructor) ltac:(constructor)).
  destruct (lexArgs_loop (c_str (chars env)) [] []) as [buf config].
  cbn [fst snd] in *. destruct H2 as [Hcfg Hbuf].
  destruct (decide (buf = [])) as [-> | Hne].
  - rewrite bool_decide_eq_true_2 by reflexivity. cbn [negb].
    rewrite app_nil_r in H1. split; [exact H1 | exact Hcfg].
  - rewrite bool_decide_eq_false_2 by exact Hne. cbn [negb]. split.
    + rewrite map_app, concat_app. simpl.
      rewrite String.list_ascii_of_string_of_list_ascii, app_nil_r. exact H1.
    + apply Forall_app. split; [exact Hcfg |].
      constructor; [| constructor]. right. split.
      * apply of_chars_not_empty. exact Hne.
      * rewrite String.list_ascii_of_string_of_list_ascii. exact Hbuf.
Qed.

End Lexer.

Lemma parseMaxSplitSize_value_range (val1 m : Z) :
  0 <= val1 -> parseMaxSplitSize_value val1 = Some m ->
  m = Z.min val1 (SIZE_MAX / (1024 * 1024)) * (1024 * 1024) /\
  kLargeBuffer < m < 2 ^ 64 /\ m mod (1024 * 1024) = 0.
Proof.
  unfold parseMaxSplitSize_value.
  change (kLargeBuffer / (1024 * 1024)) with 20.
  change (SIZE_MAX / (1024 * 1024)) with 17592186044415.
  intros Hpos. destruct (Z.ltb_spec 20 val1) as [Hbig |]; [| discriminate].
  intros [= <-].
  rewrite Z.max_l by lia.
  set (v := Z.min val1 17592186044415).
  assert (Hv : 20 < v <= 17592186044415) by (subst v; lia).
  unfold wrap64.
  rewrite (Z.mod_small (v * 1024)) by lia.
  rewrite Z.mod_small by lia.
  split; [lia |]. split; [unfold kLargeBuffer; lia |].
  replace (v * 1024 * 1024) with (v * (1024 * 1024)) by lia.
  apply Z_mod_mult.
Qed.

Section ParserProperties.

Variable stoi : string -> option Z.
Variable stod : string -> option double.

Lemma consumeToken_keeps (config : list string) (i : nat) (c : ascii)
    (cfg : CachingAllocatorConfig) :
  (exists token, config !! i = Some token /\ token = String c EmptyString /\
                 consumeToken config i c cfg = POk tt cfg) \/
  consumeToken config i c cfg = PErr (ExpectedToken c) cfg.
Proof.
  unfold consumeToken. destruct (config !! i) as [token |]; [| right; reflexivity].
  destruct (String.eqb_spec token (String c EmptyString)) as [-> | _].
  - left. eexists. repeat split.
  - right. reflexivity.
Qed.

(** One option: the index moves two tokens on, the settings stay valid,
    and the error is one of the source. *)
Lemma parseMaxSplitSize_step (config : list string) (i : nat)
    (cfg : CachingAllocatorConfig) :
  valid_settings cfg ->
  match parseMaxSplitSize stoi config i cfg with
  | POk i' cfg' => i' = S (S i) /\ (i' < length config)%nat /\ valid_settings cfg'
  | PErr e _ => e <> LoopFuel
  end.
Proof.
  intros [Hm Hg]. unfold parseMaxSplitSize.
  destruct (consumeToken_keeps config (S i) ":"%char cfg)
    as [(tok & _ & _ & ->) | ->]; [| discriminate].
  destruct (config !! S (S i)) as [token |] eqn:Htok; [| discriminate].
  destruct (stoi token) as [v |]; [| discriminate].
  destruct (parseMaxSplitSize_value (wrap64 v)) as [m |] eqn:Hval; [| discriminate].
  split; [reflexivity |]. split; [apply lookup_lt_Some in Htok; exact Htok |].
  destruct (parseMaxSplitSize_value_range (wrap64 v) m) as (_ & Hr & Hmod).
  { unfold wrap64. apply Z.mod_pos_bound. lia. }
  { exact Hval. }
  split; [right; split; assumption | exact Hg].
Qed.

Lemma parseGarbageCollectionThreshold_step (config : list string) (i : nat)
    (cfg : CachingAllocatorConfig) :
  valid_settings cfg ->
  match parseGarbageCollectionThreshold stod config i cfg with
  | POk i' cfg' => i' = S (S i) /\ (i' < length config)%nat /\ valid_settings cfg'
  | PErr e _ => e <> LoopFuel
  end.
Proof.
  intros [Hm Hg]. unfold parseGarbageCollectionThreshold.
  destruct (consumeToken_keeps config (S i) ":"%char cfg)
    as [(tok & _ & _ & ->) | ->]; [| discriminate].
  destruct (config !! S (S i)) as [token |] eqn:Htok; [| discriminate].
  destruct (stod token) as [val1 |]; [| discriminate].
  destruct (double_positive val1) eqn:Hpos; cbn [negb]; [| discriminate].
  destruct (double_below_one val1) eqn:Hone; cbn [negb]; [| discriminate].
  split; [reflexivity |]. split; [apply lookup_lt_Some in Htok; exact Htok |].
  split; [exact Hm |]. right. cbn [m_garbage_collection_threshold].
  destruct val1 as [q | [|] |]; cbn in Hpos, Hone; try discriminate.
  cbn [double_value]. apply Z.ltb_lt in Hpos, Hone.
  unfold Qlt. cbn. split; lia.
Qed.

Lemma parseArgs_loop_spec (fuel : nat) (config : list string) :
  forall (i : nat) (cfg : CachingAllocatorConfig),
    (i <= length config)%nat ->
    (length config < fuel + i)%nat ->
    valid_settings cfg ->
    match parseArgs_loop stoi stod fuel config i cfg with
    | POk _ cfg' => valid_settings cfg'
    | PErr e _ => e <> LoopFuel
    end.
Proof.
  induction fuel as [| fuel IH]; intros i cfg Hi Hfuel Hcfg.
  - cbn [parseArgs_loop].
    (* no fuel: the index is past the end, which the source tests first *)
    exfalso. lia.
  - cbn [parseArgs_loop].
    destruct (config !! i) as [token |] eqn:Htok; [| exact Hcfg].
    assert (Hstep : match (if String.eqb token "max_split_size_mb"
                           then parseMaxSplitSize stoi config i cfg
                           else if String.eqb token "garbage_collection_threshold"
                                then parseGarbageCollectionThreshold stod config i cfg
                                else PErr (UnrecognizedOption token) cfg) with
                    | POk i' cfg' => i' = S (S i) /\ (i' < length config)%nat /\
                                     valid_settings cfg'
                    | PErr e _ => e <> LoopFuel
                    end).
    { destruct (String.eqb token "max_split_size_mb");
        [apply parseMaxSplitSize_step; exact Hcfg |].
      destruct (String.eqb token "garbage_collection_threshold");
        [apply parseGarbageCollectionThreshold_step; exact Hcfg | discriminate]. }
    destruct (if String.eqb token "max_split_size_mb" then _ else _) as [i' cfg' | e cfg'];
      [| exact Hstep].
    destruct Hstep as (-> & Hlt & Hcfg').
    destruct (Nat.ltb_spec (S (S i) + 1) (length config)).
    + destruct (consumeToken_keeps config (S (S (S i))) ","%char cfg')
        as [(tok & _ & _ & ->) | ->]; [| discriminate].
      apply IH; [lia | lia | exact Hcfg'].
    + apply IH; [lia | lia | exact Hcfg'].
Qed.

(** X17: [parseArgs] returns only valid settings, and its loop ends.
    Whatever [stoi] and [stod] answer and whatever the settings were
    before, a call that returns leaves [max_split_size] at its default or
    at a multiple of 1 MiB above [kLargeBuffer], and the threshold at its
    default or strictly between 0 and 1; and no call runs the loop beyond
    the tokens. *)
Theorem parseArgs_accepts_only_valid_settings (env : option string)
    (cfg0 : CachingAllocatorConfig) :
  match parseArgs stoi stod env cfg0 with
  | POk _ cfg => valid_settings cfg
  | PErr e _ => e <> LoopFuel
  end.
Proof.
  assert (Hdefault : valid_settings (mkConfig SIZE_MAX 0%Q)).
  { split; left; reflexivity. }
  unfold parseArgs. destruct env as [env |]; [| exact Hdefault].
  apply parseArgs_loop_spec; [lia | lia | exact Hdefault].
Qed.

End ParserProperties.

Section ParsedOptions.

Variable stoi : string -> option Z.
Variable stod : string -> option double.

#[local] Abbreviation chars := String.list_ascii_of_string.

Lemma chars_append (a b : string) : chars (a +:+ b) = chars a ++ chars b.
Proof. induction a as [| c a IH]; [reflexivity |]. simpl. rewrite IH. reflexivity. Qed.

Lemma c_str_app (l r : list ascii) :
  Forall (fun c => c <> Ascii.zero) l -> c_str (l ++ r) = l ++ c_str r.
Proof.
  induction 1 as [| c l Hc _ IH]; [reflexivity |].
  simpl. destruct (Ascii.eqb_spec c Ascii.zero); [contradiction |].
  rewrite IH. reflexivity.
Qed.

Lemma word_no_NUL (w : string) : is_word w -> Forall (fun c => c <> Ascii.zero) (chars w).
Proof. intros [_ H]. eapply Forall_impl; [exact H |]. intros c (_ & _ & Hz). exact Hz. Qed.

(** The loop of [lexArgs] over the characters of a word. *)
Lemma lexArgs_loop_word (w : list ascii) :
  forall (rest buf : list ascii) (config : list string),
    Forall is_word_char w ->
    lexArgs_loop (w ++ rest) buf config = lexArgs_loop rest (buf ++ w) config.
Proof.
  induction w as [| c w IH]; intros rest buf config Hw.
  - rewrite app_nil_r. reflexivity.
  - apply Forall_cons in Hw as [(Hd & Hsp & _) Hw].
    cbn [app lexArgs_loop]. rewrite Hd.
    destruct (Ascii.eqb_spec c " "%char); [contradiction |]. cbn [negb].
    rewrite IH by exact Hw. rewrite <- app_assoc. reflexivity.
Qed.

(** A word followed by a delimiter gives two tokens. *)
Lemma lexArgs_loop_word_delimiter (w : string) (c : ascii) (rest : list ascii)
    (config : list string) :
  is_word w -> is_delimiter c = true ->
  lexArgs_loop (chars w ++ c :: rest) [] config
  = lexArgs_loop rest [] (config ++ [w; String c EmptyString]).
Proof.
  intros [Hne Hw] Hc. rewrite lexArgs_loop_word by exact Hw.
  cbn [lexArgs_loop app]. rewrite Hc.
  assert (Hbuf : chars w <> []) by (destruct w; [contradiction | discriminate]).
  rewrite bool_decide_eq_false_2 by exact Hbuf. cbn [negb].
  rewrite String.string_of_list_ascii_of_string, <- app_assoc. reflexivity.
Qed.

Lemma lexArgs_loop_last_word (w : string) (config : list string) :
  is_word w -> lexArgs_loop (chars w) [] config = (chars w, config).
Proof.
  intros [_ Hw]. rewrite <- (app_nil_r (chars w)) at 1.
  rewrite lexArgs_loop_word by exact Hw. reflexivity.
Qed.

Lemma is_word_max_split_size_mb : is_word "max_split_size_mb".
Proof.
  split; [discriminate |].
  repeat (constructor; [split; [reflexivity | split; discriminate] |]). constructor.
Qed.

Lemma is_word_garbage_collection_threshold : is_word "garbage_collection_threshold".
Proof.
  split; [discriminate |].
  repeat (constructor; [split; [reflexivity | split; discriminate] |]). constructor.
Qed.

Lemma lexArgs_two_options (s t : string) :
  is_word s -> is_word t ->
  lexArgs ("max_split_size_mb:" +:+ s +:+ ",garbage_collection_threshold:" +:+ t) []
  = ["max_split_size_mb"; ":"; s; ","; "garbage_collection_threshold"; ":"; t]%string.
Proof.
  intros Hs Ht. unfold lexArgs.
  assert (Henv : chars ("max_split_size_mb:" +:+ s +:+ ",garbage_collection_threshold:" +:+ t)
                 = chars "max_split_size_mb" ++ ":"%char ::
                   chars s ++ ","%char ::
                   chars "garbage_collection_threshold" ++ ":"%char :: chars t).
  { rewrite !chars_append.
    change (chars "max_split_size_mb:") with (chars "max_split_size_mb" ++ [":"%char]).
    change (chars ",garbage_collection_threshold:")
      with (","%char :: chars "garbage_collection_threshold" ++ [":"%char]).
    rewrite <- !app_assoc. reflexivity. }
  rewrite Henv.
  assert (Hnz : Forall (fun c => c <> Ascii.zero)
                  (chars "max_split_size_mb" ++ ":"%char ::
                   chars s ++ ","%char ::
                   chars "garbage_collection_threshold" ++ ":"%char :: chars t)).
  { apply Forall_app. split; [apply word_no_NUL, is_word_max_split_size_mb |].
    constructor; [discriminate |].
    apply Forall_app. split; [apply word_no_NUL, Hs |].
    constructor; [discriminate |].
    apply Forall_app. split; [apply word_no_NUL, is_word_garbage_collection_threshold |].
    constructor; [discriminate |]. apply word_no_NUL, Ht. }
  rewrite <- (app_nil_r (_ ++ _)), c_str_app by exact Hnz.
  cbn [c_str]. rewrite app_nil_r.
  rewrite lexArgs_loop_word_delimiter
    by (first [exact is_word_max_split_size_mb | reflexivity]).
  rewrite lexArgs_loop_word_delimiter by (first [exact Hs | reflexivity]).
  rewrite lexArgs_loop_word_delimiter
    by (first [exact is_word_garbage_collection_threshold | reflexivity]).
  rewrite lexArgs_loop_last_word by exact Ht.
  assert (Hbuf : chars t <> []) by (destruct Ht as [Hne _]; destruct t; [contradiction | discriminate]).
  rewrite bool_decide_eq_false_2 by exact Hbuf. cbn [negb].
  rewrite String.string_of_list_ascii_of_string. reflexivity.
Qed.

(** X18: both options are read as written.  For a word [s] that [stoi]
    reads as a number [v] of MiB above 20 and below [2^44], and a word
    [t] that [stod] reads as a finite [q] strictly between 0 and 1,
    [parseArgs] on [max_split_size_mb:s,garbage_collection_threshold:t]
    returns with [max_split_size] at [v] MiB and the threshold at [q],
    whatever the settings were before. *)
Theorem parseArgs_reads_both_options (s t : string) (v : Z) (q : Q)
    (cfg0 : CachingAllocatorConfig)
    (Hs : is_word s) (Ht : is_word t)
    (Hstoi : stoi s = Some v) (Hv : 20 < v < 2 ^ 44)
    (Hstod : stod t = Some (Finite q)) (Hq : (0 < q /\ q < 1)%Q) :
  parseArgs stoi stod
    (Some ("max_split_size_mb:" +:+ s +:+ ",garbage_collection_threshold:" +:+ t)) cfg0
  = POk tt (mkConfig (v * (1024 * 1024)) q).
Proof.
  unfold parseArgs. rewrite lexArgs_two_options by assumption.
  assert (Hval : parseMaxSplitSize_value (wrap64 v) = Some (v * (1024 * 1024))).
  { assert (Hw : wrap64 v = v) by (unfold wrap64; apply Z.mod_small; lia).
    rewrite Hw.
    destruct (parseMaxSplitSize_value v) as [m |] eqn:Hm.
    - destruct (parseMaxSplitSize_value_range v m ltac:(lia) Hm) as (-> & _).
      change (SIZE_MAX / (1024 * 1024)) with 17592186044415.
      rewrite Z.min_l by lia. reflexivity.
    - unfold parseMaxSplitSize_value in Hm.
      change (kLargeBuffer / (1024 * 1024)) with 20 in Hm.
      destruct (Z.ltb_spec 20 v); [discriminate | lia]. }
  assert (Hpos : double_positive (Finite q) = true).
  { cbn. apply Z.ltb_lt. destruct Hq as [Hq0 _]. unfold Qlt in Hq0. cbn in Hq0. lia. }
  assert (Hone : double_below_one (Finite q) = true).
  { cbn. apply Z.ltb_lt. destruct Hq as [_ Hq1]. unfold Qlt in Hq1. cbn in Hq1. lia. }
  cbn [length parseArgs_loop lookup list_lookup].
  change (String.eqb "max_split_size_mb" "max_split_size_mb") with true. cbv iota.
  unfold parseMaxSplitSize, consumeToken. cbn [lookup list_lookup].
  change (String.eqb ":" (String ":" EmptyString)) with true. cbv iota.
  rewrite Hstoi, Hval.
  change (2 + 1 <? 7)%nat with true. cbv iota.
  unfold consumeToken. cbn [lookup list_lookup].
  change (String.eqb "," (String "," EmptyString)) with true. cbv iota.
  change (String.eqb "garbage_collection_threshold" "max_split_size_mb") with false.
  change (String.eqb "garbage_collection_threshold" "garbage_collection_threshold") with true.
  cbv iota.
  unfold parseGarbageCollectionThreshold, consumeToken. cbn [lookup list_lookup].
  change (String.eqb ":" (String ":" EmptyString)) with true. cbv iota.
  rewrite Hstod, Hpos, Hone. cbn [negb].
  change (6 + 1 <? 7)%nat with false. cbv iota.
  reflexivity.
Qed.

End ParsedOptions.

Lemma parseArgs_reads_both_options_witness :
  let stoi := fun s : string => if String.eqb s "32" then Some 32 else None in
  let stod := fun s : string => if String.eqb s "0.5" then Some (Finite (1 # 2)) else None in
  parseArgs stoi stod
    (Some ("max_split_size_mb:" +:+ "32" +:+ ",garbage_collection_threshold:" +:+ "0.5"))
    default_config
  = POk tt (mkConfig (32 * (1024 * 1024)) (1 # 2)).
Proof.
  intros stoi stod.
  apply (parseArgs_reads_both_options stoi stod "32" "0.5" 32 (1 # 2) default_config).
  - split; [discriminate |].
    repeat (constructor; [split; [reflexivity | split; discriminate] |]). constructor.
  - split; [discriminate |].
    repeat (constructor; [split; [reflexivity | split; discriminate] |]). constructor.
  - reflexivity.
  - lia.
  - reflexivity.
  - split; reflexivity.
Defined.

(** * Properties of the task queue and its threads *)

Section RingFifo.

Import Queue QueueThreads.

Context {Param : Type}.
Variable execFunc : Param -> Z.
Variable copyFunc : Param -> Param -> Param.

Lemma ring_positions_closed (n : nat) :
  forall start, 0 <= start < kQueueCapacity ->
    ring_positions start n
    = map (fun k => (start + Z.of_nat k) mod kQueueCapacity) (seq 0 n).
Proof.
  induction n as [| n IH]; intros start Hs; [reflexivity |].
  cbn [ring_positions seq map]. f_equal.
  - rewrite Z.add_0_r, Z.mod_small by exact Hs. reflexivity.
  - rewrite IH by (apply next_idx_range; exact Hs).
    rewrite <- seq_shift, map_map. apply map_ext. intros k.
    rewrite next_idx_mod by exact Hs.
    rewrite Zplus_mod_idemp_l. f_equal. lia.
Qed.

Lemma ring_positions_snoc (start : Z) (n : nat) :
  0 <= start < kQueueCapacity ->
  ring_positions start (S n)
  = ring_positions start n ++ [(start + Z.of_nat n) mod kQueueCapacity].
Proof.
  intros Hs. rewrite !ring_positions_closed by exact Hs.
  rewrite seq_S, map_app. reflexivity.
Qed.

Lemma ring_positions_range (start : Z) (n : nat) (i : Z) :
  0 <= start < kQueueCapacity -> i ∈ ring_positions start n ->
  0 <= i < kQueueCapacity.
Proof.
  intros Hs. rewrite ring_positions_closed by exact Hs.
  intros Hin. apply list_elem_of_fmap in Hin as (k & -> & _).
  apply Z.mod_pos_bound. reflexivity.
Qed.

Lemma ring_positions_fresh (start : Z) (n : nat) :
  0 <= start < kQueueCapacity -> Z.of_nat n < kQueueCapacity ->
  (start + Z.of_nat n) mod kQueueCapacity ∉ ring_positions start n.
Proof.
  intros Hs Hn. rewrite ring_positions_closed by exact Hs.
  intros Hin. apply list_elem_of_fmap in Hin as (k & Heq & Hk).
  apply elem_of_seq in Hk.
  assert (Hdiff : (Z.of_nat n - Z.of_nat k) mod kQueueCapacity = 0).
  { replace (Z.of_nat n - Z.of_nat k)
      with ((start + Z.of_nat n) - (start + Z.of_nat k)) by lia.
    rewrite Zminus_mod, Heq, Z.sub_diag. reflexivity. }
  rewrite Z.mod_small in Hdiff by lia. lia.
Qed.

Lemma pending_range (q : Repository Param) : 0 <= pending q < kQueueCapacity.
Proof. unfold pending. apply Z.mod_pos_bound. reflexivity. Qed.

Lemma pending_reaches_write (q : Repository Param) :
  ring_ok q -> (read_idx q + pending q) mod kQueueCapacity = write_idx q.
Proof.
  intros (Hr & Hw & _). unfold pending.
  rewrite Zplus_mod_idemp_r.
  replace (read_idx q + (write_idx q - read_idx q)) with (write_idx q) by lia.
  apply Z.mod_small. exact Hw.
Qed.

Lemma pending_empty (q : Repository Param) :
  ring_ok q -> (IsEmptyQueue q = true <-> pending q = 0).
Proof.
  intros (Hr & Hw & _). unfold IsEmptyQueue, pending.
  destruct (Z.eqb_spec (read_idx q) (write_idx q)) as [Heq | Hne].
  - rewrite Heq, Z.sub_diag. split; reflexivity.
  - split; [discriminate |]. intros H0. exfalso.
    unfold kQueueCapacity in *.
    destruct (Z.lt_ge_cases (write_idx q) (read_idx q)).
    + replace (write_idx q - read_idx q)
        with (write_idx q - read_idx q + 4096 + (-1) * 4096) in H0 by lia.
      rewrite Z.mod_add, Z.mod_small in H0 by lia. lia.
    + rewrite Z.mod_small in H0 by lia. lia.
Qed.

Lemma pending_after_write (q : Repository Param) :
  ring_ok q -> IsFullQueue q = false ->
  (next_idx (write_idx q) - read_idx q) mod kQueueCapacity = pending q + 1.
Proof.
  intros (Hr & Hw & Hlen) Hfull. unfold IsFullQueue in Hfull.
  apply Z.eqb_neq in Hfull. rewrite next_idx_mod in * by exact Hw.
  unfold pending.
  rewrite Zminus_mod_idemp_l.
  pose proof (pending_range q) as Hp. unfold pending in Hp.
  replace (write_idx q + 1 - read_idx q) with ((write_idx q - read_idx q) + 1) by lia.
  rewrite <- Zplus_mod_idemp_l.
  destruct (Z.eq_dec ((write_idx q - read_idx q) mod kQueueCapacity) (kQueueCapacity - 1))
    as [Hlast | Hnot].
  - exfalso. apply Hfull.
    assert (Hsum : (read_idx q + (write_idx q - read_idx q) mod kQueueCapacity)
                     mod kQueueCapacity = write_idx q).
    { apply (pending_reaches_write q). repeat split; assumption || apply Hr || apply Hw. }
    rewrite Hlast in Hsum.
    rewrite <- Hsum at 1.
    rewrite Zplus_mod_idemp_l.
    replace (read_idx q + (kQueueCapacity - 1) + 1) with (read_idx q + 1 * kQueueCapacity) by lia.
    rewrite Z.mod_add by discriminate. apply Z.mod_small. exact Hr.
  - apply Z.mod_small. lia.
Qed.

Lemma omap_cons {A B} (f : A -> option B) (x : A) (l : list A) :
  omap f (x :: l) = match f x with Some y => y :: omap f l | None => omap f l end.
Proof. reflexivity. Qed.

Lemma omap_same {A B} (f g : A -> option B) (l : list A) :
  (forall x, x ∈ l -> f x = g x) -> omap f l = omap g l.
Proof.
  induction l as [| x l IH]; intros H; [reflexivity |].
  rewrite !omap_cons. rewrite (H x) by apply list_elem_of_here.
  rewrite IH by (intros y Hy; apply H, list_elem_of_further, Hy). reflexivity.
Qed.

(** A record written goes to the back of the waiting records. *)
Lemma WriteQueue_appends (x : Param) (q : Repository Param) :
  ring_ok q -> IsFullQueue q = false ->
  exists dst q',
    datas q !! Z.to_nat (write_idx q) = Some dst /\
    WriteQueue copyFunc x q = (true, q') /\
    ring_ok q' /\
    ring_contents q' = ring_contents q ++ [copyFunc dst x] /\
    read_idx q' = read_idx q /\
    calls q' = calls q ++ [CbCopy (write_idx q)].
Proof.
  intros Hok Hfull. pose proof Hok as (Hr & Hw & Hlen).
  assert (Hslot : (Z.to_nat (write_idx q) < length (datas q))%nat).
  { rewrite Hlen. unfold kQueueCapacity in *. lia. }
  destruct (lookup_lt_is_Some_2 _ _ Hslot) as [dst Hdst].
  exists dst. eexists. split; [exact Hdst |].
  unfold WriteQueue. rewrite Hfull. cbn [record_call datas write_idx].
  rewrite Hdst. split; [reflexivity |].
  split; [| split; [| split; reflexivity]].
  - unfold ring_ok.
    cbn [read_idx write_idx datas set_write_idx set_datas record_call].
    repeat split; try apply Hr; try apply (next_idx_range _ Hw).
    rewrite length_insert. exact Hlen.
  - unfold ring_contents. unfold pending at 1.
    cbn [read_idx write_idx datas set_write_idx set_datas record_call].
    rewrite (pending_after_write q Hok Hfull).
    pose proof (pending_range q) as Hp.
    replace (Z.to_nat (pending q + 1)) with (S (Z.to_nat (pending q))) by lia.
    rewrite ring_positions_snoc by exact Hr.
    rewrite Z2Nat.id by lia. rewrite (pending_reaches_write q Hok).
    rewrite omap_app. f_equal.
    + apply omap_same. intros i Hi.
      apply list_lookup_insert_ne.
      assert (Hirange := ring_positions_range _ _ _ Hr Hi).
      intros Heq. apply Z2Nat.inj in Heq; [| lia | lia]. subst i.
      revert Hi. rewrite <- (pending_reaches_write q Hok) at 1.
      rewrite <- (Z2Nat.id (pending q)) at 1 by lia.
      apply ring_positions_fresh; [exact Hr |].
      assert (pending q + 1 < kQueueCapacity \/ pending q + 1 = kQueueCapacity) as [H1 | H1] by lia.
      * lia.
      * exfalso. pose proof (pending_after_write q Hok Hfull) as Hnext.
        assert (0 <= (next_idx (write_idx q) - read_idx q) mod kQueueCapacity < kQueueCapacity)
          by (apply Z.mod_pos_bound; reflexivity).
        lia.
    + rewrite omap_cons. rewrite list_lookup_insert_eq by exact Hslot. reflexivity.
Qed.

Lemma ReadQueue_empty (q : Repository Param) :
  IsEmptyQueue q = true -> ReadQueue execFunc q = (Returned false, q).
Proof. intros H. unfold ReadQueue. rewrite H. reflexivity. Qed.

Lemma ReadQueue_no_record (q : Repository Param) :
  IsEmptyQueue q = false -> datas q !! Z.to_nat (read_idx q) = None ->
  ReadQueue execFunc q = (NoReturn, q).
Proof. intros H1 H2. unfold ReadQueue. rewrite H1, H2. reflexivity. Qed.

Lemma ReadQueue_failure_result (q : Repository Param) (record : Param) :
  IsEmptyQueue q = false -> datas q !! Z.to_nat (read_idx q) = Some record ->
  execFunc record <> 0 ->
  fst (ReadQueue execFunc q) <> Returned true.
Proof.
  intros Hempty Hrec Hexec. unfold ReadQueue. rewrite Hempty, Hrec.
  destruct (Z.eqb_spec (execFunc record) 0) as [? | _]; [contradiction |].
  cbn [negb]. destruct (drain _ _); discriminate.
Qed.

(** A successful read executes the oldest waiting record and takes it
    out. *)
Lemma ReadQueue_takes_oldest (q q' : Repository Param) :
  ring_ok q -> ReadQueue execFunc q = (Returned true, q') ->
  exists record,
    ring_contents q = record :: ring_contents q' /\
    execFunc record = 0 /\
    ring_ok q' /\
    write_idx q' = write_idx q /\
    read_idx q' = next_idx (read_idx q) /\
    calls q' = calls q ++ [CbExec (read_idx q); CbRelease (read_idx q)] /\
    repo_status q' = repo_status q /\ need_empty q' = need_empty q /\
    initialized q' = initialized q /\ write_working q' = write_working q /\
    efd_empty_counter q' = efd_empty_counter q.
Proof.
  intros Hok Hread. pose proof Hok as (Hr & Hw & Hlen).
  destruct (IsEmptyQueue q) eqn:Hempty;
    [rewrite ReadQueue_empty in Hread by exact Hempty; discriminate |].
  destruct (datas q !! Z.to_nat (read_idx q)) as [record |] eqn:Hrec;
    [| rewrite ReadQueue_no_record in Hread by assumption; discriminate].
  destruct (Z.eq_dec (execFunc record) 0) as [Hexec | Hexec].
  - rewrite (ReadQueue_success execFunc q record Hempty Hrec Hexec) in Hread.
    injection Hread as <-. exists record.
    assert (Hne : read_idx q <> write_idx q).
    { unfold IsEmptyQueue in Hempty. apply Z.eqb_neq. exact Hempty. }
    split; [| split; [exact Hexec |]].
    + unfold ring_contents, pending.
      cbn [read_idx write_idx datas set_read_idx record_call].
      rewrite (pending_next (read_idx q) (write_idx q) Hr Hw Hne).
      fold (pending q).
      assert (Hp : 0 < pending q).
      { pose proof (pending_range q) as Hrange.
        pose proof (proj2 (pending_empty q Hok)) as Hzero.
        destruct (Z.eq_dec (pending q) 0) as [Hp0 | Hp0]; [| lia].
        rewrite (Hzero Hp0) in Hempty. discriminate. }
      replace (Z.to_nat (pending q)) with (S (Z.to_nat (pending q - 1))) by lia.
      cbn [ring_positions]. rewrite omap_cons, Hrec. reflexivity.
    + unfold ring_ok.
      cbn [read_idx write_idx datas calls repo_status need_empty initialized
           write_working efd_empty_counter set_read_idx record_call].
      rewrite <- app_assoc.
      repeat split; try apply Hw; try apply (next_idx_range _ Hr); try exact Hlen.
  - exfalso. apply (ReadQueue_failure_result q record Hempty Hrec Hexec).
    rewrite Hread. reflexivity.
Qed.

Lemma ReadQueue_not_no (q : Repository Param) (record : Param) :
  IsEmptyQueue q = false -> datas q !! Z.to_nat (read_idx q) = Some record ->
  fst (ReadQueue execFunc q) <> Returned false.
Proof.
  intros Hempty Hrec. unfold ReadQueue. rewrite Hempty, Hrec.
  destruct (negb (execFunc record =? 0)); [| discriminate].
  destruct (drain _ _); discriminate.
Qed.

Lemma ring_contents_count (q : Repository Param) :
  ring_ok q -> length (ring_contents q) = Z.to_nat (pending q).
Proof.
  intros (Hr & Hw & Hlen). unfold ring_contents.
  assert (Hall : forall l, (forall i, i ∈ l -> 0 <= i < kQueueCapacity) ->
            length (omap (fun i => datas q !! Z.to_nat i) l) = length l).
  { induction l as [| i l IH]; intros Hl; [reflexivity |].
    rewrite omap_cons.
    destruct (lookup_lt_is_Some_2 (datas q) (Z.to_nat i)) as [rec Hrec].
    { rewrite Hlen. specialize (Hl i (list_elem_of_here _ _)).
      unfold kQueueCapacity in *. lia. }
    rewrite Hrec. cbn. rewrite IH; [reflexivity |].
    intros j Hj. apply Hl, list_elem_of_further, Hj. }
  rewrite Hall.
  - rewrite ring_positions_closed by exact Hr. rewrite length_map, length_seq. reflexivity.
  - intros i. apply ring_positions_range. exact Hr.
Qed.

Lemma ring_full_count (q : Repository Param) :
  ring_ok q -> (IsFullQueue q = true <-> length (ring_contents q) = 4095%nat).
Proof.
  intros Hok. pose proof Hok as (Hr & Hw & Hlen).
  pose proof (pending_range q) as Hp.
  rewrite (ring_contents_count q Hok). unfold IsFullQueue.
  destruct (Z.eqb_spec (next_idx (write_idx q)) (read_idx q)) as [Hfull | Hnot].
  - split; [intros _ | reflexivity].
    assert (pending q = kQueueCapacity - 1); [| unfold kQueueCapacity in *; lia].
    unfold pending. rewrite <- Hfull, next_idx_mod by exact Hw.
    unfold kQueueCapacity in *.
    destruct (Z.eq_dec (write_idx q) 4095) as [-> | Hlast].
    + reflexivity.
    + rewrite (Z.mod_small (write_idx q + 1)) by lia.
      replace (write_idx q - (write_idx q + 1)) with (4095 + (-1) * 4096) by lia.
      rewrite Z.mod_add by lia. reflexivity.
  - split; [discriminate | intros Hfull]. exfalso.
    assert (Hnf : IsFullQueue q = false) by (unfold IsFullQueue; apply Z.eqb_neq; exact Hnot).
    pose proof (pending_after_write q Hok Hnf) as Hnext.
    assert (0 <= (next_idx (write_idx q) - read_idx q) mod kQueueCapacity < kQueueCapacity)
      by (apply Z.mod_pos_bound; reflexivity).
    unfold kQueueCapacity in *. lia.
Qed.

Lemma ring_empty_contents (q : Repository Param) :
  ring_ok q -> (IsEmptyQueue q = true <-> ring_contents q = []).
Proof.
  intros Hok. pose proof (pending_range q) as Hp.
  pose proof (ring_contents_count q Hok) as Hcount.
  rewrite (pending_empty q Hok). split.
  - intros H0. apply length_zero_iff_nil. rewrite Hcount, H0. reflexivity.
  - intros Hnil. rewrite Hnil in Hcount. simpl in Hcount. lia.
Qed.

(** The oldest waiting record is the one in the slot at the read index. *)
Lemma ring_contents_head (q : Repository Param) (record : Param) (rest : list Param) :
  ring_ok q -> ring_contents q = record :: rest ->
  IsEmptyQueue q = false /\ datas q !! Z.to_nat (read_idx q) = Some record.
Proof.
  intros Hok Hcont. pose proof Hok as (Hr & Hw & Hlen).
  assert (Hempty : IsEmptyQueue q = false).
  { destruct (IsEmptyQueue q) eqn:E; [| reflexivity].
    apply (ring_empty_contents q Hok) in E. rewrite E in Hcont. discriminate. }
  split; [exact Hempty |].
  pose proof (pending_range q) as Hp.
  assert (Hpos : 0 < pending q).
  { destruct (Z.eq_dec (pending q) 0) as [H0 | H0]; [| lia].
    apply (pending_empty q Hok) in H0. rewrite H0 in Hempty. discriminate. }
  unfold ring_contents in Hcont.
  replace (Z.to_nat (pending q)) with (S (Z.to_nat (pending q - 1))) in Hcont by lia.
  cbn [ring_positions] in Hcont. rewrite omap_cons in Hcont.
  destruct (lookup_lt_is_Some_2 (datas q) (Z.to_nat (read_idx q))) as [rec Hrec].
  { rewrite Hlen. unfold kQueueCapacity in *. lia. }
  rewrite Hrec in Hcont |- *. injection Hcont as -> _. reflexivity.
Qed.

(** X19: the task ring is a first-in first-out queue holding at most 4095
    records.  On a well-formed ring, [WriteQueue] refuses, and changes
    nothing, exactly when 4095 records wait; otherwise it accepts and puts
    the record the copy callback makes at the back of the waiting
    records.  [ReadQueue] answers no, and changes nothing, exactly when
    no record waits; when one waits it executes the oldest, and if that
    succeeds it answers yes, has released that record and taken it out,
    and the others wait in the same order; if the execution fails it does
    not answer yes. *)
Theorem task_ring_is_fifo (q : Repository Param) (Hok : ring_ok q) :
  (length (ring_contents q) <= 4095)%nat /\
  (forall x,
     length (ring_contents q) = 4095%nat -> WriteQueue copyFunc x q = (false, q)) /\
  (forall x,
     length (ring_contents q) <> 4095%nat ->
     exists dst q',
       datas q !! Z.to_nat (write_idx q) = Some dst /\
       WriteQueue copyFunc x q = (true, q') /\ ring_ok q' /\
       ring_contents q' = ring_contents q ++ [copyFunc dst x]) /\
  (ring_contents q = [] -> ReadQueue execFunc q = (Returned false, q)) /\
  (forall record rest,
     ring_contents q = record :: rest ->
     fst (ReadQueue execFunc q) <> Returned false /\
     (execFunc record = 0 ->
      exists q',
        ReadQueue execFunc q = (Returned true, q') /\ ring_ok q' /\
        ring_contents q' = rest /\
        calls q' = calls q ++ [CbExec (read_idx q); CbRelease (read_idx q)]) /\
     (execFunc record <> 0 -> fst (ReadQueue execFunc q) <> Returned true)) /\
  (IsFullQueue q = true <-> length (ring_contents q) = 4095%nat) /\
  (IsEmptyQueue q = true <-> ring_contents q = []).
Proof.
  pose proof (ring_full_count q Hok) as Hfull.
  pose proof (ring_empty_contents q Hok) as Hempty.
  split; [| split; [| split; [| split; [| split; [| split]]]]].
  - rewrite (ring_contents_count q Hok). pose proof (pending_range q) as Hp.
    unfold kQueueCapacity in Hp. lia.
  - intros x Hlen. apply Hfull in Hlen. unfold WriteQueue. rewrite Hlen. reflexivity.
  - intros x Hlen.
    assert (Hnf : IsFullQueue q = false).
    { destruct (IsFullQueue q); [| reflexivity]. exfalso. apply Hlen, Hfull. reflexivity. }
    destruct (WriteQueue_appends x q Hok Hnf) as (dst & q' & H1 & H2 & H3 & H4 & _).
    exists dst, q'. split; [exact H1 | split; [exact H2 | split; [exact H3 | exact H4]]].
  - intros Hnil. apply ReadQueue_empty. apply Hempty. exact Hnil.
  - intros record rest Hcont.
    destruct (ring_contents_head q record rest Hok Hcont) as [Hne Hrec].
    split; [exact (ReadQueue_not_no q record Hne Hrec) |]. split.
    + intros Hexec.
      pose proof (ReadQueue_success execFunc q record Hne Hrec Hexec) as Hread.
      destruct (ReadQueue_takes_oldest q _ Hok Hread)
        as (record' & Hc & _ & Hok' & _ & _ & Hcalls & _).
      eexists. split; [exact Hread |]. split; [exact Hok' |].
      split; [| exact Hcalls].
      rewrite Hcont in Hc. injection Hc as _ <-. reflexivity.
    + intros Hexec. exact (ReadQueue_failure_result q record Hne Hrec Hexec).
  - exact Hfull.
  - exact Hempty.
Qed.

End RingFifo.

Lemma task_ring_is_fifo_witness :
  let exec := fun _ : Z => 0 in
  let copy := fun _ x : Z => x in
  let q := snd (Queue.WriteQueue copy 5 (Queue.init_repo 0 3)) in
  QueueThreads.ring_ok q /\
  QueueThreads.ring_contents q = [5] /\
  (exists q', Queue.ReadQueue exec q = (Queue.Returned true, q') /\
              QueueThreads.ring_contents q' = []) /\
  (exists q', Queue.WriteQueue copy 6 q = (true, q') /\
              QueueThreads.ring_contents q' = [5; 6]).
Proof.
  intros exec copy q.
  assert (Hok : QueueThreads.ring_ok q).
  { repeat split; try reflexivity; try discriminate. }
  assert (Hcont : QueueThreads.ring_contents q = [5]) by (vm_compute; reflexivity).
  destruct (task_ring_is_fifo exec copy q Hok) as (_ & _ & Hwrite & _ & Hread & _).
  split; [exact Hok |]. split; [exact Hcont |]. split.
  - destruct (Hread 5 [] Hcont) as (_ & Hyes & _).
    destruct (Hyes eq_refl) as (q' & Hrun & _ & Hrest & _).
    exists q'. split; [exact Hrun | exact Hrest].
  - destruct (Hwrite 6) as (dst & q' & Hdst & Hrun & _ & Hafter).
    { rewrite Hcont. discriminate. }
    exists q'. split; [exact Hrun |].
    rewrite Hafter, Hcont.
    assert (Hslot : Queue.datas q !! Z.to_nat (Queue.write_idx q) = Some 0)
      by (vm_compute; reflexivity).
    rewrite Hslot in Hdst. injection Hdst as <-. reflexivity.
Defined.

Section ConsumerThread.

Import Queue QueueThreads.

Context {Param : Type}.
Variable execFunc : Param -> Z.

Ltac fields :=
  cbn [datas read_idx read_working write_idx write_working need_empty repo_status
       initialized efd_read efd_write efd_empty efd_read_counter efd_write_counter
       efd_empty_counter calls set_datas set_read_idx SetReadWorking set_write_idx
       SetWriteWorking set_repo_status set_fds set_counters record_call
       set_need_empty eventfd_write_read eventfd_write_write eventfd_write_empty].

(** The oldest waiting record is the one at the read index. *)
Lemma ring_head (q : Repository Param) :
  ring_ok q -> IsEmptyQueue q = false ->
  exists record,
    datas q !! Z.to_nat (read_idx q) = Some record /\
    ring_contents q = record :: ring_contents (set_read_idx (next_idx (read_idx q)) q).
Proof.
  intros Hok Hempty. pose proof Hok as (Hr & Hw & Hlen).
  destruct (lookup_lt_is_Some_2 (datas q) (Z.to_nat (read_idx q))) as [record Hrec].
  { rewrite Hlen. unfold kQueueCapacity in *. lia. }
  exists record. split; [exact Hrec |].
  assert (Hne : read_idx q <> write_idx q).
  { unfold IsEmptyQueue in Hempty. apply Z.eqb_neq. exact Hempty. }
  unfold ring_contents. unfold pending at 2. fields.
  rewrite (pending_next (read_idx q) (write_idx q) Hr Hw Hne). fold (pending q).
  assert (Hp : 0 < pending q).
  { pose proof (pending_range q) as Hrange.
    pose proof (proj2 (pending_empty q Hok)) as Hzero.
    destruct (Z.eq_dec (pending q) 0) as [Hp0 | Hp0]; [| lia].
    rewrite (Hzero Hp0) in Hempty. discriminate. }
  replace (Z.to_nat (pending q)) with (S (Z.to_nat (pending q - 1))) by lia.
  cbn [ring_positions]. rewrite omap_cons, Hrec. reflexivity.
Qed.

Lemma ring_same (q q' : Repository Param) :
  datas q' = datas q -> read_idx q' = read_idx q -> write_idx q' = write_idx q ->
  ring_contents q' = ring_contents q /\ (ring_ok q -> ring_ok q') /\
  IsEmptyQueue q' = IsEmptyQueue q.
Proof.
  intros Hd Hr Hw. unfold ring_contents, ring_ok, pending, IsEmptyQueue.
  rewrite Hd, Hr, Hw. repeat split; tauto.
Qed.

(** What the two notifications at the end of a round of [Dequeue]
    (lines 372-391) change. *)
Lemma notify_fields (q1 : Repository Param) :
  let q2 :=
    SetReadWorking false
      (let q := if need_empty q1 && IsEmptyQueue q1 then eventfd_write_empty q1 else q1 in
       if negb (write_working q) then eventfd_write_write q else q) in
  datas q2 = datas q1 /\ read_idx q2 = read_idx q1 /\ write_idx q2 = write_idx q1 /\
  calls q2 = calls q1 /\ repo_status q2 = repo_status q1 /\
  initialized q2 = initialized q1 /\ need_empty q2 = need_empty q1 /\
  efd_read_counter q2 = efd_read_counter q1 /\
  efd_empty_counter q2
  = efd_empty_counter q1 + (if need_empty q1 && IsEmptyQueue q1 then 1 else 0).
Proof.
  destruct q1 as [d r rw w ww ne st ini f1 f2 f3 c1 c2 c3 cl].
  unfold IsEmptyQueue. fields.
  destruct ne, (r =? w), ww; cbn; repeat split; try reflexivity; lia.
Qed.

(** One call of [Dequeue] on a ring with a waiting record whose execution
    succeeds. *)
Lemma Dequeue_executes_one (q : Repository Param) :
  ring_ok q -> initialized q = true -> repo_status q <> CAN_EXIT ->
  IsEmptyQueue q = false ->
  (forall record, datas q !! Z.to_nat (read_idx q) = Some record -> execFunc record = 0) ->
  exists record q',
    Dequeue execFunc q = (DequeueReturned, q') /\
    ring_contents q = record :: ring_contents q' /\
    ring_ok q' /\ initialized q' = true /\ repo_status q' = repo_status q /\
    read_idx q' = next_idx (read_idx q) /\
    calls q' = calls q ++ [CbExec (read_idx q); CbRelease (read_idx q)] /\
    need_empty q' = need_empty q /\
    efd_read_counter q' = efd_read_counter q /\
    efd_empty_counter q'
    = efd_empty_counter q + (if need_empty q && IsEmptyQueue q' then 1 else 0).
Proof.
  intros Hok Hinit Hstatus Hempty Hexec. pose proof Hok as (Hr & Hw & Hlen).
  destruct (ring_head q Hok Hempty) as (record & Hrec & Hcontents).
  set (q1 := set_read_idx (next_idx (read_idx q))
               (record_call (CbRelease (read_idx q))
                  (record_call (CbExec (read_idx q)) (SetReadWorking true q)))).
  pose proof (notify_fields q1) as Hn. cbv zeta in Hn.
  set (q2 := SetReadWorking false
               (if negb (write_working
                           (if need_empty q1 && IsEmptyQueue q1
                            then eventfd_write_empty q1 else q1))
                then eventfd_write_write
                       (if need_empty q1 && IsEmptyQueue q1
                        then eventfd_write_empty q1 else q1)
                else if need_empty q1 && IsEmptyQueue q1
                     then eventfd_write_empty q1 else q1)) in *.
  destruct Hn as (Hd & Hri & Hwi & Hc & Hs & Hi & Hne & Hrc & Hec).
  exists record, q2. split.
  - unfold Dequeue. rewrite Hinit. cbn [negb Dequeue_loop].
    rewrite bool_decide_eq_false_2 by exact Hstatus.
    rewrite (ReadQueue_success execFunc (SetReadWorking true q) record Hempty Hrec
               (Hexec record Hrec)).
    reflexivity.
  - destruct (ring_same (set_read_idx (next_idx (read_idx q)) q) q2)
      as (Hsame & Hok2 & Hempty2).
    { rewrite Hd. reflexivity. }
    { rewrite Hri. reflexivity. }
    { rewrite Hwi. reflexivity. }
    assert (Hempty12 : IsEmptyQueue q1 = IsEmptyQueue q2).
    { rewrite Hempty2. reflexivity. }
    split; [rewrite Hsame; exact Hcontents |].
    split.
    { apply Hok2. unfold ring_ok. fields.
      repeat split; try apply Hw; try apply (next_idx_range _ Hr); exact Hlen. }
    split; [rewrite Hi; exact Hinit |].
    split; [rewrite Hs; reflexivity |].
    split; [rewrite Hri; reflexivity |].
    split; [rewrite Hc; subst q1; fields; rewrite <- app_assoc; reflexivity |].
    split; [rewrite Hne; reflexivity |].
    split; [rewrite Hrc; reflexivity |].
    rewrite Hec, Hempty12. reflexivity.
Qed.

Lemma ring_contents_length (q : Repository Param) :
  ring_ok q -> length (ring_contents q) = Z.to_nat (pending q).
Proof.
  intros (Hr & Hw & Hlen). unfold ring_contents.
  assert (Hall : forall l, (forall i, i ∈ l -> 0 <= i < kQueueCapacity) ->
            length (omap (fun i => datas q !! Z.to_nat i) l) = length l).
  { induction l as [| i l IH]; intros Hl; [reflexivity |].
    rewrite omap_cons.
    destruct (lookup_lt_is_Some_2 (datas q) (Z.to_nat i)) as [rec Hrec].
    { rewrite Hlen. specialize (Hl i (list_elem_of_here _ _)).
      unfold kQueueCapacity in *. lia. }
    rewrite Hrec. cbn [length]. rewrite IH; [reflexivity |].
    intros j Hj. apply Hl, list_elem_of_further, Hj. }
  rewrite Hall.
  - rewrite ring_positions_closed by exact Hr. rewrite length_map, length_seq. reflexivity.
  - intros i. apply ring_positions_range. exact Hr.
Qed.

Lemma IsEmptyQueue_no_contents (q : Repository Param) :
  ring_ok q -> (IsEmptyQueue q = true <-> ring_contents q = []).
Proof.
  intros Hok. rewrite (pending_empty q Hok).
  pose proof (ring_contents_length q Hok) as Hcount.
  pose proof (pending_range q) as Hp. split.
  - intros H0. apply length_zero_iff_nil. rewrite Hcount, H0. reflexivity.
  - intros Hnil. rewrite Hnil in Hcount. simpl in Hcount. lia.
Qed.

(** The consumer executes the waiting records one per round. *)
Lemma consume_rounds (n : nat) :
  forall (q : Repository Param) (k : nat),
    ring_ok q -> initialized q = true -> repo_status q <> CAN_EXIT ->
    length (ring_contents q) = n ->
    Forall (fun record => execFunc record = 0) (ring_contents q) ->
    exists q',
      StartConsume_loop execFunc (n + k) q = StartConsume_loop execFunc k q' /\
      ring_ok q' /\ initialized q' = true /\ repo_status q' = repo_status q /\
      ring_contents q' = [] /\
      calls q' = calls q ++ executes (ring_positions (read_idx q) n) /\
      need_empty q' = need_empty q /\
      efd_read_counter q' = efd_read_counter q /\
      efd_empty_counter q'
      = efd_empty_counter q + (if need_empty q && (0 <? Z.of_nat n) then 1 else 0).
Proof.
  induction n as [| n IH]; intros q k Hok Hinit Hstatus Hlen Hexec.
  - exists q. apply length_zero_iff_nil in Hlen.
    cbn [ring_positions executes flat_map Nat.add].
    rewrite andb_false_r, Z.add_0_r, app_nil_r.
    split; [reflexivity |]. split; [exact Hok |]. split; [exact Hinit |].
    split; [reflexivity |]. split; [exact Hlen |]. repeat split; reflexivity.
  - assert (Hempty : IsEmptyQueue q = false).
    { destruct (IsEmptyQueue q) eqn:E; [| reflexivity].
      apply (IsEmptyQueue_no_contents q Hok) in E. rewrite E in Hlen. discriminate. }
    destruct (Dequeue_executes_one q Hok Hinit Hstatus Hempty)
      as (record & q1 & Hdq & Hcont & Hok1 & Hinit1 & Hst1 & Hri1 & Hc1 & Hne1 & Hrc1 & Hec1).
    { intros record Hrec.
      destruct (ring_head q Hok Hempty) as (record' & Hrec' & Hcont').
      rewrite Hrec in Hrec'. injection Hrec' as <-.
      rewrite Hcont' in Hexec. apply Forall_cons in Hexec as [Hhead _]. exact Hhead. }
    rewrite Hcont in Hlen, Hexec. cbn [length] in Hlen. injection Hlen as Hlen.
    apply Forall_cons in Hexec as [_ Hexec].
    destruct (IH q1 k Hok1 Hinit1 ltac:(rewrite Hst1; exact Hstatus) Hlen Hexec)
      as (q' & Hrun & Hok' & Hinit' & Hst' & Hcont' & Hc' & Hne' & Hrc' & Hec').
    exists q'. split.
    { cbn [Nat.add StartConsume_loop]. unfold GetStatus.
      rewrite bool_decide_eq_false_2 by exact Hstatus. rewrite Hdq. exact Hrun. }
    split; [exact Hok' |]. split; [exact Hinit' |].
    split; [rewrite Hst'; exact Hst1 |]. split; [exact Hcont' |].
    split.
    { rewrite Hc', Hc1, Hri1, <- app_assoc. reflexivity. }
    split; [rewrite Hne'; exact Hne1 |]. split; [rewrite Hrc'; exact Hrc1 |].
    rewrite Hec', Hec1, Hne1.
    assert (Hcases : IsEmptyQueue q1 = negb (0 <? Z.of_nat n)).
    { destruct n as [| n].
      - apply length_zero_iff_nil in Hlen.
        apply (IsEmptyQueue_no_contents q1 Hok1). exact Hlen.
      - destruct (IsEmptyQueue q1) eqn:E; [| reflexivity].
        apply (IsEmptyQueue_no_contents q1 Hok1) in E. rewrite E in Hlen. discriminate. }
    rewrite Hcases.
    destruct (need_empty q), (0 <? Z.of_nat n) eqn:Hn; cbn [andb negb];
      replace (0 <? Z.of_nat (S n)) with true by (symmetry; apply Z.ltb_lt; lia); lia.
Qed.

(** X20: at exit the consumer first runs every waiting task.  After the
    destructor has asked for the exit, the loop of [StartConsume], on a
    well-formed ring whose waiting records all execute with success,
    executes and releases every waiting record in ring order, then sets
    the status to [CAN_EXIT] and ends, leaving the ring empty. *)
Theorem consumer_runs_pending_tasks_before_exit (q : Repository Param)
    (Hok : ring_ok q) (Hinit : initialized q = true)
    (Hexec : Forall (fun record => execFunc record = 0) (ring_contents q)) :
  let n := length (ring_contents q) in
  let q1 := Repository_destructor_request true q in
  exists q',
    StartConsume_loop execFunc (n + 2) q1 = (DequeueReturned, q') /\
    repo_status q' = CAN_EXIT /\
    ring_contents q' = [] /\
    calls q' = calls q ++ executes (ring_positions (read_idx q) n).
Proof.
  intros n q1.
  assert (Hq1 : q1 = eventfd_write_read (set_repo_status NEED_EXIT q)).
  { subst q1. unfold Repository_destructor_request, SetStatus. rewrite Hinit. reflexivity. }
  destruct (ring_same q q1) as (Hsame & Hok1 & _); try (rewrite Hq1; reflexivity).
  destruct (consume_rounds n q1 2) as (q2 & Hrun & Hok2 & Hinit2 & Hst2 & Hcont2 & Hc2 & _).
  - exact (Hok1 Hok).
  - rewrite Hq1. exact Hinit.
  - rewrite Hq1. discriminate.
  - rewrite Hsame. reflexivity.
  - rewrite Hsame. exact Hexec.
  - assert (Hstatus2 : repo_status q2 = NEED_EXIT) by (rewrite Hst2, Hq1; reflexivity).
    assert (Hempty2 : IsEmptyQueue q2 = true)
      by (apply (IsEmptyQueue_no_contents q2 Hok2); exact Hcont2).
    set (q3 := SetReadWorking false (set_repo_status CAN_EXIT (SetReadWorking true q2))).
    exists q3. split.
    + rewrite Hrun. cbn [StartConsume_loop]. unfold GetStatus.
      rewrite bool_decide_eq_false_2 by (rewrite Hstatus2; discriminate).
      unfold Dequeue. rewrite Hinit2. cbn [negb Dequeue_loop].
      rewrite bool_decide_eq_false_2 by (fields; rewrite Hstatus2; discriminate).
      rewrite (ReadQueue_empty execFunc (SetReadWorking true q2) Hempty2).
      rewrite bool_decide_eq_true_2 by exact Hstatus2.
      fold q3. rewrite bool_decide_eq_true_2 by reflexivity. reflexivity.
    + split; [reflexivity |]. split.
      * destruct (ring_same q2 q3) as (-> & _); try reflexivity. exact Hcont2.
      * change (calls q3) with (calls q2). rewrite Hc2, Hq1. reflexivity.
Qed.

(** X21: [MakeSureQueueEmpty] returns only after the waiting tasks have
    run.  On a well-formed ring with waiting records that all execute
    with success, while the queue is running and no token is pending, the
    call is suspended with [need_empty] set; the consumer then executes
    and releases every waiting record in ring order and signals
    [efd_empty] before it goes to sleep; and the suspended call, resumed
    by that signal, returns SUCCESS with [need_empty] cleared and the ring
    empty. *)
Theorem MakeSureQueueEmpty_waits_for_pending_tasks (q : Repository Param)
    (Hok : ring_ok q) (Hinit : initialized q = true)
    (Hstatus : repo_status q = RUN \/ repo_status q = INIT)
    (Hflag : need_empty q = false)
    (Hec : efd_empty_counter q = 0) (Hrc : efd_read_counter q = 0)
    (Hpending : ring_contents q <> [])
    (Hexec : Forall (fun record => execFunc record = 0) (ring_contents q)) :
  let n := length (ring_contents q) in
  exists q1 q2 q3,
    MakeSureQueueEmpty true q = (MakeSureBlocked, q1) /\
    need_empty q1 = true /\
    StartConsume_loop execFunc (n + 1) q1 = (DequeueBlocked, q2) /\
    calls q2 = calls q ++ executes (ring_positions (read_idx q) n) /\
    MakeSureQueueEmpty_wake q2 = (MakeSureReturned SUCCESS, q3) /\
    need_empty q3 = false /\
    ring_contents q3 = [].
Proof.
  intros n.
  assert (Hempty : IsEmptyQueue q = false).
  { destruct (IsEmptyQueue q) eqn:E; [| reflexivity].
    apply (IsEmptyQueue_no_contents q Hok) in E. contradiction. }
  assert (Hnot : repo_status q <> CAN_EXIT /\ repo_status q <> NEED_EXIT).
  { destruct Hstatus as [-> | ->]; split; discriminate. }
  destruct Hnot as [Hcan Hneed].
  set (q1 := set_need_empty true q).
  destruct (ring_same q q1) as (Hsame & Hok1 & _); try reflexivity.
  destruct (consume_rounds n q1 1)
    as (q' & Hrun & Hok' & Hinit' & Hst' & Hcont' & Hc' & Hne' & Hrc' & Hec').
  - exact (Hok1 Hok).
  - exact Hinit.
  - exact Hcan.
  - rewrite Hsame. reflexivity.
  - rewrite Hsame. exact Hexec.
  - assert (Hn : 0 < Z.of_nat n).
    { subst n. destruct (ring_contents q); [contradiction | cbn [length]; lia]. }
    assert (Hempty' : IsEmptyQueue q' = true)
      by (apply (IsEmptyQueue_no_contents q' Hok'); exact Hcont').
    change (need_empty q1) with true in Hne', Hec'.
    change (efd_empty_counter q1) with (efd_empty_counter q) in Hec'.
    change (efd_read_counter q1) with (efd_read_counter q) in Hrc'.
    change (repo_status q1) with (repo_status q) in Hst'.
    change (calls q1) with (calls q) in Hc'.
    change (read_idx q1) with (read_idx q) in Hc'.
    apply Z.ltb_lt in Hn. rewrite Hn in Hec'. cbn [andb] in Hec'. rewrite Hec in Hec'.
    rewrite Hrc in Hrc'.
    set (q2 := SetReadWorking false (SetReadWorking true q')).
    set (q3 := set_need_empty false
                 (set_counters (efd_read_counter q2) (efd_write_counter q2) 0 q2)).
    exists q1, q2, q3.
    split.
    { unfold MakeSureQueueEmpty. rewrite Hinit. cbn [negb MakeSureQueueEmpty_loop].
      rewrite Hempty. change (IsEmptyQueue (set_need_empty true q)) with (IsEmptyQueue q).
      rewrite Hempty. cbn [negb]. unfold eventfd_read_empty. fields.
      rewrite Hec. reflexivity. }
    split; [reflexivity |].
    split.
    { rewrite Hrun. cbn [StartConsume_loop]. unfold GetStatus.
      rewrite bool_decide_eq_false_2 by (rewrite Hst'; exact Hcan).
      unfold Dequeue. rewrite Hinit'. cbn [negb Dequeue_loop].
      rewrite bool_decide_eq_false_2 by (fields; rewrite Hst'; exact Hcan).
      rewrite (ReadQueue_empty execFunc (SetReadWorking true q') Hempty').
      rewrite bool_decide_eq_false_2 by (fields; rewrite Hst'; exact Hneed).
      change (IsEmptyQueue (SetReadWorking false (SetReadWorking true q')))
        with (IsEmptyQueue q').
      rewrite Hempty'. unfold eventfd_read_read. fields. rewrite Hrc'. reflexivity. }
    split; [exact Hc' |].
    split.
    { assert (HE3 : IsEmptyQueue q3 = true) by exact Hempty'.
      unfold MakeSureQueueEmpty_wake, eventfd_read_empty.
      change (efd_empty_counter q2) with (efd_empty_counter q'). rewrite Hec'.
      change (0 + 1 =? 0) with false. cbv iota.
      change (MakeSureQueueEmpty_loop 2 q3 = (MakeSureReturned SUCCESS, q3)).
      cbn [MakeSureQueueEmpty_loop]. rewrite HE3. reflexivity. }
    split; [reflexivity |].
    destruct (ring_same q' q3) as (-> & _); try reflexivity. exact Hcont'.
Qed.

End ConsumerThread.

Lemma consumer_runs_pending_tasks_before_exit_witness :
  let q := snd (Queue.WriteQueue (fun _ x => x) 5 (Queue.init_repo 0 3)) in
  let n := length (QueueThreads.ring_contents q) in
  let q1 := QueueThreads.Repository_destructor_request true q in
  exists q',
    QueueThreads.StartConsume_loop (fun _ => 0) (n + 2) q1 = (Queue.DequeueReturned, q') /\
    Queue.repo_status q' = Queue.CAN_EXIT /\
    QueueThreads.ring_contents q' = [] /\
    Queue.calls q'
    = Queue.calls q ++ QueueThreads.executes (Queue.ring_positions (Queue.read_idx q) n).
Proof.
  intros q.
  apply (consumer_runs_pending_tasks_before_exit (fun _ => 0) q).
  - repeat split; try reflexivity; try discriminate.
  - reflexivity.
  - apply Forall_forall. intros; reflexivity.
Defined.

Lemma MakeSureQueueEmpty_waits_for_pending_tasks_witness :
  let q := snd (Queue.WriteQueue (fun _ x => x) 5 (Queue.init_repo 0 3)) in
  let n := length (QueueThreads.ring_contents q) in
  exists q1 q2 q3,
    QueueThreads.MakeSureQueueEmpty true q = (QueueThreads.MakeSureBlocked, q1) /\
    Queue.need_empty q1 = true /\
    QueueThreads.StartConsume_loop (fun _ => 0) (n + 1) q1 = (Queue.DequeueBlocked, q2) /\
    Queue.calls q2
    = Queue.calls q ++ QueueThreads.executes (Queue.ring_positions (Queue.read_idx q) n) /\
    QueueThreads.MakeSureQueueEmpty_wake q2
    = (QueueThreads.MakeSureReturned QueueThreads.SUCCESS, q3) /\
    Queue.need_empty q3 = false /\
    QueueThreads.ring_contents q3 = [].
Proof.
  intros q.
  apply (MakeSureQueueEmpty_waits_for_pending_tasks (fun _ => 0) q).
  - repeat split; try reflexivity; try discriminate.
  - reflexivity.
  - right. reflexivity.
  - reflexivity.
  - reflexivity.
  - reflexivity.
  - vm_compute. discriminate.
  - apply Forall_forall. intros; reflexivity.
Defined.


(** * Further properties of the allocators *)

Section Shutdown.

Context {D : Type} (ops : DriverOps D).

(** X22: after [devSetShutdownStats], [free] records no event.  In any
    state and for any block, once the shutdown flag is set [free] makes
    no driver call and leaves the pending events as they are, also for a
    block with recorded stream uses. *)
Theorem free_after_shutdown_records_no_event (block : Z) (st : State D) :
  let st1 := snd (devSetShutdownStats st) in
  driver_log (snd (free ops block st1)) = driver_log st1 /\
  npu_events (this (snd (free ops block st1))) = npu_events (this st1).
Proof.
  intros st1.
  assert (Hflag : shutdown_stats (this st1) = true) by reflexivity.
  clearbody st1.
  assert (Hfb : forall st' : State D,
            driver_log (snd (free_block block st')) = driver_log st' /\
            npu_events (this (snd (free_block block st'))) = npu_events (this st')).
  { intros st'. split; symmetry.
    - apply (steps_free_block driver_log eq); try reflexivity.
      intros x y z -> ->. reflexivity.
    - apply (steps_free_block (fun s : State D => npu_events (this s)) eq); try reflexivity.
      intros x y z -> ->. reflexivity. }
  destruct (heap (world st1) !! block) as [blk |] eqn:Hblk.
  2: { unfold free, update_block, store, bind, load, modify. rewrite Hblk.
       split; reflexivity. }
  unfold free, update_block, store, bind, load, modify. cbn.
  rewrite Hblk. cbn. rewrite lookup_insert_eq.
  unfold select_stat_types, get_stat_type_for_pool, bind, pool_is_small, ret, throw.
  cbn [b_pool set_b_allocated b_size b_stream_uses].
  destruct (b_pool blk); [split; reflexivity | |].
  all: unfold when, modify_stats, modify, ret.
  all: destruct (_ <=? b_size blk).
  all: cbn [this shutdown_stats set_stats set_heap].
  all: rewrite Hflag, andb_false_r.
  all: cbv beta iota.
  all: match goal with
       | |- context [@free_block _ _ ?s] => destruct (Hfb s) as [H1 H2]
       end.
  all: split; [rewrite H1 | rewrite H2]; reflexivity.
Qed.

End Shutdown.

(** ** Merging blocks *)

Section Merge.

Context {D : Type}.

Lemma run_pool_erase (pool : PoolPtr) (b : Z) (s : State D) :
  pool <> NullPool ->
  exists s', pool_erase pool b s = (Ok tt, s') /\ heap (world s') = heap (world s).
Proof.
  intros H. destruct pool; [contradiction | |]; eexists; split; reflexivity.
Qed.

(** X23: a merge loses no byte.  When [src] is a free block without
    pending events next to [dst] in its segment, [try_merge_blocks]
    answers the size of [src], removes [src] from the block store, and
    leaves [dst] with the two sizes added up in [size_t]; merging the
    predecessor moves the start of [dst] to the start of [src] and takes
    over its predecessor, merging the successor keeps the start of [dst]
    and takes over the successor of [src]. *)
Theorem try_merge_blocks_absorbs_neighbour (dst src : Z) (pool : PoolPtr)
    (st : State D) (d s : Block)
    (Hsrc : src <> 0) (Hne : dst <> src)
    (Hd : heap (world st) !! dst = Some d)
    (Hs : heap (world st) !! src = Some s)
    (Hfree : b_allocated s = false) (Hevents : b_event_count s <= 0)
    (Hsplit : is_split d && is_split s = true)
    (Hpool : pool <> NullPool)
    (Hbeyond :
       let beyond := if b_prev d =? src then b_prev s else b_next s in
       beyond = 0 \/ (beyond <> dst /\ is_Some (heap (world st) !! beyond))) :
  let r := try_merge_blocks dst src pool st in
  fst r = Ok (b_size s) /\
  heap (world (snd r)) !! src = None /\
  exists d',
    heap (world (snd r)) !! dst = Some d' /\
    b_size d' = wrap64 (b_size d + b_size s) /\
    (if b_prev d =? src
     then b_ptr d' = b_ptr s /\ b_prev d' = b_prev s /\ b_next d' = b_next d
     else b_ptr d' = b_ptr d /\ b_prev d' = b_prev d /\ b_next d' = b_next s).
Proof.
  intros r.
  assert (Hr : r = try_merge_blocks dst src pool st) by reflexivity. clearbody r.
  unfold try_merge_blocks in Hr.
  apply Z.eqb_neq in Hsrc. rewrite Hsrc in Hr.
  erewrite (bind_Ok (load src)) in Hr by (apply run_load; exact Hs).
  rewrite Hfree in Hr.
  assert (Hev : (0 <? b_event_count s) = false) by (apply Z.ltb_ge; exact Hevents).
  rewrite Hev in Hr. cbn [orb] in Hr.
  erewrite (bind_Ok (load dst)) in Hr by (apply run_load; exact Hd).
  rewrite Hsplit in Hr. cbn [AT_ASSERT] in Hr.
  unfold bind at 1 in Hr. cbn [ret] in Hr.
  (* the links *)
  assert (Hlinks : exists d1 s1,
            (if b_prev d =? src
             then update_block dst (fun d => set_b_prev (set_b_ptr d (b_ptr s)) (b_prev s)) ;;;
                  when (negb (b_prev s =? 0))
                       (update_block (b_prev s) (fun x => set_b_next x dst))
             else update_block dst (fun d => set_b_next d (b_next s)) ;;;
                  when (negb (b_next s =? 0))
                       (update_block (b_next s) (fun x => set_b_prev x dst))) st
            = (Ok tt, s1) /\
            heap (world s1) !! dst = Some d1 /\
            is_Some (heap (world s1) !! src) /\
            b_size d1 = b_size d /\
            (if b_prev d =? src
             then b_ptr d1 = b_ptr s /\ b_prev d1 = b_prev s /\ b_next d1 = b_next d
             else b_ptr d1 = b_ptr d /\ b_prev d1 = b_prev d /\ b_next d1 = b_next s)).
  { cbv zeta in Hbeyond.
    destruct (b_prev d =? src).
    - destruct (run_update_block dst
                  (fun d => set_b_prev (set_b_ptr d (b_ptr s)) (b_prev s)) d st Hd)
        as (s1 & E1 & H1).
      erewrite bind_Ok by exact E1.
      destruct (Z.eqb_spec (b_prev s) 0) as [H0 | H0]; cbn [negb when].
      + eexists _, s1. split; [reflexivity |]. rewrite H1.
        split; [apply lookup_insert_eq |].
        split; [rewrite lookup_insert_ne by exact Hne; eauto |].
        repeat split.
      + destruct Hbeyond as [? | [Hbd [x Hx]]]; [contradiction |].
        destruct (run_update_block (b_prev s) (fun x => set_b_next x dst) x s1)
          as (s2 & E2 & H2).
        { rewrite H1, lookup_insert_ne by congruence. exact Hx. }
        eexists _, s2. split; [exact E2 |]. rewrite H2, H1.
        split; [rewrite lookup_insert_ne by exact Hbd; apply lookup_insert_eq |].
        split.
        { destruct (decide (b_prev s = src)) as [-> | Hps].
          - rewrite lookup_insert_eq. eauto.
          - rewrite lookup_insert_ne by exact Hps.
            rewrite lookup_insert_ne by exact Hne. eauto. }
        repeat split.
    - destruct (run_update_block dst (fun d => set_b_next d (b_next s)) d st Hd)
        as (s1 & E1 & H1).
      erewrite bind_Ok by exact E1.
      destruct (Z.eqb_spec (b_next s) 0) as [H0 | H0]; cbn [negb when].
      + eexists _, s1. split; [reflexivity |]. rewrite H1.
        split; [apply lookup_insert_eq |].
        split; [rewrite lookup_insert_ne by exact Hne; eauto |].
        repeat split.
      + destruct Hbeyond as [? | [Hbd [x Hx]]]; [contradiction |].
        destruct (run_update_block (b_next s) (fun x => set_b_prev x dst) x s1)
          as (s2 & E2 & H2).
        { rewrite H1, lookup_insert_ne by congruence. exact Hx. }
        eexists _, s2. split; [exact E2 |]. rewrite H2, H1.
        split; [rewrite lookup_insert_ne by exact Hbd; apply lookup_insert_eq |].
        split.
        { destruct (decide (b_next s = src)) as [-> | Hps].
          - rewrite lookup_insert_eq. eauto.
          - rewrite lookup_insert_ne by exact Hps.
            rewrite lookup_insert_ne by exact Hne. eauto. }
        repeat split. }
  destruct Hlinks as (d1 & s1 & E1 & Hd1 & Hs1 & Hsize1 & Hfields1).
  erewrite (bind_Ok (if b_prev d =? src then _ else _)) in Hr by exact E1.
  (* the size *)
  destruct (run_update_block dst (fun d => set_b_size d (wrap64 (b_size d + b_size s))) d1 s1 Hd1)
    as (s2 & E2 & H2).
  erewrite (bind_Ok (update_block dst _)) in Hr by exact E2.
  destruct (run_pool_erase pool src s2 Hpool) as (s3 & E3 & H3).
  erewrite (bind_Ok (pool_erase _ _)) in Hr by exact E3.
  unfold bind at 1, delete_Block, modify, ret in Hr.
  subst r. cbn [fst snd set_heap world heap].
  split; [reflexivity |]. split; [apply lookup_delete_eq |].
  exists (set_b_size d1 (wrap64 (b_size d1 + b_size s))).
  rewrite H3, H2. split.
  - rewrite lookup_delete_ne by (intros Heq; apply Hne; symmetry; exact Heq).
    apply lookup_insert_eq.
  - cbn [b_size set_b_size]. rewrite Hsize1. split; [reflexivity |].
    destruct (b_prev d =? src); exact Hfields1.
Qed.

End Merge.

Lemma try_merge_blocks_absorbs_neighbour_witness :
  let first := set_b_next (new_Block 0 7 1536 SmallPool 4096) 2 in
  let second := set_b_prev (new_Block 0 7 4096 SmallPool 5632) 1 in
  let st := set_heap (<[1 := first]> (<[2 := second]> ∅))
              (init_state default_config (sim_driver 0)) in
  let r := try_merge_blocks 1 2 SmallPool st in
  fst r = Ok (b_size second) /\
  heap (world (snd r)) !! 2 = None /\
  exists d',
    heap (world (snd r)) !! 1 = Some d' /\
    b_size d' = wrap64 (b_size first + b_size second) /\
    (if b_prev first =? 2
     then b_ptr d' = b_ptr second /\ b_prev d' = b_prev second /\ b_next d' = b_next first
     else b_ptr d' = b_ptr first /\ b_prev d' = b_prev first /\ b_next d' = b_next second).
Proof.
  intros first second st.
  apply (try_merge_blocks_absorbs_neighbour 1 2 SmallPool st first second).
  - discriminate.
  - discriminate.
  - reflexivity.
  - reflexivity.
  - reflexivity.
  - discriminate.
  - reflexivity.
  - discriminate.
  - left. reflexivity.
Defined.

(** ** The table of device allocators *)

Section DeviceTable.

Context {D : Type} (ops : DriverOps D).
Variable garbage : StatTypes.




End DeviceTable.


(** ** The size of the cache *)

Section CacheInfo.

Context {D : Type}.

Lemma cache_info_aux_spec (st : State D) (blocks : list Z) :
  forall total largest,
    (forall b, b ∈ blocks -> is_Some (heap (world st) !! b)) ->
    0 <= largest ->
    cache_info_aux blocks (wrap64 total) largest st
    = (Ok (wrap64 (total + sum_list (sizes_of (heap (world st)) blocks)),
           Z.max largest (max_list (sizes_of (heap (world st)) blocks))),
       st).
Proof.
  induction blocks as [| b blocks IH]; intros total largest Hin Hl.
  - cbn. rewrite Z.add_0_r, Z.max_l by exact Hl. reflexivity.
  - destruct (Hin b (list_elem_of_here _ _)) as [blk Hblk].
    cbn [cache_info_aux].
    erewrite bind_Ok by (apply run_load; exact Hblk).
    rewrite wrap64_add_l.
    rewrite IH.
    + assert (Hcons : sizes_of (heap (world st)) (b :: blocks)
                      = b_size blk :: sizes_of (heap (world st)) blocks).
      { unfold sizes_of. rewrite omap_cons, Hblk. reflexivity. }
      rewrite Hcons.
      change (sum_list (b_size blk :: sizes_of (heap (world st)) blocks))
        with (b_size blk + sum_list (sizes_of (heap (world st)) blocks)).
      change (max_list (b_size blk :: sizes_of (heap (world st)) blocks))
        with (Z.max (b_size blk) (max_list (sizes_of (heap (world st)) blocks))).
      rewrite Z.add_assoc.
      replace (Z.max largest
                 (Z.max (b_size blk) (max_list (sizes_of (heap (world st)) blocks))))
        with (Z.max (if largest <? b_size blk then b_size blk else largest)
                (max_list (sizes_of (heap (world st)) blocks)))
        by (destruct (Z.ltb_spec largest (b_size blk)); lia).
      reflexivity.
    + intros b' Hb'. apply Hin, list_elem_of_further, Hb'.
    + destruct (Z.ltb_spec largest (b_size blk)); lia.
Qed.

Lemma max_le_sum (l : list Z) : Forall (fun x => 0 <= x) l -> 0 <= max_list l <= sum_list l.
Proof.
  induction 1 as [| x l Hx _ IH]; cbn [max_list sum_list foldr]; [lia |].
  fold (max_list l). fold (sum_list l). lia.
Qed.

Lemma max_list_bounds (l : list Z) : forall x, x ∈ l -> x <= max_list l.
Proof.
  induction l as [| y l IH]; intros x Hx; [apply elem_of_nil in Hx; contradiction |].
  cbn [max_list foldr]. fold (max_list l).
  apply elem_of_cons in Hx as [-> | Hx]; [lia |]. specialize (IH x Hx). lia.
Qed.

Lemma max_list_attained (l : list Z) : max_list l = 0 \/ max_list l ∈ l.
Proof.
  induction l as [| y l IH]; [left; reflexivity |].
  cbn [max_list foldr]. fold (max_list l).
  destruct (Z.max_spec y (max_list l)) as [[_ ->] | [_ ->]].
  - destruct IH as [-> | IH]; [left; reflexivity | right; apply list_elem_of_further, IH].
  - right. apply list_elem_of_here.
Qed.

(** X26: [cacheInfo] gives the total and the largest of the cached
    blocks.  With the two outputs at zero before the call and every
    cached block in the block store, the call changes nothing and
    answers, for the sizes of the blocks of the two pools, their sum in
    [size_t] and their maximum: every cached block is at most [largest],
    [largest] is the size of a cached block unless it is zero, and, when
    the sizes are not negative and their sum does not wrap around,
    [largest] is at most [total]. *)
Theorem cacheInfo_totals_the_cache (st : State D)
    (Hcached : forall b, b ∈ large_blocks (this st) ++ small_blocks (this st) ->
                         is_Some (heap (world st) !! b)) :
  let sizes := sizes_of (heap (world st)) (large_blocks (this st) ++ small_blocks (this st)) in
  cacheInfo 0 0 st = (Ok (wrap64 (sum_list sizes), max_list sizes), st) /\
  (forall x, x ∈ sizes -> x <= max_list sizes) /\
  (max_list sizes = 0 \/ max_list sizes ∈ sizes) /\
  (Forall (fun x => 0 <= x) sizes -> sum_list sizes < 2 ^ 64 ->
   max_list sizes <= wrap64 (sum_list sizes)).
Proof.
  intros sizes.
  split; [| split; [apply max_list_bounds | split; [apply max_list_attained |]]].
  - unfold cacheInfo, bind at 1, gets. cbn [fst snd].
    change 0 with (wrap64 0) at 1.
    erewrite bind_Ok.
    2: { apply cache_info_aux_spec; [| lia].
         intros b Hb. apply Hcached, elem_of_app. left. exact Hb. }
    unfold bind at 1. cbn [fst snd].
    rewrite cache_info_aux_spec.
    + subst sizes. unfold sizes_of. rewrite omap_app.
      fold (sizes_of (heap (world st)) (large_blocks (this st))).
      fold (sizes_of (heap (world st)) (small_blocks (this st))).
      set (l1 := sizes_of (heap (world st)) (large_blocks (this st))).
      set (l2 := sizes_of (heap (world st)) (small_blocks (this st))).
      assert (Hsum : sum_list (l1 ++ l2) = sum_list l1 + sum_list l2).
      { clear. induction l1 as [| x l1 IH]; [reflexivity |].
        cbn [app sum_list foldr]. fold (sum_list (l1 ++ l2)). fold (sum_list l1). lia. }
      assert (Hmax : max_list (l1 ++ l2) = Z.max (max_list l1) (max_list l2)).
      { clear. induction l1 as [| x l1 IH].
        - cbn [app max_list foldr]. fold (max_list l2).
          assert (0 <= max_list l2).
          { clear. induction l2 as [| y l2 IH]; cbn [max_list foldr]; [lia |].
            fold (max_list l2). lia. }
          lia.
        - cbn [app max_list foldr]. fold (max_list (l1 ++ l2)). fold (max_list l1). lia. }
      rewrite Hsum, Hmax.
      assert (H0 : 0 <= max_list l1).
      { clear. induction l1 as [| y l1 IH]; cbn [max_list foldr]; [lia |].
        fold (max_list l1). lia. }
      rewrite (Z.max_r 0 (max_list l1)) by exact H0.
      rewrite Z.add_0_l. reflexivity.
    + intros b Hb. apply Hcached, elem_of_app. right. exact Hb.
    + assert (H0 : forall l, 0 <= max_list l).
      { clear. induction l as [| y l IH]; cbn [max_list foldr]; [lia |].
        fold (max_list l). lia. }
      specialize (H0 (sizes_of (heap (world st)) (large_blocks (this st)))). lia.
  - intros Hpos Hsum. destruct (max_le_sum sizes Hpos) as [H0 Hle].
    unfold wrap64. rewrite Z.mod_small by lia. exact Hle.
Qed.

End CacheInfo.

Lemma cacheInfo_totals_the_cache_witness :
  let st := one_cached_block (41 * MiB - 32) in
  let sizes := sizes_of (heap (world st)) (large_blocks (this st) ++ small_blocks (this st)) in
  cacheInfo 0 0 st = (Ok (wrap64 (sum_list sizes), max_list sizes), st) /\
  (forall x, x ∈ sizes -> x <= max_list sizes) /\
  (max_list sizes = 0 \/ max_list sizes ∈ sizes) /\
  (Forall (fun x => 0 <= x) sizes -> sum_list sizes < 2 ^ 64 ->
   max_list sizes <= wrap64 (sum_list sizes)).
Proof.
  intros st.
  apply (cacheInfo_totals_the_cache st).
  assert (Hl : large_blocks (this st) ++ small_blocks (this st) = [1])
    by (vm_compute; reflexivity).
  rewrite Hl. intros b Hb. apply list_elem_of_singleton in Hb. subst b.
  vm_compute. eauto.
Defined.

